(** * qr-selfie: the upload-to-share server, embedded and verified

    The server keeps one process-wide manifest object that maps photo ids to
    records, writes uploaded bytes to an uploads directory, rewrites the
    manifest file on every upload and answers metadata, view and QR
    requests.  This file embeds that program: the JavaScript values and
    property reads it relies on, the library calls it makes ([nanoid],
    [path.extname], [JSON.stringify] and [JSON.parse], the file system), the
    four request handlers, and the properties of the specification stated
    over them.  The routes express serves by itself (the two static mounts
    and the favicon) are not part of the embedding.

    The module [Client] embeds the script of the page the server hands to
    the browser (camera, capture, upload and result section) and the
    script of the viewer page, so that the path from a capture to the
    shared photo page can be followed through both programs. *)

From Stdlib Require Import ZArith Ascii String List Bool Lia DecimalString DecimalZ DecimalPos DecimalFacts.
From stdpp Require Import gmap strings list fin_maps.

Local Open Scope Z_scope.

(** ** Characters and strings

    A JavaScript string is modelled by the [string] of its UTF-8 bytes; the
    ids, content types and URLs of this program are ASCII, for which bytes
    and characters coincide. *)

Module Chars.

Definition quote : ascii := "034"%char.
Definition backslash : ascii := "092"%char.
Definition newline : ascii := "010"%char.
Definition slash : ascii := "/"%char.
Definition dot : ascii := "."%char.
Definition code (c : ascii) : Z := Z.of_N (N_of_ascii c).

End Chars.

(** [s.slice(from, to)] for [0 <= from <= to]. *)
Definition slice (s : string) (from to : Z) : string :=
  String.substring (Z.to_nat from) (Z.to_nat (to - from)) s.

Fixpoint contains_char (c : ascii) (s : string) : bool :=
  match s with
  | EmptyString => false
  | String a rest => Ascii.eqb a c || contains_char c rest
  end.

(** ** JavaScript values met by the handlers

    Property reads on the two plain objects of the program ([manifest] and
    [mimeToExt]) yield an own property, a member inherited from
    [Object.prototype], or [undefined]. *)

(** A manifest record; [createdAt] is the integer [Date.now()] returned. *)
Record PhotoRecord := mkRecord { filename : string; createdAt : Z }.

Inductive jsval :=
| VUndefined
| VString (s : string)
| VRecord (r : PhotoRecord)
| VBuiltin (name : string).

(** The string-keyed members every plain object inherits. *)
Definition Object_prototype_keys : list string :=
  [ "constructor"; "__defineGetter__"; "__defineSetter__"; "hasOwnProperty";
    "__lookupGetter__"; "__lookupSetter__"; "isPrototypeOf";
    "propertyIsEnumerable"; "toString"; "valueOf"; "__proto__";
    "toLocaleString" ].

Definition inherited (key : string) : bool :=
  bool_decide (key ∈ Object_prototype_keys).

(** [obj[key]] on a plain object whose own properties are [own]. *)
Definition obj_get {A} (inj : A → jsval) (own : gmap string A) (key : string) : jsval :=
  match own !! key with
  | Some a => inj a
  | None => if inherited key then VBuiltin key else VUndefined
  end.

(** ToBoolean. *)
Definition truthy (v : jsval) : bool :=
  match v with
  | VUndefined => false
  | VString s => negb (String.eqb s "")
  | VRecord _ => true
  | VBuiltin _ => true
  end.

(** [a || b]. *)
Definition js_or (a b : jsval) : jsval := if truthy a then a else b.

(** ToString, as string concatenation and template literals apply it.  An
    inherited member is a native function, except [__proto__], which reads
    as the prototype object itself. *)
Definition builtin_to_string (key : string) : string :=
  if String.eqb key "__proto__" then "[object Object]"
  else if String.eqb key "constructor" then "function Object() { [native code] }"
  else "function " +:+ key +:+ "() { [native code] }".

Definition to_string (v : jsval) : string :=
  match v with
  | VUndefined => "undefined"
  | VString s => s
  | VRecord _ => "[object Object]"
  | VBuiltin key => builtin_to_string key
  end.

(** [rec.filename] for a truthy [rec]. *)
Definition get_filename (v : jsval) : jsval :=
  match v with
  | VRecord r => VString (filename r)
  | _ => VUndefined
  end.

(** ** nanoid

    [nanoid(size)] reads [size] bytes of the random pool and maps each to the
    character of the URL alphabet at index [byte & 63]. *)

Definition urlAlphabet : string :=
  "useandom-26T198340PX75pxJACKVERYMINDBUSHWOLF_GQZbfghjklqvwyzrict".

Definition alphabet_char (byte : Z) : ascii :=
  match String.get (Z.to_nat (Z.land byte 63)) urlAlphabet with
  | Some c => c
  | None => "000"%char
  end.

Fixpoint nanoid_from (pool : nat → Z) (i size : nat) : string :=
  match size with
  | O => ""
  | S k => String (alphabet_char (pool i)) (nanoid_from pool (S i) k)
  end.

Definition nanoid (size : nat) (pool : nat → Z) : string := nanoid_from pool 0 size.

(** ** path.extname (POSIX)

    The backwards scan of Node's [path.extname]: [n] is the number of
    characters still to visit, so the character visited is at index [n - 1]. *)

Record ExtScan := mkScan {
  startDot : Z;
  startPart : Z;
  endIdx : Z;
  matchedSlash : bool;
  preDotState : Z
}.

Definition scan_init : ExtScan :=
  {| startDot := -1; startPart := 0; endIdx := -1; matchedSlash := true; preDotState := 0 |}.

Definition scan_char (i : Z) (c : ascii) (st : ExtScan) : ExtScan :=
  let st1 :=
    if endIdx st =? -1
    then {| startDot := startDot st; startPart := startPart st; endIdx := i + 1;
            matchedSlash := false; preDotState := preDotState st |}
    else st in
  if Ascii.eqb c Chars.dot then
    if startDot st1 =? -1
    then {| startDot := i; startPart := startPart st1; endIdx := endIdx st1;
            matchedSlash := matchedSlash st1; preDotState := preDotState st1 |}
    else if negb (preDotState st1 =? 1)
    then {| startDot := startDot st1; startPart := startPart st1; endIdx := endIdx st1;
            matchedSlash := matchedSlash st1; preDotState := 1 |}
    else st1
  else if negb (startDot st1 =? -1)
  then {| startDot := startDot st1; startPart := startPart st1; endIdx := endIdx st1;
          matchedSlash := matchedSlash st1; preDotState := -1 |}
  else st1.

Fixpoint extname_scan (path : string) (n : nat) (st : ExtScan) : ExtScan :=
  match n with
  | O => st
  | S i =>
    match String.get i path with
    | None => st
    | Some c =>
      if Ascii.eqb c Chars.slash then
        if negb (matchedSlash st)
        then {| startDot := startDot st; startPart := Z.of_nat i + 1; endIdx := endIdx st;
                matchedSlash := matchedSlash st; preDotState := preDotState st |}
        else extname_scan path i st
      else extname_scan path i (scan_char (Z.of_nat i) c st)
    end
  end.

Definition extname (path : string) : string :=
  let st := extname_scan path (String.length path) scan_init in
  if (startDot st =? -1) || (endIdx st =? -1) || (preDotState st =? 0)
     || ((preDotState st =? 1) && (startDot st =? endIdx st - 1)
         && (startDot st =? startPart st + 1))
  then ""
  else slice path (startDot st) (endIdx st).

(** ** The extension table and the choice of extension *)

Definition mimeToExt : gmap string string :=
  list_to_map
    [ ("image/jpeg", ".jpg"); ("image/jpg", ".jpg"); ("image/png", ".png");
      ("image/webp", ".webp"); ("image/gif", ".gif"); ("image/heic", ".heic");
      ("image/heif", ".heif") ].

(** [req.file] as multer's memory storage leaves it: the name and the
    content type the client declared, and the bytes. *)
Record File := mkFile { originalname : string; mimetype : string; buffer : string }.

(** [mimeToExt[req.file.mimetype] || path.extname(req.file.originalname) || '.jpg'] *)
Definition choose_ext (f : File) : jsval :=
  js_or (js_or (obj_get VString mimeToExt (mimetype f))
               (VString (extname (originalname f))))
        (VString ".jpg").

(** ** JSON

    [JSON.stringify(value, null, 2)] and [JSON.parse] over the text of the
    manifest file.  Integers are carried exactly, as JavaScript numbers carry
    them up to 2^53, which covers every [Date.now()]; a number written with a
    fraction or an exponent is kept as its lexeme.  An escape [\uXXXX] is
    stored as the UTF-8 bytes of its code point.  Object members are kept in
    the order of the text. *)

Module JSON.

Import Chars.

#[warnings="-register-all"] Inductive json :=
| JNull
| JBool (b : bool)
| JNum (n : Z)
| JReal (lexeme : string)
| JStr (s : string)
| JArr (items : list json)
| JObj (fields : list (string * json)).

(** *** Serialisation *)

Definition hex_digit (n : Z) : ascii :=
  match String.get (Z.to_nat n) "0123456789abcdef" with
  | Some c => c
  | None => "0"%char
  end.

Definition escape_char (c : ascii) : string :=
  if Ascii.eqb c quote then String backslash (String quote "")
  else if Ascii.eqb c backslash then String backslash (String backslash "")
  else if Ascii.eqb c "008" then String backslash "b"
  else if Ascii.eqb c "012" then String backslash "f"
  else if Ascii.eqb c "010" then String backslash "n"
  else if Ascii.eqb c "013" then String backslash "r"
  else if Ascii.eqb c "009" then String backslash "t"
  else if code c <? 32
  then String backslash
         (String "u" (String "0" (String "0"
           (String (hex_digit (code c / 16)) (String (hex_digit (code c mod 16)) "")))))
  else String c "".

Fixpoint escape (s : string) : string :=
  match s with
  | EmptyString => ""
  | String c rest => escape_char c +:+ escape rest
  end.

Definition quote_string (s : string) : string :=
  String quote (escape s +:+ String quote "").

Definition number_to_string (n : Z) : string :=
  DecimalString.NilZero.string_of_int (Z.to_int n).

Fixpoint spaces (n : nat) : string :=
  match n with
  | O => ""
  | S k => String " " (spaces k)
  end.

(** The indentation at nesting depth [d], for a gap of two spaces. *)
Definition indent (d : nat) : string := spaces (2 * d).

Definition nl : string := String newline "".

Fixpoint serialize (d : nat) (v : json) : string :=
  match v with
  | JNull => "null"
  | JBool true => "true"
  | JBool false => "false"
  | JNum n => number_to_string n
  | JReal lexeme => lexeme
  | JStr s => quote_string s
  | JArr [] => "[]"
  | JArr (x :: xs) =>
    "[" +:+ nl +:+ indent (S d) +:+ serialize (S d) x
    +:+ (fix more (l : list json) : string :=
           match l with
           | [] => ""
           | y :: ys => "," +:+ nl +:+ indent (S d) +:+ serialize (S d) y +:+ more ys
           end) xs
    +:+ nl +:+ indent d +:+ "]"
  | JObj [] => "{}"
  | JObj ((k, x) :: fs) =>
    "{" +:+ nl +:+ indent (S d) +:+ quote_string k +:+ ": " +:+ serialize (S d) x
    +:+ (fix more (l : list (string * json)) : string :=
           match l with
           | [] => ""
           | (k', y) :: ys =>
             "," +:+ nl +:+ indent (S d) +:+ quote_string k' +:+ ": "
             +:+ serialize (S d) y +:+ more ys
           end) fs
    +:+ nl +:+ indent d +:+ "}"
  end.

(** [JSON.stringify(value, null, 2)] *)
Definition stringify (v : json) : string := serialize 0 v.

(** *** Parsing *)

Definition is_ws (c : ascii) : bool :=
  Ascii.eqb c " " || Ascii.eqb c "009" || Ascii.eqb c "010" || Ascii.eqb c "013".

Fixpoint skip_ws (s : string) : string :=
  match s with
  | EmptyString => ""
  | String c rest => if is_ws c then skip_ws rest else s
  end.

Definition is_digit (c : ascii) : bool := (48 <=? code c) && (code c <=? 57).

Definition hex_value (c : ascii) : option Z :=
  let n := code c in
  if (48 <=? n) && (n <=? 57) then Some (n - 48)
  else if (97 <=? n) && (n <=? 102) then Some (n - 87)
  else if (65 <=? n) && (n <=? 70) then Some (n - 55)
  else None.

Definition hex4 (a b c d : ascii) : option Z :=
  match hex_value a, hex_value b, hex_value c, hex_value d with
  | Some x, Some y, Some z, Some w => Some (((x * 16 + y) * 16 + z) * 16 + w)
  | _, _, _, _ => None
  end.

Definition byte (n : Z) : ascii := ascii_of_N (Z.to_N n).

Definition utf8 (cp : Z) : string :=
  if cp <? 128 then String (byte cp) ""
  else if cp <? 2048 then
    String (byte (192 + cp / 64)) (String (byte (128 + cp mod 64)) "")
  else if cp <? 65536 then
    String (byte (224 + cp / 4096))
      (String (byte (128 + (cp / 64) mod 64)) (String (byte (128 + cp mod 64)) ""))
  else
    String (byte (240 + cp / 262144))
      (String (byte (128 + (cp / 4096) mod 64))
        (String (byte (128 + (cp / 64) mod 64)) (String (byte (128 + cp mod 64)) ""))).

Definition is_high (u : Z) : bool := (55296 <=? u) && (u <=? 56319).
Definition is_low (u : Z) : bool := (56320 <=? u) && (u <=? 57343).
Definition surrogate_pair (hi lo : Z) : Z := 65536 + (hi - 55296) * 1024 + (lo - 56320).

Definition simple_escape (e : ascii) : option ascii :=
  if Ascii.eqb e quote then Some quote
  else if Ascii.eqb e backslash then Some backslash
  else if Ascii.eqb e "/" then Some "/"%char
  else if Ascii.eqb e "b" then Some "008"%char
  else if Ascii.eqb e "f" then Some "012"%char
  else if Ascii.eqb e "n" then Some "010"%char
  else if Ascii.eqb e "r" then Some "013"%char
  else if Ascii.eqb e "t" then Some "009"%char
  else None.

Definition push (bytes : string) (r : option (string * string)) : option (string * string) :=
  match r with
  | Some (s, rest) => Some (bytes +:+ s, rest)
  | None => None
  end.

(** The characters of a string literal after its opening quote; returns the
    decoded string and the text after the closing quote. *)
Fixpoint parse_string_body (s : string) : option (string * string) :=
  match s with
  | EmptyString => None
  | String c rest =>
    if Ascii.eqb c quote then Some ("", rest)
    else if Ascii.eqb c backslash then
      match rest with
      | EmptyString => None
      | String e rest1 =>
        if Ascii.eqb e "u" then
          match rest1 with
          | String h1 (String h2 (String h3 (String h4 rest2))) =>
            match hex4 h1 h2 h3 h4 with
            | None => None
            | Some hi =>
              if is_high hi then
                match rest2 with
                | String b (String u (String l1 (String l2 (String l3 (String l4 rest3))))) =>
                  match (if Ascii.eqb b backslash && Ascii.eqb u "u"
                         then hex4 l1 l2 l3 l4 else None) with
                  | Some lo =>
                    if is_low lo
                    then push (utf8 (surrogate_pair hi lo)) (parse_string_body rest3)
                    else push (utf8 hi) (parse_string_body rest2)
                  | None => push (utf8 hi) (parse_string_body rest2)
                  end
                | _ => push (utf8 hi) (parse_string_body rest2)
                end
              else push (utf8 hi) (parse_string_body rest2)
            end
          | _ => None
          end
        else
          match simple_escape e with
          | Some a => push (String a "") (parse_string_body rest1)
          | None => None
          end
      end
    else if code c <? 32 then None
    else push (String c "") (parse_string_body rest)
  end.

Fixpoint span_digits (s : string) : string * string :=
  match s with
  | EmptyString => ("", "")
  | String c rest =>
    if is_digit c
    then let (ds, rest') := span_digits rest in (String c ds, rest')
    else ("", s)
  end.

Definition digits_value (ds : string) : Z :=
  match DecimalString.NilEmpty.uint_of_string ds with
  | Some u => Z.of_uint u
  | None => 0
  end.

(** The integer part of a number: one or more digits, no leading zero. *)
Definition int_part (s : string) : option (string * string) :=
  match span_digits s with
  | (EmptyString, _) => None
  | (String c ds, rest) =>
    if Ascii.eqb c "0" && negb (String.eqb ds "") then None else Some (String c ds, rest)
  end.

Definition frac_part (s : string) : option (string * string) :=
  match s with
  | String c rest =>
    if Ascii.eqb c "." then
      match span_digits rest with
      | (EmptyString, _) => None
      | (ds, rest') => Some (String c ds, rest')
      end
    else Some ("", s)
  | EmptyString => Some ("", s)
  end.

Definition exp_digits (e : string) (s : string) : option (string * string) :=
  match span_digits s with
  | (EmptyString, _) => None
  | (ds, rest) => Some (e +:+ ds, rest)
  end.

Definition exp_part (s : string) : option (string * string) :=
  match s with
  | String c rest =>
    if Ascii.eqb c "e" || Ascii.eqb c "E" then
      match rest with
      | String sg rest' =>
        if Ascii.eqb sg "+" || Ascii.eqb sg "-"
        then exp_digits (String c (String sg "")) rest'
        else exp_digits (String c "") rest
      | EmptyString => None
      end
    else Some ("", s)
  | EmptyString => Some ("", s)
  end.

Definition parse_number (s : string) : option (json * string) :=
  let (sign, s0) :=
    match s with
    | String c rest => if Ascii.eqb c "-" then ("-", rest) else ("", s)
    | EmptyString => ("", s)
    end in
  match int_part s0 with
  | None => None
  | Some (ds, s1) =>
    match frac_part s1 with
    | None => None
    | Some (fr, s2) =>
      match exp_part s2 with
      | None => None
      | Some (ex, s3) =>
        if String.eqb fr "" && String.eqb ex ""
        then Some (JNum (if String.eqb sign "" then digits_value ds else - digits_value ds), s3)
        else Some (JReal (sign +:+ ds +:+ fr +:+ ex), s3)
      end
    end
  end.

Fixpoint strip_prefix (p s : string) : option string :=
  match p with
  | EmptyString => Some s
  | String a p' =>
    match s with
    | String b s' => if Ascii.eqb a b then strip_prefix p' s' else None
    | EmptyString => None
    end
  end.

(** A later member with the same key replaces the value of the earlier one. *)
Fixpoint obj_put (key : string) (v : json) (fields : list (string * json)) :
    list (string * json) :=
  match fields with
  | [] => [(key, v)]
  | (k, x) :: rest => if String.eqb k key then (k, v) :: rest else (k, x) :: obj_put key v rest
  end.

Definition build_object (members : list (string * json)) : list (string * json) :=
  fold_left (fun acc kv => obj_put (fst kv) (snd kv) acc) members [].

Section Sequences.

Variable parse_elem : string → option (json * string).

(** Elements after [[] up to and including the closing bracket. *)
Fixpoint parse_elements (k : nat) (s : string) : option (list json * string) :=
  match k with
  | O => None
  | S k' =>
    match parse_elem s with
    | None => None
    | Some (v, s1) =>
      match skip_ws s1 with
      | EmptyString => None
      | String c s2 =>
        if Ascii.eqb c "," then
          match parse_elements k' s2 with
          | Some (vs, s3) => Some (v :: vs, s3)
          | None => None
          end
        else if Ascii.eqb c "]" then Some ([v], s2)
        else None
      end
    end
  end.

(** Members after [{] up to and including the closing brace. *)
Fixpoint parse_members (k : nat) (s : string) : option (list (string * json) * string) :=
  match k with
  | O => None
  | S k' =>
    match skip_ws s with
    | EmptyString => None
    | String q s1 =>
      if Ascii.eqb q quote then
        match parse_string_body s1 with
        | None => None
        | Some (key, s2) =>
          match skip_ws s2 with
          | EmptyString => None
          | String c s3 =>
            if Ascii.eqb c ":" then
              match parse_elem s3 with
              | None => None
              | Some (v, s4) =>
                match skip_ws s4 with
                | EmptyString => None
                | String c' s5 =>
                  if Ascii.eqb c' "," then
                    match parse_members k' s5 with
                    | Some (ms, s6) => Some ((key, v) :: ms, s6)
                    | None => None
                    end
                  else if Ascii.eqb c' "}" then Some ([(key, v)], s5)
                  else None
                end
              end
            else None
          end
        end
      else None
    end
  end.

End Sequences.

Fixpoint parse_value (fuel : nat) (s : string) : option (json * string) :=
  match fuel with
  | O => None
  | S n =>
    match skip_ws s with
    | EmptyString => None
    | String c rest =>
      if Ascii.eqb c "{" then
        match skip_ws rest with
        | EmptyString => None
        | String c1 r1 =>
          if Ascii.eqb c1 "}" then Some (JObj [], r1)
          else
            match parse_members (parse_value n) n rest with
            | Some (ms, r2) => Some (JObj (build_object ms), r2)
            | None => None
            end
        end
      else if Ascii.eqb c "[" then
        match skip_ws rest with
        | EmptyString => None
        | String c1 r1 =>
          if Ascii.eqb c1 "]" then Some (JArr [], r1)
          else
            match parse_elements (parse_value n) n rest with
            | Some (vs, r2) => Some (JArr vs, r2)
            | None => None
            end
        end
      else if Ascii.eqb c quote then
        match parse_string_body rest with
        | Some (str, r) => Some (JStr str, r)
        | None => None
        end
      else if Ascii.eqb c "t" then
        match strip_prefix "rue" rest with
        | Some r => Some (JBool true, r)
        | None => None
        end
      else if Ascii.eqb c "f" then
        match strip_prefix "alse" rest with
        | Some r => Some (JBool false, r)
        | None => None
        end
      else if Ascii.eqb c "n" then
        match strip_prefix "ull" rest with
        | Some r => Some (JNull, r)
        | None => None
        end
      else parse_number (String c rest)
    end
  end.

(** [JSON.parse(text)]; [None] stands for the [SyntaxError] it throws. *)
Definition parse (text : string) : option json :=
  match parse_value (S (String.length text)) text with
  | Some (v, rest) =>
    match skip_ws rest with
    | EmptyString => Some v
    | String _ _ => None
    end
  | None => None
  end.

(** *** Notions for the round trip *)

(** Values that [stringify] can have been given by this program: no
    uninterpreted number, no repeated key. *)
#[warnings="-register-all"] Inductive wf : json → Prop :=
| wf_null : wf JNull
| wf_bool b : wf (JBool b)
| wf_num n : wf (JNum n)
| wf_str s : wf (JStr s)
| wf_arr items : Forall wf items → wf (JArr items)
| wf_obj fields :
    NoDup (map fst fields) → Forall (fun kv => wf (snd kv)) fields → wf (JObj fields).

(** The text after a number must not continue its lexeme. *)
Definition ends_number (rest : string) : bool :=
  match rest with
  | EmptyString => true
  | String c _ =>
    negb (is_digit c || Ascii.eqb c "." || Ascii.eqb c "e" || Ascii.eqb c "E")
  end.

(** The elements after the first, as [serialize] writes them. *)
Fixpoint more_items (d : nat) (l : list json) : string :=
  match l with
  | [] => ""
  | y :: ys => "," +:+ nl +:+ indent (S d) +:+ serialize (S d) y +:+ more_items d ys
  end.

Fixpoint more_fields (d : nat) (l : list (string * json)) : string :=
  match l with
  | [] => ""
  | (k, y) :: ys =>
    "," +:+ nl +:+ indent (S d) +:+ quote_string k +:+ ": "
    +:+ serialize (S d) y +:+ more_fields d ys
  end.

(** [v], written at any depth and followed by any text that ends a number,
    is read back with that text left over. *)
Definition roundtrips (v : json) : Prop :=
  ∀ d fuel rest,
    ends_number rest = true →
    (String.length (serialize d v +:+ rest) < fuel)%nat →
    parse_value fuel (serialize d v +:+ rest) = Some (v, rest).

End JSON.

Import JSON.

(** ** The process environment: configuration, file system, exceptions *)

(** One entry of [os.networkInterfaces()]. *)
Record Iface := mkIface { family : string; internal : bool; address : string }.

Record Config := mkConfig {
  interfaces : list (string * list Iface);
  env_PORT : option string;
  dirname : string
}.

(** [process.env.PORT || 3000], as it prints in a template literal. *)
Definition PORT (cfg : Config) : string :=
  match env_PORT cfg with
  | Some p => if String.eqb p "" then "3000" else p
  | None => "3000"
  end.

Fixpoint first_external (ifaces : list Iface) : option string :=
  match ifaces with
  | [] => None
  | iface :: rest =>
    if String.eqb (family iface) "IPv4" && negb (internal iface)
    then Some (address iface)
    else first_external rest
  end.

Fixpoint scan_interfaces (named : list (string * list Iface)) : string :=
  match named with
  | [] => "localhost"
  | (_, ifaces) :: rest =>
    match first_external ifaces with
    | Some addr => addr
    | None => scan_interfaces rest
    end
  end.

Definition getLocalIP (cfg : Config) : string := scan_interfaces (interfaces cfg).

Definition LOCAL_IP (cfg : Config) : string := getLocalIP cfg.
Definition BASE_URL (cfg : Config) : string := "http://" +:+ LOCAL_IP cfg +:+ ":" +:+ PORT cfg.

(** [path.join(dir, name)] for a normalised directory and a name that is a
    single path segment, which is how the program calls it. *)
Definition path_join (dir name : string) : string := dir +:+ "/" +:+ name.

Definition PUBLIC_DIR (cfg : Config) : string := path_join (dirname cfg) "public".
Definition UPLOADS_DIR (cfg : Config) : string := path_join (dirname cfg) "uploads".
Definition DATA_DIR (cfg : Config) : string := path_join (dirname cfg) "data".
Definition MANIFEST_PATH (cfg : Config) : string := path_join (DATA_DIR cfg) "manifest.json".

(** Files by path. *)
Abbreviation FS := (gmap string string).

Inductive exn :=
| ENOENT (path : string)
| EIO (path : string)
| SyntaxError
| EncodeError.

Inductive completion (A : Type) :=
| Normal (a : A)
| Throw (e : exn).
Arguments Normal {A} a.
Arguments Throw {A} e.

Definition try_catch {A} (body : completion A) (handler : exn → completion A) : completion A :=
  match body with
  | Normal a => Normal a
  | Throw e => handler e
  end.

Definition readFileSync (fs : FS) (path : string) : completion string :=
  match fs !! path with
  | Some text => Normal text
  | None => Throw (ENOENT path)
  end.

Definition JSON_parse (text : string) : completion json :=
  match JSON.parse text with
  | Some v => Normal v
  | None => Throw SyntaxError
  end.

(** ** The manifest store *)

Abbreviation Manifest := (gmap string PhotoRecord).

Definition loadManifest (cfg : Config) (fs : FS) : completion json :=
  try_catch
    (match readFileSync fs (MANIFEST_PATH cfg) with
     | Normal raw => JSON_parse raw
     | Throw e => Throw e
     end)
    (fun _ => Normal (JObj [])).

(** The manifest object as [JSON.stringify] sees it.  The members are
    listed in the order of [map_to_list]; JavaScript lists them in insertion
    order, integer-like keys first.  The two texts differ in the order of
    their members only and [JSON.parse] reads the same object from both, so
    the properties below speak of the object a manifest file parses to and
    never of the bytes of the file. *)
Definition json_of_record (r : PhotoRecord) : json :=
  JObj [("filename", JStr (filename r)); ("createdAt", JNum (createdAt r))].

Definition json_of_manifest (m : Manifest) : json :=
  JObj (map (fun kr => (fst kr, json_of_record (snd kr))) (map_to_list m)).

(** The manifest a parsed value stands for, when it has the shape of the
    data model: an object of [{filename, createdAt}] records. *)
Definition record_of_json (v : json) : option PhotoRecord :=
  match v with
  | JObj [(k1, JStr f); (k2, JNum t)] =>
    if String.eqb k1 "filename" && String.eqb k2 "createdAt"
    then Some (mkRecord f t) else None
  | _ => None
  end.

Fixpoint records_of_fields (fields : list (string * json)) : option (list (string * PhotoRecord)) :=
  match fields with
  | [] => Some []
  | (k, v) :: rest =>
    match record_of_json v, records_of_fields rest with
    | Some r, Some rs => Some ((k, r) :: rs)
    | _, _ => None
    end
  end.

Definition manifest_of_json (v : json) : option Manifest :=
  match v with
  | JObj fields =>
    match records_of_fields fields with
    | Some rs => Some (list_to_map rs)
    | None => None
    end
  | _ => None
  end.

(** ** Server state and the monad of handler bodies *)

Record Server := mkServer { manifest : Manifest; disk : FS }.

(** What one request draws from outside the program: the random pool read
    by [nanoid], the clock, whether each of its two writes succeeds, and
    for a write that fails how far it got: [None] when it failed before
    the file was opened, [Some n] when it failed with [n] bytes written. *)
Record Env := mkEnv {
  random_pool : nat → Z;
  now : Z;
  writeFile_ok : bool;
  writeFileSync_ok : bool;
  writeFile_left : option nat;
  writeFileSync_left : option nat
}.

Definition M (A : Type) : Type := Server → completion A * Server.

#[global] Instance M_ret : MRet M := fun A a s => (Normal a, s).

#[global] Instance M_bind : MBind M := fun A B k m s =>
  match m s with
  | (Normal a, s') => k a s'
  | (Throw e, s') => (Throw e, s')
  end.

(** [try { body } catch (e) { handler }] *)
Definition catch {A} (body : M A) (handler : exn → M A) : M A :=
  fun s =>
    match body s with
    | (Normal a, s') => (Normal a, s')
    | (Throw e, s') => handler e s'
    end.

(** What a failed write leaves at its path.  Both write calls open the
    file with flag [w], which creates or truncates it, and then write the
    data: a failure before the file is open leaves the file system as it
    was, a later one leaves the file with the bytes written so far, a
    prefix of the data that may be empty or the whole of it. *)
Definition left_by_failure (left : option nat) (path data : string) (fs : FS) : FS :=
  match left with
  | None => fs
  | Some n => <[path := String.substring 0 n data]> fs
  end.

(** [await fs.promises.writeFile(path, data)] *)
Definition writeFile (ok : bool) (left : option nat) (path data : string) : M unit :=
  fun s =>
    if ok then (Normal tt, mkServer (manifest s) (<[path := data]> (disk s)))
    else (Throw (EIO path), mkServer (manifest s) (left_by_failure left path data (disk s))).

(** [fs.writeFileSync(path, data)] *)
Definition writeFileSync (ok : bool) (left : option nat) (path data : string) : M unit :=
  fun s =>
    if ok then (Normal tt, mkServer (manifest s) (<[path := data]> (disk s)))
    else (Throw (EIO path), mkServer (manifest s) (left_by_failure left path data (disk s))).

Definition saveManifest (cfg : Config) (ok : bool) (left : option nat) (m : Manifest) : M unit :=
  writeFileSync ok left (MANIFEST_PATH cfg) (JSON.stringify (json_of_manifest m)).

(** [manifest[id] = rec] *)
Definition manifest_set (id : string) (rec : PhotoRecord) : M unit :=
  fun s => (Normal tt, mkServer (<[id := rec]> (manifest s)) (disk s)).

Definition manifest_read : M Manifest := fun s => (Normal (manifest s), s).

(** ** Responses *)

Inductive Body :=
| BodyJson (j : json)
| BodyText (s : string)
| BodyBytes (b : string).

Record Response := mkResponse {
  status : Z;
  headers : list (string * string);
  body : Body
}.

(** [res.status(code).json(obj)] *)
Definition res_json (code : Z) (j : json) : Response := mkResponse code [] (BodyJson j).
(** [res.status(code).send(text)] *)
Definition res_send (code : Z) (text : string) : Response := mkResponse code [] (BodyText text).

(** ** POST /api/upload *)

Definition upload_id (env : Env) : string := nanoid 10 (random_pool env).

Definition upload_filename (env : Env) (f : File) : string :=
  upload_id env +:+ to_string (choose_ext f).

Definition view_url (cfg : Config) (id : string) : string :=
  BASE_URL cfg +:+ "/view/" +:+ id.

Definition upload (cfg : Config) (env : Env) (file : option File) : M Response :=
  catch
    (match file with
     | None => mret (res_json 400 (JObj [("error", JStr "No photo uploaded")]))
     | Some f =>
       let id := upload_id env in
       let ext := choose_ext f in
       let filename := id +:+ to_string ext in
       let filepath := path_join (UPLOADS_DIR cfg) filename in
       writeFile (writeFile_ok env) (writeFile_left env) filepath (buffer f) ;;
       manifest_set id (mkRecord filename (now env)) ;;
       m ← manifest_read ;
       saveManifest cfg (writeFileSync_ok env) (writeFileSync_left env) m ;;
       let viewUrl := view_url cfg id in
       mret (res_json 200 (JObj [("id", JStr id); ("viewUrl", JStr viewUrl)]))
     end)
    (fun err => mret (res_json 500 (JObj [("error", JStr "Upload failed")]))).

(** ** GET /api/meta/:id *)

Definition meta (cfg : Config) (m : Manifest) (id : string) : Response :=
  let rec := obj_get VRecord m id in
  if negb (truthy rec) then res_json 404 (JObj [("error", JStr "Not found")])
  else
    let imageUrl := "/uploads/" +:+ to_string (get_filename rec) in
    let viewUrl := view_url cfg id in
    res_json 200 (JObj [("id", JStr id); ("imageUrl", JStr imageUrl); ("viewUrl", JStr viewUrl)]).

(** ** GET /api/qr *)

(** A parsed query-string value: a string, or the array or object the
    bracket syntax produces. *)
#[warnings="-register-all"] Inductive QueryValue :=
| QStr (s : string)
| QList (items : list QueryValue)
| QDict (fields : list (string * QueryValue)).

Definition query_truthy (q : QueryValue) : bool :=
  match q with
  | QStr s => negb (String.eqb s "")
  | QList _ => true
  | QDict _ => true
  end.

(** [QRCode.toBuffer(text, { width, margin })], the QR encoder of the
    [qrcode] package. *)
Abbreviation Encoder := (QueryValue → Z → Z → completion string).

Definition qr (toBuffer : Encoder) (query_text : option QueryValue) : Response :=
  let text :=
    match query_text with
    | Some q => if query_truthy q then q else QStr ""
    | None => QStr ""
    end in
  if negb (query_truthy text) then res_send 400 "Missing text"
  else
    match toBuffer text 256 1 with
    | Normal buf => mkResponse 200 [("Content-Type", "image/png")] (BodyBytes buf)
    | Throw e => res_send 500 "QR generation failed"
    end.

(** ** GET /view/:id *)

Definition dq : string := String Chars.quote "".

(** The page of the view route; only [id] varies. *)
Definition view_page (id : string) : string :=
  String.concat "" [
    "<!doctype html>"; nl;
    "<html lang="; dq; "en"; dq; ">"; nl;
    "<head>"; nl;
    "  <meta charset="; dq; "utf-8"; dq; " />"; nl;
    "  <meta name="; dq; "viewport"; dq; " content="; dq; "width=device-width, initial-scale=1"; dq; " />"; nl;
    "  <title>QR Selfie Viewer</title>"; nl;
    "  <link rel="; dq; "stylesheet"; dq; " href="; dq; "/styles.css"; dq; " />"; nl;
    "</head>"; nl;
    "<body>"; nl;
    "  <header>"; nl;
    "    <a href="; dq; "/"; dq; " class="; dq; "brand"; dq; ">QR Selfie</a>"; nl;
    "  </header>"; nl;
    "  <main>"; nl;
    "    <section class="; dq; "viewer"; dq; ">"; nl;
    "      <img id="; dq; "photo"; dq; " alt="; dq; "Selfie"; dq; " />"; nl;
    "      <div>"; nl;
    "        <h2>Scan this QR</h2>"; nl;
    "        <img id="; dq; "qrImg"; dq; " alt="; dq; "QR code"; dq; " />"; nl;
    "        <p><a id="; dq; "link"; dq; " target="; dq; "_blank"; dq; " rel="; dq; "noopener"; dq; ">Open link</a></p>"; nl;
    "      </div>"; nl;
    "    </section>"; nl;
    "  </main>"; nl;
    "  <script>"; nl;
    "    (async () => {"; nl;
    "      const res = await fetch('/api/meta/"; id; "');"; nl;
    "      if (!res.ok) return;"; nl;
    "      const meta = await res.json();"; nl;
    "      document.getElementById('photo').src = meta.imageUrl;"; nl;
    "      document.getElementById('link').href = meta.viewUrl;"; nl;
    "      document.getElementById('link').textContent = meta.viewUrl;"; nl;
    "      const qrImg = document.getElementById('qrImg');"; nl;
    "      qrImg.src = '/api/qr?text=' + encodeURIComponent(meta.viewUrl);"; nl;
    "    })();"; nl;
    "  </script>"; nl;
    "</body>"; nl;
    "</html>" ].

Definition view (m : Manifest) (protocol host id : string) : Response :=
  let rec := obj_get VRecord m id in
  if negb (truthy rec) then res_send 404 "Not found"
  else
    let viewUrl := protocol +:+ "://" +:+ host +:+ "/view/" +:+ id in
    let html := view_page id in
    mkResponse 200 [("Content-Type", "text/html")] (BodyText html).

(** ** The server as a transition system

    A request is handled atomically; [boot] is the module-level
    [let manifest = loadManifest()], defined when the file holds a manifest
    of the data model.  The upload handler catches every exception, so the
    [Throw] branch of [handle] is never taken. *)

Inductive Request :=
| ReqUpload (env : Env) (file : option File)
| ReqMeta (id : string)
| ReqView (protocol host id : string)
| ReqQr (query_text : option QueryValue).

Definition handle (cfg : Config) (toBuffer : Encoder) (req : Request) (s : Server) :
    Response * Server :=
  match req with
  | ReqUpload env file =>
    match upload cfg env file s with
    | (Normal res, s') => (res, s')
    | (Throw _, s') => (res_send 500 "Internal Server Error", s')
    end
  | ReqMeta id => (meta cfg (manifest s) id, s)
  | ReqView protocol host id => (view (manifest s) protocol host id, s)
  | ReqQr query_text => (qr toBuffer query_text, s)
  end.

Definition boot (cfg : Config) (fs : FS) : option Server :=
  match loadManifest cfg fs with
  | Normal v =>
    match manifest_of_json v with
    | Some m => Some (mkServer m fs)
    | None => None
    end
  | Throw _ => None
  end.

Fixpoint run (cfg : Config) (toBuffer : Encoder) (reqs : list Request) (s : Server) : Server :=
  match reqs with
  | [] => s
  | req :: rest => run cfg toBuffer rest (snd (handle cfg toBuffer req s))
  end.

(** ** Characters of ids and addresses *)

(** The characters [encodeURIComponent] leaves alone that nanoid uses:
    letters, digits, [_] and [-]. *)
Definition url_safe (c : ascii) : bool :=
  let n := Chars.code c in
  ((48 <=? n) && (n <=? 57)) || ((65 <=? n) && (n <=? 90)) || ((97 <=? n) && (n <=? 122))
  || (n =? 95) || (n =? 45).

(** Every character of [s] satisfies [p]. *)
Fixpoint all_chars (p : ascii → bool) (s : string) : bool :=
  match s with
  | EmptyString => true
  | String c rest => p c && all_chars p rest
  end.

(** An id that an address carries unchanged as one path segment: not
    empty, and made of such characters. *)
Definition url_safe_id (id : string) : bool :=
  negb (String.eqb id "") && all_chars url_safe id.

(** ** The browser client

    The script of the page: the camera, the switch and capture buttons,
    the file picker and the result section.  The browser is a parameter of
    each handler: what [getUserMedia] and [enumerateDevices] answer, the
    size of the video frame, the blob of the canvas and the answer to the
    upload.  A handler runs to its end before the next one starts. *)

Module Client.

(** *** Strings of the platform *)

(** [s.toLowerCase()] on ASCII letters; other bytes are kept, and no
    character outside ASCII lowers to a letter of the word the client
    searches for. *)
Definition lower_char (c : ascii) : ascii :=
  let n := Chars.code c in
  if (65 <=? n) && (n <=? 90) then ascii_of_N (Z.to_N (n + 32)) else c.

Fixpoint toLowerCase (s : string) : string :=
  match s with
  | EmptyString => ""
  | String c rest => String (lower_char c) (toLowerCase rest)
  end.

(** [s.includes(sub)] *)
Definition includes (s sub : string) : bool :=
  match String.index 0 sub s with
  | Some _ => true
  | None => false
  end.

(** [s.startsWith(p)] and [s.slice(n)] *)
Definition startsWith (s p : string) : bool := String.prefix p s.
Definition slice_from (s : string) (n : nat) : string :=
  String.substring n (String.length s - n) s.

(** [list[i]] for a number [i]; [None] is [undefined]. *)
Definition js_index {A} (l : list A) (i : Z) : option A :=
  if i <? 0 then None else nth_error l (Z.to_nat i).

(** *** encodeURIComponent and the decoding of a query value *)

Definition unreserved (c : ascii) : bool :=
  let n := Chars.code c in
  ((48 <=? n) && (n <=? 57)) || ((65 <=? n) && (n <=? 90)) || ((97 <=? n) && (n <=? 122))
  || (n =? 45) || (n =? 95) || (n =? 46) || (n =? 33) || (n =? 126) || (n =? 42)
  || (n =? 39) || (n =? 40) || (n =? 41).

Definition HEX_digit (n : Z) : ascii :=
  match String.get (Z.to_nat n) "0123456789ABCDEF" with
  | Some c => c
  | None => "0"%char
  end.

Definition encode_byte (c : ascii) : string :=
  if unreserved c then String c ""
  else String "%" (String (HEX_digit (Chars.code c / 16))
                     (String (HEX_digit (Chars.code c mod 16)) "")).

(** [encodeURIComponent(s)], byte by byte over the UTF-8 bytes of [s]. *)
Fixpoint encodeURIComponent (s : string) : string :=
  match s with
  | EmptyString => ""
  | String c rest => encode_byte c +:+ encodeURIComponent rest
  end.

(** [decodeURIComponent(s)]; [None] is the [URIError] for a [%] that two
    hexadecimal digits do not follow.  The check that the decoded bytes
    are UTF-8 is left out: an escape such as [%ff], for which the platform
    throws, decodes to a byte here.  On what [encodeURIComponent] makes of
    a JavaScript string the two agree. *)
Fixpoint decodeURIComponent (s : string) : option string :=
  match s with
  | EmptyString => Some ""
  | String c rest =>
    if Ascii.eqb c "%" then
      match rest with
      | String h1 (String h2 rest') =>
        match hex_value h1, hex_value h2, decodeURIComponent rest' with
        | Some x, Some y, Some d => Some (String (byte (x * 16 + y)) d)
        | _, _, _ => None
        end
      | _ => None
      end
    else
      match decodeURIComponent rest with
      | Some d => Some (String c d)
      | None => None
      end
  end.

Fixpoint plus_to_space (s : string) : string :=
  match s with
  | EmptyString => ""
  | String c rest => String (if Ascii.eqb c "+" then " "%char else c) (plus_to_space rest)
  end.

(** The decoder the server's query parser applies to a raw value: [+] is
    a space, then [decodeURIComponent], and the text as it is when that
    throws. *)
Definition query_decode (raw : string) : string :=
  let spaced := plus_to_space raw in
  match decodeURIComponent spaced with
  | Some d => d
  | None => spaced
  end.

(** A character that does not end or split a query value. *)
Definition query_value_char (c : ascii) : bool :=
  negb (Ascii.eqb c "&" || Ascii.eqb c "=" || Ascii.eqb c "#" || Ascii.eqb c "+"
        || Ascii.eqb c "[" || Ascii.eqb c "]" || Ascii.eqb c "?" || Ascii.eqb c " ").

(** *** setQR: the [src] the QR image is given *)

Definition setQR (text : string) : string := "/api/qr?text=" +:+ encodeURIComponent text.

(** *** Camera devices *)

Record Device := mkDevice { kind : string; deviceId : string; label : string }.

(** [(label || '').toLowerCase().includes('front')] *)
Definition is_front (d : Device) : bool := includes (toLowerCase (label d)) "front".

(** The loop over [videoDevices] that looks for a front camera. *)
Fixpoint preferredIndex_from (i : Z) (devices : list Device) : Z :=
  match devices with
  | [] => -1
  | d :: rest => if is_front d then i else preferredIndex_from (i + 1) rest
  end.

Definition preferredIndex (devices : list Device) : Z := preferredIndex_from 0 devices.

(** [preferredIndex !== -1 ? preferredIndex : 0] *)
Definition initial_index (devices : list Device) : Z :=
  let p := preferredIndex devices in
  if negb (p =? -1) then p else 0.

(** [(currentDeviceIndex + 1) % videoDevices.length] *)
Definition next_index (currentDeviceIndex : Z) (n_devices : Z) : Z :=
  Z.rem (currentDeviceIndex + 1) n_devices.

(** *** The camera: streams, devices and the video element *)

(** What [getUserMedia] is asked for: [buildFacing(facing)],
    [buildDevice(deviceId)], or the broad [{ video: true, audio: false }]. *)
Inductive Constraints :=
| ByFacing (facing : string)
| ByDevice (id : string)
| AnyVideo.

(** A granted stream: what it was granted for, and its number among the
    streams granted so far. *)
Record Stream := mkStream { granted : Constraints; serial : nat }.

#[global] Instance Constraints_eq_dec : EqDecision Constraints.
Proof. solve_decision. Defined.

(** The module variables [stream], [currentFacing], [videoDevices],
    [currentDeviceIndex], the [srcObject] of the video element, and the
    world: the streams granted so far and those whose tracks were stopped. *)
Record Camera := mkCamera {
  stream : option Stream;
  currentFacing : string;
  videoDevices : list Device;
  currentDeviceIndex : Z;
  srcObject : option Stream;
  opened : list Stream;
  stopped : list Stream
}.

Definition with_stream (v : option Stream) (c : Camera) : Camera :=
  mkCamera v (currentFacing c) (videoDevices c) (currentDeviceIndex c) (srcObject c)
           (opened c) (stopped c).
Definition with_devices (v : list Device) (c : Camera) : Camera :=
  mkCamera (stream c) (currentFacing c) v (currentDeviceIndex c) (srcObject c)
           (opened c) (stopped c).
Definition with_index (v : Z) (c : Camera) : Camera :=
  mkCamera (stream c) (currentFacing c) (videoDevices c) v (srcObject c)
           (opened c) (stopped c).
Definition with_srcObject (v : option Stream) (c : Camera) : Camera :=
  mkCamera (stream c) (currentFacing c) (videoDevices c) (currentDeviceIndex c) v
           (opened c) (stopped c).
Definition with_opened (v : list Stream) (c : Camera) : Camera :=
  mkCamera (stream c) (currentFacing c) (videoDevices c) (currentDeviceIndex c) (srcObject c)
           v (stopped c).
Definition with_stopped (v : list Stream) (c : Camera) : Camera :=
  mkCamera (stream c) (currentFacing c) (videoDevices c) (currentDeviceIndex c) (srcObject c)
           (opened c) v.

(** [await navigator.mediaDevices.getUserMedia(constraints)]: a new stream
    when the request is granted, [None] when it is rejected. *)
Definition getUserMedia (granted_now : bool) (constraints : Constraints) (c : Camera) :
    option Stream * Camera :=
  if granted_now then
    let st := mkStream constraints (length (opened c)) in
    (Some st, with_opened (st :: opened c) c)
  else (None, c).

Definition stopStream (c : Camera) : Camera :=
  match stream c with
  | None => c
  | Some st => with_stream None (with_stopped (st :: stopped c) c)
  end.

(** How an [async] function ends. *)
Inductive Outcome := Returned | Thrown.

(** The constraints of the first attempt of [getStream]. *)
Definition requested (facingOrDevice : option string) (c : Camera) : Constraints :=
  match facingOrDevice with
  | Some s =>
    if negb (String.eqb s "") && startsWith s "device:"
    then ByDevice (slice_from s (String.length "device:"))
    else ByFacing (if negb (String.eqb s "") then s
                   else if negb (String.eqb (currentFacing c) "") then currentFacing c
                   else "user")
  | None =>
    ByFacing (if negb (String.eqb (currentFacing c) "") then currentFacing c else "user")
  end.

(** [first_ok] and [second_ok] tell which requests the browser grants at
    the first and at the second attempt. *)
Definition getStream (first_ok second_ok : Constraints → bool)
    (facingOrDevice : option string) (c : Camera) : Outcome * Camera :=
  let c0 := match stream c with Some _ => stopStream c | None => c end in
  let wanted := requested facingOrDevice c0 in
  match getUserMedia (first_ok wanted) wanted c0 with
  | (Some st, c1) => (Returned, with_srcObject (Some st) (with_stream (Some st) c1))
  | (None, c1) =>
    match videoDevices c1 with
    | first_device :: _ =>
      let fallbackId := deviceId first_device in
      let c2 := with_index 0 c1 in
      match getUserMedia (second_ok (ByDevice fallbackId)) (ByDevice fallbackId) c2 with
      | (Some st, c3) => (Returned, with_srcObject (Some st) (with_stream (Some st) c3))
      | (None, c3) => (Thrown, c3)
      end
    | [] =>
      match getUserMedia (second_ok AnyVideo) AnyVideo c1 with
      | (Some st, c3) => (Returned, with_srcObject (Some st) (with_stream (Some st) c3))
      | (None, c3) => (Thrown, c3)
      end
    end
  end.

(** *** The controls *)

(** The status line, the two buttons and the file-picker label. *)
Record Panel := mkPanel {
  statusText : string;
  switchDisabled : bool;
  captureDisabled : bool;
  fileLabelShown : bool
}.

Definition setStatus (msg : string) (p : Panel) : Panel :=
  mkPanel msg (switchDisabled p) (captureDisabled p) (fileLabelShown p).

(** What the browser answers during one run of [enableCamera]. *)
Record Media := mkMedia {
  prime_ok : bool;
  enumerated : option (list Device);
  first_ok : Constraints → bool;
  second_ok : Constraints → bool
}.

Definition enableCamera (m : Media) (p : Panel) (c : Camera) : Panel * Camera :=
  let c1 := snd (getUserMedia (prime_ok m) AnyVideo c) in
  match enumerated m with
  | None => (setStatus "Camera permission denied or unavailable." p, c1)
  | Some devices =>
    let c2 := with_devices (List.filter (fun d => String.eqb (kind d) "videoinput") devices) c1 in
    match videoDevices c2 with
    | [] =>
      (mkPanel "No camera devices found. You can choose an image instead."
               (switchDisabled p) (captureDisabled p) true, c2)
    | _ :: _ =>
      let c3 := with_index (initial_index (videoDevices c2)) c2 in
      match js_index (videoDevices c3) (currentDeviceIndex c3) with
      | None => (setStatus "Camera permission denied or unavailable." p, c3)
      | Some dev =>
        match getStream (first_ok m) (second_ok m) (Some ("device:" +:+ deviceId dev)) c3 with
        | (Returned, c4) =>
          (mkPanel "Camera ready."
                   (Z.of_nat (length (videoDevices c4)) <=? 1) false (fileLabelShown p), c4)
        | (Thrown, c4) => (setStatus "Camera permission denied or unavailable." p, c4)
        end
      end
    end
  end.

(** The click handler of the switch button. *)
Definition onSwitch (first_ok second_ok : Constraints → bool) (p : Panel) (c : Camera) :
    Panel * Camera :=
  if Z.of_nat (length (videoDevices c)) <=? 1 then (p, c)
  else
    let c1 := with_index (next_index (currentDeviceIndex c) (Z.of_nat (length (videoDevices c)))) c in
    match js_index (videoDevices c1) (currentDeviceIndex c1) with
    | None => (setStatus "Unable to switch camera." p, c1)
    | Some dev =>
      match getStream first_ok second_ok (Some ("device:" +:+ deviceId dev)) c1 with
      | (Returned, c2) =>
        (setStatus ("Switched camera"
                    +:+ (if negb (String.eqb (label dev) "") then ": " +:+ label dev else "")) p,
         c2)
      | (Thrown, c2) => (setStatus "Unable to switch camera." p, c2)
      end
    end.

(** *** Sharing a photo *)

(** [drawToCanvas()]: the canvas takes the size of the video frame; [None]
    is [null], returned while the video has no size. *)
Definition drawToCanvas (videoWidth videoHeight : Z) : option (Z * Z) :=
  if (videoWidth =? 0) || (videoHeight =? 0) then None
  else Some (videoWidth, videoHeight).

(** [res.ok] *)
Definition response_ok (res : Response) : bool :=
  (200 <=? status res) && (status res <=? 299).

(** [await res.json()]; [None] when the body is not JSON and the promise
    rejects. *)
Definition response_json (res : Response) : option json :=
  match body res with
  | BodyJson j => Some j
  | _ => None
  end.

Fixpoint field_of (key : string) (fields : list (string * json)) : option json :=
  match fields with
  | [] => None
  | (k, v) :: rest => if String.eqb k key then Some v else field_of key rest
  end.

(** The text of [obj.key] in a parsed answer; [None] when the answer holds
    no string there. *)
Definition text_property (j : json) (key : string) : option string :=
  match j with
  | JObj fields =>
    match field_of key fields with
    | Some (JStr s) => Some s
    | _ => None
    end
  | _ => None
  end.

(** The file the server receives for [fd.append('photo', blob, 'selfie.jpg')]
    with the blob of [canvas.toBlob(_, 'image/jpeg', 0.9)]. *)
Definition captured_file (blob : string) : File := mkFile "selfie.jpg" "image/jpeg" blob.










(** [uploadBlob]: the answer of [fetch('/api/upload', ...)] is [None] when
    the request fails; the result is [None] when the function throws. *)
Definition uploadBlob (answer : option Response) : option json :=
  match answer with
  | None => None
  | Some res => if negb (response_ok res) then None else response_json res
  end.

(** The result section of the page, [lastBlobUrl], and the object URLs
    revoked so far. *)
Record Share := mkShare {
  thumb_src : string;
  viewLink_href : string;
  viewLink_text : string;
  btnOpen_href : string;
  qrImg_src : string;
  result_hidden : bool;
  lastBlobUrl : option string;
  revoked : list string
}.

(** [if (lastBlobUrl) URL.revokeObjectURL(lastBlobUrl); lastBlobUrl = url] *)
Definition remember_blob (url : string) (r : Share) : Share :=
  mkShare (thumb_src r) (viewLink_href r) (viewLink_text r) (btnOpen_href r) (qrImg_src r)
          (result_hidden r) (Some url)
          (match lastBlobUrl r with
           | Some old => if negb (String.eqb old "") then old :: revoked r else revoked r
           | None => revoked r
           end).

(** The updates both upload handlers make once the answer is read. *)
Definition show_result (blobUrl viewUrl : string) (r : Share) : Share :=
  mkShare blobUrl viewUrl viewUrl viewUrl (setQR viewUrl) false (lastBlobUrl r) (revoked r).

(** The click handler of the capture button.  [blob] is what [toBlob]
    hands over, [blobUrl] the object URL created for it and [answer] the
    answer to the upload.  The result is defined when the answer, if it is
    read, holds a string [viewUrl]. *)
Definition onCapture (videoWidth videoHeight : Z) (blob : option string) (blobUrl : string)
    (answer : option Response) (p : Panel) (r : Share) : option (Panel * Share) :=
  match drawToCanvas videoWidth videoHeight with
  | None => Some (setStatus "Waiting for camera..." p, r)
  | Some _ =>
    match blob with
    | None => Some (setStatus "Capture failed." p, r)
    | Some _ =>
      let r1 := remember_blob blobUrl r in
      match uploadBlob answer with
      | None => Some (setStatus "Upload failed. Try again." p, r1)
      | Some j =>
        match text_property j "viewUrl" with
        | Some viewUrl => Some (setStatus "Done! Share the QR." p, show_result blobUrl viewUrl r1)
        | None => None
        end
      end
    end
  end.

(** The change handler of the file picker, for the first chosen file. *)
Definition onFileChosen (file_chosen : bool) (blobUrl : string) (answer : option Response)
    (p : Panel) (r : Share) : option (Panel * Share) :=
  if negb file_chosen then Some (p, r)
  else
    let r1 := remember_blob blobUrl r in
    match uploadBlob answer with
    | None => Some (setStatus "Upload failed. Try again." p, r1)
    | Some j =>
      match text_property j "viewUrl" with
      | Some viewUrl => Some (setStatus "Done! Share the QR." p, show_result blobUrl viewUrl r1)
      | None => None
      end
    end.

(** The click handler of the retake button. *)
Definition onRetake (p : Panel) (r : Share) : Panel * Share :=
  (setStatus "Camera ready." p,
   mkShare (thumb_src r) (viewLink_href r) (viewLink_text r) (btnOpen_href r) (qrImg_src r)
           true (lastBlobUrl r) (revoked r)).

(** *** The script of the viewer page *)

(** What the script of the page served by [/view/:id] leaves in the page:
    nothing, or the photo, the link and the QR image. *)
Inductive Viewed :=
| Untouched
| Filled (photo_src link_href link_text qr_src : string).

(** [answer] is the answer to [fetch('/api/meta/<id>')].  The page writes
    the id into that address as it is, so the request reaches the metadata
    route with the same id when the id is a [url_safe_id]; another id may
    reach it changed, or not at all.  The result is defined when the
    answer, if it is read, holds strings [imageUrl] and [viewUrl]. *)
Definition viewer_script (answer : option Response) : option Viewed :=
  match answer with
  | None => Some Untouched
  | Some res =>
    if negb (response_ok res) then Some Untouched
    else
      match response_json res with
      | None => Some Untouched
      | Some meta =>
        match text_property meta "imageUrl", text_property meta "viewUrl" with
        | Some imageUrl, Some viewUrl => Some (Filled imageUrl viewUrl viewUrl (setQR viewUrl))
        | _, _ => None
        end
      end
  end.

(** *** The text a QR request carries *)

(** [req.query.text] for a request to [src], an address [/api/qr?text=]
    followed by a raw value in which every character is a
    [query_value_char]. *)
Definition text_of_src (src : string) : option QueryValue :=
  match strip_prefix "/api/qr?text=" src with
  | Some raw => Some (QStr (query_decode raw))
  | None => None
  end.

(** *** The page as a transition system

    The handlers the script registers, each run to its end before the
    next. *)

Inductive Event :=
| EnableCamera (m : Media)
| SwitchCamera (first_ok second_ok : Constraints → bool)
| Capture (videoWidth videoHeight : Z) (blob : option string) (blobUrl : string)
          (answer : option Response)
| FileChosen (file_chosen : bool) (blobUrl : string) (answer : option Response)
| Retake.

Record Page := mkPage { panel : Panel; camera : Camera; share : Share }.

Definition step (ev : Event) (pg : Page) : option Page :=
  match ev with
  | EnableCamera m =>
    let '(p, c) := enableCamera m (panel pg) (camera pg) in Some (mkPage p c (share pg))
  | SwitchCamera first_ok second_ok =>
    let '(p, c) := onSwitch first_ok second_ok (panel pg) (camera pg) in
    Some (mkPage p c (share pg))
  | Capture w h blob blobUrl answer =>
    match onCapture w h blob blobUrl answer (panel pg) (share pg) with
    | Some (p, r) => Some (mkPage p (camera pg) r)
    | None => None
    end
  | FileChosen chosen blobUrl answer =>
    match onFileChosen chosen blobUrl answer (panel pg) (share pg) with
    | Some (p, r) => Some (mkPage p (camera pg) r)
    | None => None
    end
  | Retake =>
    let '(p, r) := onRetake (panel pg) (share pg) in Some (mkPage p (camera pg) r)
  end.

Fixpoint steps (evs : list Event) (pg : Page) : option Page :=
  match evs with
  | [] => Some pg
  | ev :: rest =>
    match step ev pg with
    | Some pg' => steps rest pg'
    | None => None
    end
  end.

(** The module variables as the script initialises them, before any
    stream is granted. *)
Definition initial_camera : Camera := mkCamera None "user" [] (-1) None [] [].

(** *** Notions used to state the properties of the page *)

(** Streams are numbered in the order they were granted, only granted
    streams are stopped, the stream the module holds was granted and is
    not stopped, the facing mode is the initial one, and the index names a
    device whenever there is one. *)
Definition camera_ok (c : Camera) : Prop :=
  (∀ st, st ∈ opened c → (serial st < length (opened c))%nat)
  ∧ (∀ st, st ∈ stopped c → st ∈ opened c)
  ∧ (∀ st, stream c = Some st → st ∈ opened c ∧ ¬ (st ∈ stopped c))
  ∧ currentFacing c = "user"
  ∧ -1 ≤ currentDeviceIndex c
  ∧ (videoDevices c ≠ [] → 0 ≤ currentDeviceIndex c < Z.of_nat (length (videoDevices c))).

(** A granted stream that runs and that the module does not hold, so that
    [stopStream] cannot reach it. *)
Definition unreachable_stream (c : Camera) (st : Stream) : Prop :=
  st ∈ opened c ∧ ¬ (st ∈ stopped c) ∧ stream c ≠ Some st.

(** The result section shows one address: in the link, behind the open
    button and as the text of the QR request. *)
Definition shows_one_address (r : Share) : Prop :=
  viewLink_text r = viewLink_href r
  ∧ btnOpen_href r = viewLink_href r
  ∧ text_of_src (qrImg_src r) = Some (QStr (viewLink_href r)).

(** The result section is hidden or shows one address. *)
Definition share_ok (r : Share) : Prop := result_hidden r = true ∨ shows_one_address r.

End Client.

(** ** Notions used to state the properties *)

(** The extension rule in the words of the specification: the table, else
    the extension of the original name, else the default. *)
Definition ext_by_fallback (table : gmap string string) (f : File) : string :=
  match table !! mimetype f with
  | Some ext => ext
  | None =>
    if String.eqb (extname (originalname f)) "" then ".jpg"
    else extname (originalname f)
  end.

(** A content type of the form [type/subtype], which is what the multipart
    parser hands to the handler. *)
Definition is_mime_type (s : string) : bool := contains_char Chars.slash s.

Definition stored_record (env : Env) (f : File) : PhotoRecord :=
  mkRecord (upload_filename env f) (now env).

Definition upload_path (cfg : Config) (env : Env) (f : File) : string :=
  path_join (UPLOADS_DIR cfg) (upload_filename env f).

Definition ok_response (cfg : Config) (env : Env) : Response :=
  res_json 200 (JObj [("id", JStr (upload_id env));
                      ("viewUrl", JStr (view_url cfg (upload_id env)))]).

Definition failed_response : Response :=
  res_json 500 (JObj [("error", JStr "Upload failed")]).

Definition png_response (buf : string) : Response :=
  mkResponse 200 [("Content-Type", "image/png")] (BodyBytes buf).

(** The id an upload draws is not yet a key of the manifest. *)
Definition fresh_id (req : Request) (s : Server) : Prop :=
  match req with
  | ReqUpload env (Some _) => manifest s !! upload_id env = None
  | _ => True
  end.

Fixpoint all_fresh (cfg : Config) (toBuffer : Encoder) (reqs : list Request) (s : Server) : Prop :=
  match reqs with
  | [] => True
  | req :: rest =>
    fresh_id req s ∧ all_fresh cfg toBuffer rest (snd (handle cfg toBuffer req s))
  end.

(** An interface [getLocalIP] accepts. *)
Definition external_ipv4 (iface : Iface) : bool :=
  String.eqb (family iface) "IPv4" && negb (internal iface).

(** The interfaces in the order the two loops of [getLocalIP] visit them. *)
Definition all_interfaces (cfg : Config) : list Iface :=
  concat (map snd (interfaces cfg)).

(** Every record of the manifest has its file in the uploads directory. *)
Definition files_present (cfg : Config) (s : Server) : Prop :=
  ∀ id r, manifest s !! id = Some r →
    is_Some (disk s !! path_join (UPLOADS_DIR cfg) (filename r)).

(** Every key is a ten-character id and names its file: id, then a
    non-empty extension. *)
Definition named_by_id (s : Server) : Prop :=
  ∀ id r, manifest s !! id = Some r →
    String.length id = 10%nat
    ∧ ∃ ext, filename r = id +:+ ext ∧ String.eqb ext "" = false.

(** A restart would find the manifest the server holds. *)
Definition persisted (cfg : Config) (s : Server) : Prop :=
  boot cfg (disk s) = Some s.

(** The request is not an upload whose file write succeeds and whose
    manifest write fails. *)
Definition save_succeeds (req : Request) : bool :=
  match req with
  | ReqUpload env (Some _) => negb (writeFile_ok env) || writeFileSync_ok env
  | _ => true
  end.

Fixpoint all_saves_succeed (reqs : list Request) : bool :=
  match reqs with
  | [] => true
  | req :: rest => save_succeeds req && all_saves_succeed rest
  end.

(** The state of the [path.extname] scan is sound for [path]: a recorded
    dot is a dot of [path] inside the slash-free stretch that ends at
    [endIdx]. *)
Definition scan_sound (path : string) (st : ExtScan) : Prop :=
  startDot st = -1
  ∨ (0 ≤ startDot st < endIdx st
     ∧ String.get (Z.to_nat (startDot st)) path = Some Chars.dot
     ∧ ∀ i : nat, startDot st ≤ Z.of_nat i < endIdx st →
         String.get i path ≠ Some Chars.slash).

(** What holds with [n] characters still to visit. *)
Definition scan_inv (path : string) (n : nat) (st : ExtScan) : Prop :=
  (endIdx st = -1 ∧ startDot st = -1 ∧ matchedSlash st = true)
  ∨ (matchedSlash st = false
     ∧ Z.of_nat n ≤ endIdx st
     ∧ (∀ i : nat, Z.of_nat n ≤ Z.of_nat i < endIdx st →
          String.get i path ≠ Some Chars.slash)
     ∧ (startDot st = -1
        ∨ (Z.of_nat n ≤ startDot st < endIdx st
           ∧ String.get (Z.to_nat (startDot st)) path = Some Chars.dot))).

(** ** A concrete deployment, for the examples *)

Definition demo_config : Config :=
  mkConfig [("lo", [mkIface "IPv4" true "127.0.0.1"]);
            ("wlan0", [mkIface "IPv6" false "fe80::1"; mkIface "IPv4" false "192.168.1.7"])]
           None "/srv/qr-selfie".

Definition demo_file : File := mkFile "selfie.jpg" "image/jpeg" "JFIF".

Definition demo_env (write_ok save_ok : bool) : Env :=
  mkEnv (fun i => Z.of_nat i * 37 + 11) 1700000000000 write_ok save_ok None None.

Definition demo_encoder : Encoder := fun _ _ _ => Normal "PNG".

Definition demo_server : Server :=
  mkServer {[ "V1StGXR8_Z" := mkRecord "V1StGXR8_Z.png" 1690000000000 ]} ∅.

(** A run of five requests: two stored uploads, two reads and an upload
    whose file write fails. *)
Definition demo_requests : list Request :=
  [ ReqUpload (demo_env true true) (Some demo_file);
    ReqMeta "Tb5yYnO8hJ";
    ReqUpload (mkEnv (fun i => Z.of_nat i * 5 + 2) 1700000000500 true true None None)
              (Some (mkFile "IMG_0001.HEIC" "image/heic" "ftypheic"));
    ReqQr (Some (QStr "http://192.168.1.7:3000/view/Tb5yYnO8hJ"));
    ReqUpload (demo_env false true) (Some demo_file) ].

Definition demo_env2 : Env :=
  mkEnv (fun i => Z.of_nat i * 5 + 2) 1700000000500 true true None None.

(** The server after one stored upload, and a request whose manifest
    write fails after the file was truncated, with nothing written. *)
Definition demo_stored : Server :=
  snd (upload demo_config (demo_env true true) (Some demo_file) (mkServer ∅ ∅)).

Definition demo_env_torn : Env :=
  mkEnv (fun i => Z.of_nat i * 5 + 2) 1700000000500 true false None (Some 0%nat).

(** A browser with a microphone and two cameras that grants every
    request, a page before its first event, and three events on it. *)
Definition demo_devices : list Client.Device :=
  [ Client.mkDevice "audioinput" "mic-1" "Microphone";
    Client.mkDevice "videoinput" "cam-back" "Back Camera";
    Client.mkDevice "videoinput" "cam-front" "FRONT Camera" ].

Definition demo_media : Client.Media :=
  Client.mkMedia true (Some demo_devices) (fun _ => true) (fun _ => true).

Definition demo_page : Client.Page :=
  Client.mkPage (Client.mkPanel "" true true false) Client.initial_camera
                (Client.mkShare "" "" "" "" "" true None []).

Definition demo_answer : Response :=
  fst (handle demo_config demo_encoder
         (ReqUpload (demo_env true true) (Some (Client.captured_file "JFIF"))) demo_server).

(** The page once the camera is enabled. *)
Definition demo_ready : Client.Page :=
  match Client.step (Client.EnableCamera demo_media) demo_page with
  | Some pg => pg
  | None => demo_page
  end.

Definition demo_events : list Client.Event :=
  [ Client.EnableCamera demo_media;
    Client.SwitchCamera (fun k => negb (bool_decide (k = Client.ByDevice "cam-back")))
                        (fun _ => true);
    Client.Capture 1080 1440 (Some "JFIF") "blob:1" (Some demo_answer) ].

(** ** Proof automation *)

(** Case analysis on the eight bits of a character, keeping the cases
    that hypothesis [H] allows. *)
Ltac char_cases c H := destruct c as [[] [] [] [] [] [] [] []]; try discriminate H.

(** * Properties *)

#[local] Arguments String.append !s1 s2 : simpl nomatch.

(** ** Strings and paths *)

Lemma string_app_assoc (s t u : string) : (s +:+ t) +:+ u = s +:+ (t +:+ u).
Proof. induction s as [|c s IH]; simpl; [reflexivity | now rewrite IH]. Qed.

Lemma string_app_nil_r (s : string) : s +:+ "" = s.
Proof. induction s as [|c s IH]; simpl; [reflexivity | now rewrite IH]. Qed.

Lemma string_length_app (s t : string) :
  String.length (s +:+ t) = (String.length s + String.length t)%nat.
Proof. induction s as [|c s IH]; simpl; [reflexivity | now rewrite IH]. Qed.

(** The upload path and the manifest path never coincide. *)
Lemma upload_path_not_manifest cfg name :
  path_join (UPLOADS_DIR cfg) name ≠ MANIFEST_PATH cfg.
Proof.
  unfold path_join, UPLOADS_DIR, MANIFEST_PATH, DATA_DIR, path_join.
  rewrite !string_app_assoc. intros H.
  apply (inj (String.append (dirname cfg))) in H. discriminate H.
Qed.

(** ** nanoid *)

Lemma nanoid_from_length pool size i : String.length (nanoid_from pool i size) = size.
Proof.
  revert i. induction size as [|k IH]; intros i; simpl; [reflexivity | now rewrite IH].
Qed.

Lemma nanoid_length size pool : String.length (nanoid size pool) = size.
Proof. apply nanoid_from_length. Qed.

Lemma upload_id_length env : String.length (upload_id env) = 10%nat.
Proof. apply nanoid_length. Qed.

(** Ten characters cannot spell the nine of [__proto__], so
    [manifest[id] = rec] always creates or replaces an own property. *)
Lemma upload_id_not_proto env : upload_id env ≠ "__proto__".
Proof.
  intros H. pose proof (upload_id_length env) as L. rewrite H in L. discriminate L.
Qed.

(** ** JSON: parsing what was serialised *)

Module JSONFacts.

Import Chars.

#[local] Arguments indent : simpl never.

(** *** White space *)

Lemma skip_ws_spaces n s : skip_ws (spaces n +:+ s) = skip_ws s.
Proof. induction n as [|k IH]; simpl; [reflexivity | exact IH]. Qed.

Lemma skip_ws_indent d s : skip_ws (indent d +:+ s) = skip_ws s.
Proof. apply skip_ws_spaces. Qed.

Lemma skip_ws_nl s : skip_ws (nl +:+ s) = skip_ws s.
Proof. reflexivity. Qed.

Lemma skip_ws_idem s : skip_ws (skip_ws s) = skip_ws s.
Proof.
  induction s as [|c s IH]; simpl; [reflexivity|].
  destruct (is_ws c) eqn:E; [exact IH | simpl; now rewrite E].
Qed.

Lemma parse_value_skip_ws fuel s : parse_value fuel (skip_ws s) = parse_value fuel s.
Proof. destruct fuel as [|n]; simpl; [reflexivity | now rewrite skip_ws_idem]. Qed.

(** *** String literals *)

Lemma push_char c r : push (String c "") r = match r with Some (s, rest) => Some (String c s, rest) | None => None end.
Proof. destruct r as [[s rest]|]; reflexivity. Qed.

Lemma escape_char_parse c s rest :
  parse_string_body (escape s +:+ String quote rest) = Some (s, rest) →
  parse_string_body (escape_char c +:+ escape s +:+ String quote rest) = Some (String c s, rest).
Proof.
  intros IH. unfold escape_char.
  destruct (Ascii.eqb c quote) eqn:E1.
  { apply Ascii.eqb_eq in E1. subst c. simpl. now rewrite IH. }
  destruct (Ascii.eqb c backslash) eqn:E2.
  { apply Ascii.eqb_eq in E2. subst c. simpl. now rewrite IH. }
  destruct (Ascii.eqb c "008") eqn:E3.
  { apply Ascii.eqb_eq in E3. subst c. simpl. now rewrite IH. }
  destruct (Ascii.eqb c "012") eqn:E4.
  { apply Ascii.eqb_eq in E4. subst c. simpl. now rewrite IH. }
  destruct (Ascii.eqb c "010") eqn:E5.
  { apply Ascii.eqb_eq in E5. subst c. simpl. now rewrite IH. }
  destruct (Ascii.eqb c "013") eqn:E6.
  { apply Ascii.eqb_eq in E6. subst c. simpl. now rewrite IH. }
  destruct (Ascii.eqb c "009") eqn:E7.
  { apply Ascii.eqb_eq in E7. subst c. simpl. now rewrite IH. }
  destruct (code c <? 32) eqn:E8.
  - clear E1 E2 E3 E4 E5 E6 E7.
    char_cases c E8; simpl; now rewrite IH.
  - simpl. rewrite E1, E2, E8, IH. reflexivity.
Qed.

Lemma parse_string_body_escape s rest :
  parse_string_body (escape s +:+ String quote rest) = Some (s, rest).
Proof.
  induction s as [|c s IH].
  - reflexivity.
  - simpl escape. rewrite string_app_assoc. now apply escape_char_parse.
Qed.

Lemma parse_quote_string s rest :
  parse_string_body (escape s +:+ String quote "" +:+ rest) = Some (s, rest).
Proof. apply (parse_string_body_escape s rest). Qed.

(** *** Numbers *)

Lemma span_digits_uint u rest :
  ends_number rest = true →
  span_digits (NilEmpty.string_of_uint u +:+ rest) = (NilEmpty.string_of_uint u, rest).
Proof.
  intros Hrest. induction u; simpl; try (rewrite IHu; reflexivity).
  destruct rest as [|c r]; [reflexivity|]. simpl in *.
  destruct (is_digit c); [discriminate | reflexivity].
Qed.

Lemma digits_value_uint u : digits_value (NilEmpty.string_of_uint u) = Z.of_uint u.
Proof. unfold digits_value. now rewrite NilEmpty.usu. Qed.

Lemma to_uint_head p :
  ∃ c tl, NilEmpty.string_of_uint (Pos.to_uint p) = String c tl
          ∧ is_digit c = true ∧ Ascii.eqb c "0" = false.
Proof.
  assert (Hn : Decimal.unorm (Pos.to_uint p) = Pos.to_uint p).
  { rewrite <- DecimalPos.Unsigned.to_of, DecimalPos.Unsigned.of_to. reflexivity. }
  pose proof (DecimalPos.Unsigned.to_uint_nonzero p) as Hz.
  destruct (Pos.to_uint p) as [|u|u|u|u|u|u|u|u|u|u] eqn:E;
    try (simpl; eexists _, _; split; [reflexivity | split; reflexivity]).
  - now destruct (DecimalPos.Unsigned.to_uint_nonnil p).
  - exfalso. rewrite unorm_D0 in Hn.
    destruct u as [|u'|u'|u'|u'|u'|u'|u'|u'|u'|u'] eqn:Eu; [now apply Hz | ..];
      (assert (Hnb : (Decimal.nb_digits (Decimal.unorm u) <= Decimal.nb_digits u)%nat)
         by (apply nb_digits_unorm; subst u; discriminate);
       subst u; rewrite Hn in Hnb; simpl in Hnb; lia).
Qed.

Lemma of_uint_to_uint p : Z.of_uint (Pos.to_uint p) = Z.pos p.
Proof. unfold Z.of_uint. now rewrite DecimalPos.Unsigned.of_to. Qed.

Lemma digit_not_minus c : is_digit c = true → Ascii.eqb c "-" = false.
Proof. intros H. char_cases c H; reflexivity. Qed.

Lemma tail_after_number rest :
  ends_number rest = true → frac_part rest = Some ("", rest) ∧ exp_part rest = Some ("", rest).
Proof.
  destruct rest as [|c r]; [now split|]. simpl. intros H.
  destruct (is_digit c), (Ascii.eqb c ".") eqn:E1, (Ascii.eqb c "e") eqn:E2,
    (Ascii.eqb c "E") eqn:E3; try discriminate H.
  now split.
Qed.

Lemma parse_unsigned p rest :
  ends_number rest = true →
  int_part (NilEmpty.string_of_uint (Pos.to_uint p) +:+ rest)
  = Some (NilEmpty.string_of_uint (Pos.to_uint p), rest).
Proof.
  intros Hrest. unfold int_part. rewrite span_digits_uint by assumption.
  destruct (to_uint_head p) as (c & tl & -> & _ & Hz). now rewrite Hz.
Qed.

Lemma string_of_uint_pos p :
  NilZero.string_of_uint (Pos.to_uint p) = NilEmpty.string_of_uint (Pos.to_uint p).
Proof.
  unfold NilZero.string_of_uint.
  destruct (Pos.to_uint p) eqn:E; try reflexivity.
  now destruct (DecimalPos.Unsigned.to_uint_nonnil p).
Qed.

Lemma parse_number_unsigned ds rest :
  (∃ c tl, ds = String c tl ∧ Ascii.eqb c "-" = false) →
  int_part (ds +:+ rest) = Some (ds, rest) →
  ends_number rest = true →
  parse_number (ds +:+ rest) = Some (JNum (digits_value ds), rest).
Proof.
  intros (c & tl & -> & Hm) Hi Hrest.
  destruct (tail_after_number rest Hrest) as [Hf He].
  unfold parse_number.
  change (String c tl +:+ rest) with (String c (tl +:+ rest)) in *.
  cbv beta iota. rewrite Hm, Hi, Hf, He. reflexivity.
Qed.

Lemma parse_number_negative ds rest :
  int_part (ds +:+ rest) = Some (ds, rest) →
  ends_number rest = true →
  parse_number (String "-" ds +:+ rest) = Some (JNum (- digits_value ds), rest).
Proof.
  intros Hi Hrest. destruct (tail_after_number rest Hrest) as [Hf He].
  unfold parse_number.
  change (String "-" ds +:+ rest) with (String "-" (ds +:+ rest)).
  cbv beta iota. rewrite Ascii.eqb_refl, Hi, Hf, He. reflexivity.
Qed.

Lemma parse_number_roundtrip n rest :
  ends_number rest = true →
  parse_number (number_to_string n +:+ rest) = Some (JNum n, rest).
Proof.
  intros Hrest. unfold number_to_string. destruct n as [|p|p]; simpl Z.to_int.
  - change (NilZero.string_of_int (Decimal.Pos (Decimal.D0 Decimal.Nil))) with "0".
    rewrite parse_number_unsigned; [reflexivity | | | assumption].
    + eexists _, _. split; reflexivity.
    + unfold int_part. simpl.
      pose proof (span_digits_uint Decimal.Nil rest Hrest) as Hs. simpl in Hs.
      now rewrite Hs.
  - unfold NilZero.string_of_int. rewrite string_of_uint_pos.
    rewrite parse_number_unsigned.
    + now rewrite digits_value_uint, of_uint_to_uint.
    + destruct (to_uint_head p) as (c & tl & E & Hd & _).
      exists c, tl. split; [exact E | now apply digit_not_minus].
    + now apply parse_unsigned.
    + assumption.
  - unfold NilZero.string_of_int. rewrite string_of_uint_pos.
    rewrite parse_number_negative.
    + now rewrite digits_value_uint, of_uint_to_uint.
    + now apply parse_unsigned.
    + assumption.
Qed.

(** The first character of a number, for the dispatch of [parse_value]. *)
Lemma number_head n :
  ∃ c tl, number_to_string n = String c tl ∧ (is_digit c = true ∨ c = "-"%char).
Proof.
  unfold number_to_string. destruct n as [|p|p]; simpl Z.to_int.
  - eexists _, _. split; [reflexivity | now left].
  - destruct (to_uint_head p) as (c & tl & E & Hd & _).
    exists c, tl. split; [|now left].
    unfold NilZero.string_of_int. now rewrite string_of_uint_pos.
  - eexists _, _. split; [reflexivity | now right].
Qed.

(** *** Values *)

Lemma json_nested_ind (P : json → Prop) :
  P JNull → (∀ b, P (JBool b)) → (∀ n, P (JNum n)) → (∀ l, P (JReal l)) →
  (∀ s, P (JStr s)) →
  (∀ items, Forall P items → P (JArr items)) →
  (∀ fields, Forall (fun kv => P (snd kv)) fields → P (JObj fields)) →
  ∀ v, P v.
Proof.
  intros Hnull Hbool Hnum Hreal Hstr Harr Hobj.
  fix IH 1. intros [ | b | n | l | s | items | fields ].
  - exact Hnull.
  - apply Hbool.
  - apply Hnum.
  - apply Hreal.
  - apply Hstr.
  - apply Harr. induction items as [|x xs IHxs]; constructor; [apply IH | exact IHxs].
  - apply Hobj. induction fields as [|[k x] fs IHfs]; constructor; [apply IH | exact IHfs].
Qed.

Lemma serialize_arr d x xs :
  serialize d (JArr (x :: xs))
  = "[" +:+ nl +:+ indent (S d) +:+ serialize (S d) x +:+ more_items d xs
    +:+ nl +:+ indent d +:+ "]".
Proof.
  cbn [serialize]. do 4 f_equal.
  f_equal. induction xs as [|y ys IH]; [reflexivity|].
  cbn [more_items]. now rewrite <- IH.
Qed.

Lemma serialize_obj d k x fs :
  serialize d (JObj ((k, x) :: fs))
  = "{" +:+ nl +:+ indent (S d) +:+ quote_string k +:+ ": " +:+ serialize (S d) x
    +:+ more_fields d fs +:+ nl +:+ indent d +:+ "}".
Proof.
  cbn [serialize]. do 6 f_equal.
  f_equal. induction fs as [|[k' y] ys IH]; [reflexivity|].
  cbn [more_fields]. now rewrite <- IH.
Qed.

Lemma quote_string_app k rest :
  quote_string k +:+ rest = String quote (escape k +:+ String quote rest).
Proof. unfold quote_string. simpl. now rewrite string_app_assoc. Qed.

Lemma parse_value_ws fuel d s : parse_value fuel (nl +:+ indent d +:+ s) = parse_value fuel s.
Proof.
  rewrite <- (parse_value_skip_ws fuel (nl +:+ indent d +:+ s)).
  rewrite skip_ws_nl, skip_ws_indent. apply parse_value_skip_ws.
Qed.

Lemma parse_value_space fuel s : parse_value fuel (String " " s) = parse_value fuel s.
Proof.
  rewrite <- (parse_value_skip_ws fuel (String " " s)).
  change (skip_ws (String " " s)) with (skip_ws s). apply parse_value_skip_ws.
Qed.

Lemma digit_head c :
  is_digit c = true ∨ c = "-"%char →
  is_ws c = false ∧ Ascii.eqb c "{" = false ∧ Ascii.eqb c "[" = false
  ∧ Ascii.eqb c quote = false ∧ Ascii.eqb c "t" = false ∧ Ascii.eqb c "f" = false
  ∧ Ascii.eqb c "n" = false ∧ Ascii.eqb c "]" = false.
Proof.
  intros [H | ->]; [|repeat split; reflexivity].
  char_cases c H; repeat split; reflexivity.
Qed.

(** A serialised value starts with a character that is neither white space
    nor a closing bracket. *)
Lemma serialize_head d v :
  wf v → ∃ c tl, serialize d v = String c tl ∧ is_ws c = false ∧ Ascii.eqb c "]" = false.
Proof.
  intros Hwf. destruct Hwf as [ | b | n | s | items _ | fields _ _ ].
  - eexists _, _; split; [reflexivity | split; reflexivity].
  - destruct b; eexists _, _; (split; [reflexivity | split; reflexivity]).
  - destruct (number_head n) as (c & tl & E & Hc). exists c, tl.
    split; [exact E|]. destruct (digit_head c Hc) as (? & _ & _ & _ & _ & _ & _ & ?). now split.
  - eexists _, _; split; [reflexivity | split; reflexivity].
  - destruct items as [|x xs]; [|rewrite serialize_arr];
      eexists _, _; (split; [reflexivity | split; reflexivity]).
  - destruct fields as [|[k x] fs]; [|rewrite serialize_obj];
      eexists _, _; (split; [reflexivity | split; reflexivity]).
Qed.

Lemma skip_ws_head c tl : is_ws c = false → skip_ws (String c tl) = String c tl.
Proof. intros H. simpl. now rewrite H. Qed.

Lemma ends_number_more_items d xs tail :
  ends_number tail = true → ends_number (more_items d xs +:+ tail) = true.
Proof. destruct xs; [trivial | reflexivity]. Qed.

Lemma ends_number_more_fields d fs tail :
  ends_number tail = true → ends_number (more_fields d fs +:+ tail) = true.
Proof. destruct fs as [|[k x] fs]; [trivial | reflexivity]. Qed.

Lemma parse_elements_roundtrip n d rest xs :
  ∀ x k,
    Forall roundtrips (x :: xs) →
    (length xs < k)%nat →
    (String.length (serialize (S d) x +:+ more_items d xs +:+ nl +:+ indent d +:+ "]" +:+ rest) < n)%nat →
    parse_elements (parse_value n) k
      (nl +:+ indent (S d) +:+ serialize (S d) x +:+ more_items d xs
       +:+ nl +:+ indent d +:+ "]" +:+ rest)
    = Some (x :: xs, rest).
Proof.
  induction xs as [|y ys IH]; intros x k Hall Hk Hlen;
    (destruct k as [|k']; [lia|]); cbn [parse_elements];
    rewrite parse_value_ws; inversion Hall as [|? ? Hx Hxs]; subst.
  - rewrite Hx; [|reflexivity | exact Hlen].
    cbn [more_items]. cbn [String.append].
    rewrite skip_ws_nl, skip_ws_indent. reflexivity.
  - rewrite Hx; [| now apply ends_number_more_items | exact Hlen].
    cbn [more_items]. rewrite !string_app_assoc.
    change ("," +:+ ?s) with (String "," s).
    rewrite skip_ws_head by reflexivity.
    rewrite Ascii.eqb_refl.
    rewrite IH; [reflexivity | exact Hxs | simpl in Hk; lia |].
    cbn [more_items] in Hlen. rewrite !string_app_assoc in Hlen.
    rewrite !string_length_app in Hlen. rewrite !string_length_app. lia.
Qed.

Lemma parse_members_roundtrip n d rest fs :
  ∀ key x k,
    Forall (fun kv => roundtrips (snd kv)) ((key, x) :: fs) →
    (length fs < k)%nat →
    (String.length (serialize (S d) x +:+ more_fields d fs +:+ nl +:+ indent d +:+ "}" +:+ rest) < n)%nat →
    parse_members (parse_value n) k
      (nl +:+ indent (S d) +:+ quote_string key +:+ ": " +:+ serialize (S d) x
       +:+ more_fields d fs +:+ nl +:+ indent d +:+ "}" +:+ rest)
    = Some ((key, x) :: fs, rest).
Proof.
  induction fs as [|[key' y] ys IH]; intros key x k Hall Hk Hlen;
    (destruct k as [|k']; [lia|]); cbn [parse_members];
    rewrite skip_ws_nl, skip_ws_indent, quote_string_app;
    rewrite skip_ws_head by reflexivity;
    rewrite Ascii.eqb_refl, parse_string_body_escape;
    change (": " +:+ ?s) with (String ":" (String " " s));
    rewrite skip_ws_head by reflexivity;
    rewrite Ascii.eqb_refl, parse_value_space;
    inversion Hall as [|? ? Hx Hxs]; subst; simpl in Hx.
  - rewrite Hx; [|reflexivity | exact Hlen].
    cbn [more_fields]. cbn [String.append].
    rewrite skip_ws_nl, skip_ws_indent. reflexivity.
  - rewrite Hx; [| now apply ends_number_more_fields | exact Hlen].
    cbn [more_fields]. rewrite !string_app_assoc.
    change ("," +:+ ?s) with (String "," s).
    rewrite skip_ws_head by reflexivity.
    rewrite Ascii.eqb_refl.
    rewrite IH; [reflexivity | exact Hxs | simpl in Hk; lia |].
    cbn [more_fields] in Hlen. rewrite !string_app_assoc in Hlen.
    rewrite !string_length_app in Hlen. rewrite !string_length_app. lia.
Qed.

Lemma length_more_items d xs : (length xs <= String.length (more_items d xs))%nat.
Proof.
  induction xs as [|y ys IH]; [reflexivity|].
  cbn [more_items]. rewrite !string_length_app. simpl. lia.
Qed.

Lemma length_more_fields d fs : (length fs <= String.length (more_fields d fs))%nat.
Proof.
  induction fs as [|[k y] ys IH]; [reflexivity|].
  cbn [more_fields]. rewrite !string_length_app. simpl. lia.
Qed.

(** Keys that are pairwise distinct are kept as written. *)
Lemma obj_put_fresh key v acc :
  key ∉ map fst acc → obj_put key v acc = acc ++ [(key, v)].
Proof.
  induction acc as [|[k x] acc IH]; intros Hk; [reflexivity|].
  simpl. destruct (String.eqb k key) eqn:E.
  - apply String.eqb_eq in E. subst. exfalso. apply Hk. simpl. left.
  - rewrite IH; [reflexivity|]. intros Hin. apply Hk. simpl. now right.
Qed.

Lemma build_object_acc fields acc :
  NoDup (map fst (acc ++ fields)) →
  fold_left (fun a kv => obj_put (fst kv) (snd kv) a) fields acc = acc ++ fields.
Proof.
  revert acc. induction fields as [|[k x] fs IH]; intros acc Hnd.
  - now rewrite app_nil_r.
  - simpl. rewrite obj_put_fresh.
    + rewrite IH; rewrite <- app_assoc; [reflexivity | exact Hnd].
    + rewrite map_app in Hnd. apply NoDup_app in Hnd as (_ & Hd & _).
      intros Hin. apply (Hd k Hin). simpl. left.
Qed.

Lemma build_object_nodup fields : NoDup (map fst fields) → build_object fields = fields.
Proof. intros H. unfold build_object. now rewrite build_object_acc. Qed.

Lemma parse_value_array n rest :
  parse_value (S n) (String "[" rest)
  = match skip_ws rest with
    | EmptyString => None
    | String c1 r1 =>
      if Ascii.eqb c1 "]" then Some (JArr [], r1)
      else match parse_elements (parse_value n) n rest with
           | Some (vs, r2) => Some (JArr vs, r2)
           | None => None
           end
    end.
Proof. reflexivity. Qed.

Lemma parse_value_object n rest :
  parse_value (S n) (String "{" rest)
  = match skip_ws rest with
    | EmptyString => None
    | String c1 r1 =>
      if Ascii.eqb c1 "}" then Some (JObj [], r1)
      else match parse_members (parse_value n) n rest with
           | Some (ms, r2) => Some (JObj (build_object ms), r2)
           | None => None
           end
    end.
Proof. reflexivity. Qed.

Lemma parse_value_number n c tl :
  is_digit c = true ∨ c = "-"%char →
  parse_value (S n) (String c tl) = parse_number (String c tl).
Proof.
  intros Hc. destruct (digit_head c Hc) as (H1 & H2 & H3 & H4 & H5 & H6 & H7 & _).
  cbn [parse_value]. rewrite skip_ws_head by exact H1.
  now rewrite H2, H3, H4, H5, H6, H7.
Qed.

Theorem serialize_roundtrips v : wf v → roundtrips v.
Proof.
  induction v as [ | b | n | l | s | items IH | fields IH ] using json_nested_ind;
    intros Hwf d fuel rest Hrest Hlen; (destruct fuel as [|m]; [lia|]).
  - reflexivity.
  - destruct b; reflexivity.
  - cbn [serialize]. destruct (number_head n) as (c & tl & E & Hc).
    pose proof (parse_number_roundtrip n rest Hrest) as Hp.
    rewrite E in *. change (String c tl +:+ rest) with (String c (tl +:+ rest)) in *.
    now rewrite parse_value_number.
  - inversion Hwf.
  - cbn [serialize]. rewrite quote_string_app.
    cbn [parse_value]. rewrite skip_ws_head by reflexivity.
    change (Ascii.eqb quote "{") with false. change (Ascii.eqb quote "[") with false.
    rewrite Ascii.eqb_refl. cbv iota. now rewrite parse_string_body_escape.
  - inversion Hwf as [ | | | | ? Hitems | ]; subst.
    destruct items as [|x xs]; [reflexivity|].
    rewrite serialize_arr in *. rewrite !string_app_assoc in *.
    change ("[" +:+ ?s) with (String "[" s) in *.
    rewrite parse_value_array, skip_ws_nl, skip_ws_indent.
    destruct (serialize_head (S d) x) as (c & tl & E & Hws & Hc);
      [now inversion Hitems|].
    assert (Hsk : ∀ r, skip_ws (serialize (S d) x +:+ r) = String c (tl +:+ r)).
    { intros r. rewrite E. now apply skip_ws_head. }
    rewrite Hsk, Hc.
    pose proof (length_more_items d xs) as Hm.
    cbn [String.length] in Hlen. rewrite !string_length_app in Hlen.
    rewrite parse_elements_roundtrip; [reflexivity | | lia |].
    + rewrite Forall_forall in IH, Hitems. apply Forall_forall.
      intros y Hy. apply IH; [exact Hy | now apply Hitems].
    + rewrite !string_length_app. lia.
  - inversion Hwf as [ | | | | | ? Hnd Hfields ]; subst.
    destruct fields as [|[k x] fs]; [reflexivity|].
    rewrite serialize_obj in *. rewrite !string_app_assoc in *.
    change ("{" +:+ ?s) with (String "{" s) in *.
    rewrite parse_value_object, skip_ws_nl, skip_ws_indent, quote_string_app.
    rewrite skip_ws_head by reflexivity.
    change (Ascii.eqb quote "}") with false. cbv iota.
    pose proof (length_more_fields d fs) as Hm.
    cbn [String.length] in Hlen. rewrite !string_length_app in Hlen.
    rewrite <- quote_string_app.
    rewrite parse_members_roundtrip.
    + now rewrite build_object_nodup.
    + rewrite Forall_forall in IH, Hfields. apply Forall_forall.
      intros y Hy. apply IH; [exact Hy | now apply Hfields].
    + lia.
    + rewrite !string_length_app. lia.
Qed.

(** [JSON.parse (JSON.stringify v) = v] *)
Theorem parse_stringify v : wf v → parse (stringify v) = Some v.
Proof.
  intros Hwf. unfold parse, stringify.
  pose proof (serialize_roundtrips v Hwf 0%nat (S (String.length (serialize 0 v))) "") as H.
  rewrite string_app_nil_r in H. rewrite H; [reflexivity | reflexivity | lia].
Qed.

End JSONFacts.

(** ** The manifest file holds the manifest *)

Lemma record_roundtrip r : record_of_json (json_of_record r) = Some r.
Proof. now destruct r. Qed.

Lemma records_roundtrip (l : list (string * PhotoRecord)) :
  records_of_fields (map (fun kr => (fst kr, json_of_record (snd kr))) l) = Some l.
Proof.
  induction l as [|[k r] l IH]; [reflexivity|].
  cbn [map records_of_fields fst snd]. now rewrite record_roundtrip, IH.
Qed.

Lemma manifest_of_json_of_manifest (m : Manifest) :
  manifest_of_json (json_of_manifest m) = Some m.
Proof.
  unfold manifest_of_json, json_of_manifest.
  now rewrite records_roundtrip, list_to_map_to_list.
Qed.

Lemma wf_record r : wf (json_of_record r).
Proof.
  apply wf_obj.
  - cbn [map fst]. apply NoDup_cons. split; [|apply NoDup_singleton].
    intros Hin. apply list_elem_of_singleton in Hin. discriminate Hin.
  - repeat constructor.
Qed.

Lemma wf_manifest (m : Manifest) : wf (json_of_manifest m).
Proof.
  apply wf_obj.
  - rewrite map_map. cbn [fst]. exact (NoDup_fst_map_to_list m).
  - apply Forall_forall. intros [k v] Hin.
    apply list_elem_of_In, in_map_iff in Hin as ([k' r] & [= <- <-] & _).
    apply wf_record.
Qed.

Lemma parse_manifest (m : Manifest) :
  JSON.parse (JSON.stringify (json_of_manifest m)) = Some (json_of_manifest m).
Proof. apply JSONFacts.parse_stringify, wf_manifest. Qed.

Lemma loadManifest_total cfg fs : ∃ v, loadManifest cfg fs = Normal v.
Proof.
  unfold loadManifest, readFileSync, JSON_parse.
  destruct (fs !! MANIFEST_PATH cfg) as [raw|]; [|now eexists].
  destruct (JSON.parse raw); now eexists.
Qed.

Lemma loadManifest_written cfg fs text v :
  fs !! MANIFEST_PATH cfg = Some text → JSON.parse text = Some v →
  loadManifest cfg fs = Normal v.
Proof. intros Hf Hp. unfold loadManifest, readFileSync, JSON_parse. now rewrite Hf, Hp. Qed.

(** ** The choice of extension *)

Lemma mimeToExt_values : map_Forall (fun _ ext => String.eqb ext "" = false) mimeToExt.
Proof.
  unfold mimeToExt. cbn [list_to_map foldr uncurry fst snd curry].
  repeat (apply map_Forall_insert_2; [reflexivity|]). apply map_Forall_empty.
Qed.

Lemma mimeToExt_nonempty key ext : mimeToExt !! key = Some ext → String.eqb ext "" = false.
Proof. apply mimeToExt_values. Qed.

(** No inherited member has a slash in its name. *)
Lemma mime_type_not_inherited s : is_mime_type s = true → inherited s = false.
Proof.
  intros Hs. unfold inherited. apply bool_decide_eq_false. intros Hin.
  unfold Object_prototype_keys in Hin.
  repeat (apply elem_of_cons in Hin as [-> | Hin]; [discriminate Hs|]).
  now apply elem_of_nil in Hin.
Qed.

Lemma choose_ext_plain f :
  inherited (mimetype f) = false → choose_ext f = VString (ext_by_fallback mimeToExt f).
Proof.
  intros Hin. unfold choose_ext, ext_by_fallback, obj_get.
  destruct (mimeToExt !! mimetype f) as [ext|] eqn:E.
  - apply mimeToExt_nonempty in E. unfold js_or. cbn [truthy].
    rewrite E. cbn [negb truthy]. now rewrite E.
  - rewrite Hin. unfold js_or. cbn [truthy].
    now destruct (String.eqb (extname (originalname f)) "").
Qed.

(** A content type that names an inherited member is found in the table
    object although the table does not list it, and the file name ends in
    the text of a native function. *)
Lemma choose_ext_inherited f :
  mimeToExt !! mimetype f = None → inherited (mimetype f) = true →
  choose_ext f = VBuiltin (mimetype f).
Proof. intros E Hin. unfold choose_ext, obj_get. now rewrite E, Hin. Qed.

(** C5. For every uploaded file whose declared content type has the form
    type/subtype, the stored extension is chosen by the three-step
    fallback: the content type is looked up in the fixed table of image
    types; when the table does not list it, the extension of the original
    file name is used; when that is empty too, the default [.jpg]. *)
Theorem extension_fallback f :
  is_mime_type (mimetype f) = true →
  choose_ext f = VString (ext_by_fallback mimeToExt f).
Proof. intros H. now apply choose_ext_plain, mime_type_not_inherited. Qed.

(** The three steps at work: a listed type, an unlisted type with a named
    extension, an unlisted type without one. *)
Lemma extension_fallback_witness :
  choose_ext (mkFile "photo.bin" "image/png" "") = VString ".png"
  ∧ choose_ext (mkFile "logo.ico" "image/x-icon" "") = VString ".ico"
  ∧ choose_ext (mkFile "blob" "application/octet-stream" "") = VString ".jpg".
Proof.
  split; [|split].
  - exact (extension_fallback (mkFile "photo.bin" "image/png" "") eq_refl).
  - exact (extension_fallback (mkFile "logo.ico" "image/x-icon" "") eq_refl).
  - exact (extension_fallback (mkFile "blob" "application/octet-stream" "") eq_refl).
Defined.

(** ** POST /api/upload *)

(** The three outcomes of an upload that carries a file. *)
Lemma upload_with_file cfg env f s :
  upload cfg env (Some f) s =
  if writeFile_ok env then
    let m' := <[upload_id env := stored_record env f]> (manifest s) in
    let d' := <[upload_path cfg env f := buffer f]> (disk s) in
    if writeFileSync_ok env
    then (Normal (ok_response cfg env),
          mkServer m' (<[MANIFEST_PATH cfg := JSON.stringify (json_of_manifest m')]> d'))
    else (Normal failed_response,
          mkServer m' (left_by_failure (writeFileSync_left env) (MANIFEST_PATH cfg)
                         (JSON.stringify (json_of_manifest m')) d'))
  else (Normal failed_response,
        mkServer (manifest s)
                 (left_by_failure (writeFile_left env) (upload_path cfg env f) (buffer f)
                    (disk s))).
Proof.
  unfold upload, catch, mbind, M_bind, saveManifest, writeFile, writeFileSync,
    manifest_set, manifest_read, mret, M_ret.
  destruct (writeFile_ok env), (writeFileSync_ok env); reflexivity.
Qed.

(** A failed write touches no path but its own. *)
Lemma left_by_failure_other left path data fs p :
  p ≠ path → left_by_failure left path data fs !! p = fs !! p.
Proof.
  intros Hp. destruct left as [n|]; [|reflexivity].
  cbn [left_by_failure]. now apply lookup_insert_ne.
Qed.

Lemma upload_never_throws cfg env file s : ∃ res, fst (upload cfg env file s) = Normal res.
Proof.
  destruct file as [f|]; [|now eexists].
  rewrite upload_with_file.
  destruct (writeFile_ok env), (writeFileSync_ok env); now eexists.
Qed.

Lemma view_url_unfold cfg id :
  view_url cfg id = "http://" +:+ LOCAL_IP cfg +:+ ":" +:+ PORT cfg +:+ "/view/" +:+ id.
Proof. unfold view_url, BASE_URL. now rewrite !string_app_assoc. Qed.

(** C1, as amended.  For every upload request carrying a file.  When the
    file write and the manifest write both succeed, the handler answers 200
    with the generated id and the view URL [http://host:port/view/id]; the
    file bytes are on disk in the uploads directory under the name id+ext;
    the manifest is the one before with the id bound to a record of that
    file name and the time of the clock, so that every other id is bound as
    before, one entry is added when the id is not yet a key and the record
    is replaced when it is; the manifest file parses to exactly this
    manifest, which a restart therefore finds; no other file is touched.
    When one of the two writes fails the handler answers 500 with the
    error [Upload failed]. *)
Theorem upload_stores_and_records cfg env f s :
  let id := upload_id env in
  let name := id +:+ to_string (choose_ext f) in
  let rec := mkRecord name (now env) in
  let res := fst (upload cfg env (Some f) s) in
  let s' := snd (upload cfg env (Some f) s) in
  (writeFile_ok env = true → writeFileSync_ok env = true →
   res = Normal (res_json 200 (JObj [("id", JStr id); ("viewUrl", JStr (view_url cfg id))]))
   ∧ view_url cfg id = "http://" +:+ LOCAL_IP cfg +:+ ":" +:+ PORT cfg +:+ "/view/" +:+ id
   ∧ disk s' !! path_join (UPLOADS_DIR cfg) name = Some (buffer f)
   ∧ manifest s' = <[id := rec]> (manifest s)
   ∧ manifest s' !! id = Some rec
   ∧ (∀ id', id' ≠ id → manifest s' !! id' = manifest s !! id')
   ∧ match manifest s !! id with
     | None => size (manifest s') = S (size (manifest s))
     | Some _ => size (manifest s') = size (manifest s)
     end
   ∧ (∃ text v,
        disk s' !! MANIFEST_PATH cfg = Some text
        ∧ JSON.parse text = Some v
        ∧ manifest_of_json v = Some (manifest s'))
   ∧ boot cfg (disk s') = Some s'
   ∧ (∀ p, p ≠ path_join (UPLOADS_DIR cfg) name → p ≠ MANIFEST_PATH cfg →
           disk s' !! p = disk s !! p))
  ∧ (writeFile_ok env = false ∨ writeFileSync_ok env = false →
     res = Normal (res_json 500 (JObj [("error", JStr "Upload failed")]))).
Proof.
  cbv zeta. rewrite upload_with_file. split.
  - intros Hw Hs. rewrite Hw, Hs. cbn [fst snd manifest disk].
    split; [reflexivity|]. split; [apply view_url_unfold|].
    split.
    { rewrite lookup_insert_ne by (apply not_eq_sym, upload_path_not_manifest).
      apply lookup_insert_eq. }
    split; [reflexivity|].
    split; [apply lookup_insert_eq|].
    split; [intros id' Hne; now apply lookup_insert_ne|].
    split.
    { rewrite map_size_insert. now destruct (manifest s !! upload_id env). }
    split.
    { eexists _, _. split; [apply lookup_insert_eq|].
      split; [apply parse_manifest | apply manifest_of_json_of_manifest]. }
    split.
    { unfold boot.
      rewrite (loadManifest_written cfg _ _ _ (lookup_insert_eq _ _ _) (parse_manifest _)).
      now rewrite manifest_of_json_of_manifest. }
    intros p Hp Hm. now rewrite !lookup_insert_ne.
  - intros [Hw | Hs].
    + now rewrite Hw.
    + rewrite Hs. now destruct (writeFile_ok env).
Qed.

Lemma upload_stores_and_records_witness :
  fst (upload demo_config (demo_env true true) (Some demo_file) (mkServer ∅ ∅))
  = Normal (res_json 200 (JObj [("id", JStr "Tb5yYnO8hJ");
                                ("viewUrl", JStr "http://192.168.1.7:3000/view/Tb5yYnO8hJ")])).
Proof.
  exact (proj1 (proj1 (upload_stores_and_records demo_config (demo_env true true) demo_file
                         (mkServer ∅ ∅)) eq_refl eq_refl)).
Defined.

(** C1 as stated fails: a request that carries a file whose write fails,
    here before the file is opened, is answered 500, and neither a manifest
    entry nor a file results. *)
Lemma upload_write_failure :
  fst (upload demo_config (demo_env false true) (Some demo_file) (mkServer ∅ ∅))
  = Normal (res_json 500 (JObj [("error", JStr "Upload failed")]))
  ∧ manifest (snd (upload demo_config (demo_env false true) (Some demo_file) (mkServer ∅ ∅)))
      !! upload_id (demo_env false true) = None
  ∧ disk (snd (upload demo_config (demo_env false true) (Some demo_file) (mkServer ∅ ∅)))
    = ∅.
Proof. rewrite upload_with_file. repeat split. Qed.

(** When only the manifest write fails, the file and the in-memory entry
    stay: there is no rollback.  The manifest file holds what the failed
    write left of it. *)
Lemma upload_save_failure cfg env f s :
  writeFile_ok env = true → writeFileSync_ok env = false →
  upload cfg env (Some f) s
  = (Normal failed_response,
     mkServer (<[upload_id env := stored_record env f]> (manifest s))
              (left_by_failure (writeFileSync_left env) (MANIFEST_PATH cfg)
                 (JSON.stringify
                    (json_of_manifest (<[upload_id env := stored_record env f]> (manifest s))))
                 (<[upload_path cfg env f := buffer f]> (disk s)))).
Proof. intros Hw Hs. now rewrite upload_with_file, Hw, Hs. Qed.

(** C3. An upload request with no file is answered 400 with the error
    [No photo uploaded], and the state is the one before: no manifest entry
    is added, the manifest file is not rewritten, no file is written. *)
Theorem upload_without_file cfg toBuffer env s :
  upload cfg env None s
  = (Normal (res_json 400 (JObj [("error", JStr "No photo uploaded")])), s)
  ∧ handle cfg toBuffer (ReqUpload env None) s
    = (res_json 400 (JObj [("error", JStr "No photo uploaded")]), s).
Proof. split; reflexivity. Qed.

(** C10. Every id the upload handler generates is exactly 10 characters
    long, and every stored file name, in the manifest record and on disk,
    is that id followed by the chosen extension. *)
Theorem upload_names_file_by_id cfg env f s :
  String.length (upload_id env) = 10%nat
  ∧ upload_filename env f = upload_id env +:+ to_string (choose_ext f)
  ∧ (writeFile_ok env = true →
     let s' := snd (upload cfg env (Some f) s) in
     manifest s' !! upload_id env
     = Some (mkRecord (upload_id env +:+ to_string (choose_ext f)) (now env))
     ∧ disk s' !! path_join (UPLOADS_DIR cfg) (upload_id env +:+ to_string (choose_ext f))
       = Some (buffer f)).
Proof.
  split; [apply upload_id_length|]. split; [reflexivity|].
  intros Hw s'. subst s'. rewrite upload_with_file, Hw.
  destruct (writeFileSync_ok env); cbn [snd manifest disk].
  - split; [apply lookup_insert_eq|].
    rewrite lookup_insert_ne by (apply not_eq_sym, upload_path_not_manifest).
    apply lookup_insert_eq.
  - split; [apply lookup_insert_eq|].
    rewrite left_by_failure_other by apply upload_path_not_manifest.
    apply lookup_insert_eq.
Qed.

Lemma upload_names_file_by_id_witness :
  manifest (snd (upload demo_config (demo_env true false) (Some demo_file) (mkServer ∅ ∅)))
    !! "Tb5yYnO8hJ" = Some (mkRecord "Tb5yYnO8hJ.jpg" 1700000000000)
  ∧ disk (snd (upload demo_config (demo_env true false) (Some demo_file) (mkServer ∅ ∅)))
      !! "/srv/qr-selfie/uploads/Tb5yYnO8hJ.jpg" = Some "JFIF".
Proof.
  exact (proj2 (proj2 (upload_names_file_by_id demo_config (demo_env true false) demo_file
                         (mkServer ∅ ∅))) eq_refl).
Defined.

(** ** GET /api/meta/:id *)

Lemma meta_own cfg (m : Manifest) id r :
  m !! id = Some r →
  meta cfg m id
  = res_json 200 (JObj [("id", JStr id);
                        ("imageUrl", JStr ("/uploads/" +:+ filename r));
                        ("viewUrl", JStr (view_url cfg id))]).
Proof. intros H. unfold meta, obj_get. now rewrite H. Qed.

Lemma meta_undefined cfg (m : Manifest) id :
  m !! id = None → inherited id = false →
  meta cfg m id = res_json 404 (JObj [("error", JStr "Not found")]).
Proof. intros H Hi. unfold meta, obj_get. now rewrite H, Hi. Qed.

Lemma meta_inherited cfg (m : Manifest) id :
  m !! id = None → inherited id = true →
  meta cfg m id
  = res_json 200 (JObj [("id", JStr id);
                        ("imageUrl", JStr "/uploads/undefined");
                        ("viewUrl", JStr (view_url cfg id))]).
Proof. intros H Hi. unfold meta, obj_get. now rewrite H, Hi. Qed.

(** The image URL the metadata route gives for a fresh upload names the
    file the upload wrote, under the static mount [/uploads]. *)
Lemma upload_then_meta cfg env f s :
  writeFile_ok env = true →
  let s' := snd (upload cfg env (Some f) s) in
  meta cfg (manifest s') (upload_id env)
  = res_json 200 (JObj [("id", JStr (upload_id env));
                        ("imageUrl", JStr ("/uploads/" +:+ upload_filename env f));
                        ("viewUrl", JStr (view_url cfg (upload_id env)))])
  ∧ disk s' !! path_join (UPLOADS_DIR cfg) (upload_filename env f) = Some (buffer f).
Proof.
  intros Hw s'. subst s'. rewrite upload_with_file, Hw.
  destruct (writeFileSync_ok env); cbn [snd manifest disk].
  - split; [apply (meta_own _ _ _ (stored_record env f)), lookup_insert_eq|].
    rewrite lookup_insert_ne by (apply not_eq_sym, upload_path_not_manifest).
    apply lookup_insert_eq.
  - split; [apply (meta_own _ _ _ (stored_record env f)), lookup_insert_eq|].
    rewrite left_by_failure_other by apply upload_path_not_manifest.
    apply lookup_insert_eq.
Qed.

(** The 404 of the metadata route, exactly: the id is no key of the
    manifest and no member that a plain object inherits. *)
Lemma meta_404_iff cfg (m : Manifest) id :
  status (meta cfg m id) = 404 ↔ m !! id = None ∧ inherited id = false.
Proof.
  destruct (m !! id) as [r|] eqn:E.
  - rewrite (meta_own cfg m id r E). cbn. split; [discriminate | now intros [? _]].
  - destruct (inherited id) eqn:Hi.
    + rewrite (meta_inherited cfg m id E Hi). cbn. split; [discriminate | now intros [_ ?]].
    + rewrite (meta_undefined cfg m id E Hi). cbn. now split.
Qed.

(** C2, the code at the failing input.  With an empty manifest the id
    [constructor] is unknown, yet [manifest[id]] reads the member every
    plain object inherits, which is truthy: the route answers 200 with the
    image URL [/uploads/undefined] where the claim requires 404. *)
Theorem meta_unknown_id_answers_200 cfg :
  (∅ : Manifest) !! "constructor" = None
  ∧ meta cfg ∅ "constructor"
    = res_json 200 (JObj [("id", JStr "constructor");
                          ("imageUrl", JStr "/uploads/undefined");
                          ("viewUrl", JStr (view_url cfg "constructor"))]).
Proof. split; [apply lookup_empty | now apply meta_inherited]. Qed.

(** ** GET /api/qr *)

(** C8, as amended.  GET /api/qr answers 400 when the text parameter is
    missing or empty; for any other text it hands the text to the encoder
    with width 256 and margin 1 and answers 200 with the PNG bytes the
    encoder returns, or 500 when the encoder fails. *)
Theorem qr_responses (toBuffer : Encoder) (query_text : option QueryValue) :
  qr toBuffer query_text =
  match query_text with
  | None => res_send 400 "Missing text"
  | Some text =>
    if query_truthy text then
      match toBuffer text 256 1 with
      | Normal buf => png_response buf
      | Throw _ => res_send 500 "QR generation failed"
      end
    else res_send 400 "Missing text"
  end.
Proof.
  unfold qr. destruct query_text as [text|]; [|reflexivity].
  destruct (query_truthy text) eqn:E; [now rewrite E | reflexivity].
Qed.

(** C8 as stated fails: the text parameter is present, the encoder would
    return PNG bytes for it, and the answer is 400, neither the PNG nor
    500. *)
Lemma qr_present_but_empty :
  demo_encoder (QStr "") 256 1 = Normal "PNG"
  ∧ qr demo_encoder (Some (QStr "")) = res_send 400 "Missing text"
  ∧ qr demo_encoder (Some (QStr "")) ≠ png_response "PNG"
  ∧ status (qr demo_encoder (Some (QStr ""))) ≠ 500.
Proof. repeat split; discriminate. Qed.

(** C9. A text parameter that is present and equal to the empty string is
    answered 400 like a missing one, whatever the encoder is: the empty
    string never reaches it. *)
Theorem qr_empty_text (toBuffer : Encoder) :
  qr toBuffer (Some (QStr "")) = res_send 400 "Missing text"
  ∧ qr toBuffer (Some (QStr "")) = qr toBuffer None.
Proof. split; reflexivity. Qed.

(** ** GET /view/:id *)

Lemma view_404_iff (m : Manifest) protocol host id :
  status (view m protocol host id) = 404 ↔ m !! id = None ∧ inherited id = false.
Proof.
  unfold view, obj_get. destruct (m !! id) as [r|]; cbn.
  - split; [discriminate | now intros [? _]].
  - destruct (inherited id); cbn; split; try discriminate; try now intros [_ ?].
    now split.
Qed.

(** ** Entries are never changed *)

Lemma upload_manifest cfg env file s :
  manifest (snd (upload cfg env file s)) = manifest s
  ∨ ∃ f, file = Some f
         ∧ manifest (snd (upload cfg env file s))
           = <[upload_id env := stored_record env f]> (manifest s).
Proof.
  destruct file as [f|]; [|now left].
  rewrite upload_with_file.
  destruct (writeFile_ok env); [|now left].
  right. exists f. split; [reflexivity|]. now destruct (writeFileSync_ok env).
Qed.

(** Only an upload changes the manifest, and only by one assignment. *)
Lemma handle_manifest cfg toBuffer req s :
  manifest (snd (handle cfg toBuffer req s)) = manifest s
  ∨ ∃ env f, req = ReqUpload env (Some f)
             ∧ manifest (snd (handle cfg toBuffer req s))
               = <[upload_id env := stored_record env f]> (manifest s).
Proof.
  destruct req as [env file | id | protocol host id | q]; try now left.
  cbn [handle].
  destruct (upload_manifest cfg env file s) as [H | (f & -> & H)].
  - left. now destruct (upload cfg env file s) as [[res|e] s'].
  - right. exists env, f. split; [reflexivity|].
    now destruct (upload cfg env (Some f) s) as [[res|e] s'].
Qed.

Lemma handle_keeps_entry cfg toBuffer req s id r :
  fresh_id req s →
  manifest s !! id = Some r →
  manifest (snd (handle cfg toBuffer req s)) !! id = Some r.
Proof.
  intros Hfresh Hid.
  destruct (handle_manifest cfg toBuffer req s) as [-> | (env & f & -> & ->)];
    [exact Hid|].
  cbn [fresh_id] in Hfresh. rewrite lookup_insert_ne; [exact Hid|].
  intros <-. congruence.
Qed.

(** C4. For every server state and every operation (upload, metadata
    lookup, view, QR), each binding of an id to a record is the same after
    the operation as before, provided the id an upload generates is not
    already a key: the generator does not check, so the invariant rests on
    ids not colliding. *)
Theorem entries_never_change cfg toBuffer req s id r :
  fresh_id req s →
  manifest s !! id = Some r →
  manifest (snd (handle cfg toBuffer req s)) !! id = Some r.
Proof. apply handle_keeps_entry. Qed.

Lemma entries_never_change_witness :
  manifest (snd (handle demo_config demo_encoder
                   (ReqUpload (demo_env true true) (Some demo_file)) demo_server))
    !! "V1StGXR8_Z" = Some (mkRecord "V1StGXR8_Z.png" 1690000000000).
Proof.
  apply (entries_never_change demo_config demo_encoder
           (ReqUpload (demo_env true true) (Some demo_file)) demo_server).
  - vm_compute. reflexivity.
  - vm_compute. reflexivity.
Defined.

(** The same along any sequence of requests. *)
Lemma run_keeps_entry cfg toBuffer reqs : ∀ s id r,
  all_fresh cfg toBuffer reqs s →
  manifest s !! id = Some r →
  manifest (run cfg toBuffer reqs s) !! id = Some r.
Proof.
  induction reqs as [|req rest IH]; intros s id r Hfresh Hid; [exact Hid|].
  destruct Hfresh as [Hreq Hrest]. cbn [run].
  apply IH; [exact Hrest | now apply handle_keeps_entry].
Qed.

(** Without freshness the binding is replaced: the generated id is not
    checked against the keys of the manifest. *)
Lemma upload_collision_replaces cfg env f s r :
  manifest s !! upload_id env = Some r →
  writeFile_ok env = true →
  manifest (snd (upload cfg env (Some f) s)) !! upload_id env = Some (stored_record env f).
Proof.
  intros _ Hw. rewrite upload_with_file, Hw.
  destruct (writeFileSync_ok env); apply lookup_insert_eq.
Qed.

(** ** The manifest store *)

(** C7. [loadManifest] never raises; when the manifest file is absent or
    its text does not parse it returns the empty mapping, the same in both
    cases, and the server starts with no record. *)
Theorem loadManifest_empty_on_failure cfg fs :
  (∃ v, loadManifest cfg fs = Normal v)
  ∧ ((fs !! MANIFEST_PATH cfg = None
      ∨ ∃ raw, fs !! MANIFEST_PATH cfg = Some raw ∧ JSON.parse raw = None) →
     loadManifest cfg fs = Normal (JObj [])
     ∧ boot cfg fs = Some (mkServer ∅ fs)).
Proof.
  split; [apply loadManifest_total|].
  intros H.
  assert (Hl : loadManifest cfg fs = Normal (JObj [])).
  { unfold loadManifest, readFileSync, JSON_parse.
    destruct H as [-> | (raw & -> & ->)]; reflexivity. }
  split; [exact Hl|]. unfold boot. now rewrite Hl.
Qed.

(** A missing file and a truncated one. *)
Lemma loadManifest_empty_on_failure_witness :
  loadManifest demo_config ∅ = Normal (JObj [])
  ∧ loadManifest demo_config {[ "/srv/qr-selfie/data/manifest.json" := "{ truncated" ]}
    = Normal (JObj []).
Proof.
  split.
  - apply (proj2 (loadManifest_empty_on_failure demo_config ∅)).
    left. reflexivity.
  - apply (proj2 (loadManifest_empty_on_failure demo_config
                    {[ "/srv/qr-selfie/data/manifest.json" := "{ truncated" ]})).
    right. exists "{ truncated". split; reflexivity.
Defined.

(** C6. Saving then loading is the identity: after [saveManifest(m)] has
    returned, [loadManifest] reads back the value that stands for [m], a
    restarted server holds exactly [m], and every id of [m] is resolved by
    the metadata route. *)
Theorem save_then_load cfg toBuffer ok left (m : Manifest) s s' :
  saveManifest cfg ok left m s = (Normal tt, s') →
  loadManifest cfg (disk s') = Normal (json_of_manifest m)
  ∧ manifest_of_json (json_of_manifest m) = Some m
  ∧ boot cfg (disk s') = Some (mkServer m (disk s'))
  ∧ ∀ id r, m !! id = Some r →
      fst (handle cfg toBuffer (ReqMeta id) (mkServer m (disk s')))
      = res_json 200 (JObj [("id", JStr id);
                            ("imageUrl", JStr ("/uploads/" +:+ filename r));
                            ("viewUrl", JStr (view_url cfg id))]).
Proof.
  unfold saveManifest, writeFileSync. destruct ok; [|discriminate].
  intros [= <-]. cbn [disk].
  assert (Hl : loadManifest cfg
                 (<[MANIFEST_PATH cfg := JSON.stringify (json_of_manifest m)]> (disk s))
               = Normal (json_of_manifest m)).
  { apply loadManifest_written with (text := JSON.stringify (json_of_manifest m)).
    - apply lookup_insert_eq.
    - apply parse_manifest. }
  split; [exact Hl|]. split; [apply manifest_of_json_of_manifest|].
  split.
  - unfold boot. now rewrite Hl, manifest_of_json_of_manifest.
  - intros id r Hid. cbn [handle fst manifest]. now apply meta_own.
Qed.

Lemma save_then_load_witness :
  loadManifest demo_config
    (disk (snd (saveManifest demo_config true None (manifest demo_server) demo_server)))
  = Normal (json_of_manifest (manifest demo_server)).
Proof.
  exact (proj1 (save_then_load demo_config demo_encoder true None (manifest demo_server)
                  demo_server _ eq_refl)).
Defined.

(** After a successful upload a restart finds the manifest as the handler
    left it. *)
Lemma upload_then_restart cfg env f s :
  writeFile_ok env = true → writeFileSync_ok env = true →
  boot cfg (disk (snd (upload cfg env (Some f) s)))
  = Some (snd (upload cfg env (Some f) s)).
Proof.
  intros Hw Hs. rewrite upload_with_file, Hw, Hs. cbn [snd disk].
  unfold boot.
  rewrite (loadManifest_written cfg _ _ _ (lookup_insert_eq _ _ _) (parse_manifest _)).
  now rewrite manifest_of_json_of_manifest.
Qed.

(** * Further properties of the server *)

(** ** The address of the server *)

Lemma first_external_find ifaces :
  first_external ifaces = address <$> List.find external_ipv4 ifaces.
Proof.
  induction ifaces as [|i rest IH]; [reflexivity|].
  cbn [first_external List.find]. unfold external_ipv4 at 1.
  now destruct (String.eqb (family i) "IPv4" && negb (internal i)).
Qed.

Lemma find_app_first {A} (f : A → bool) l1 l2 :
  List.find f (l1 ++ l2)
  = match List.find f l1 with Some x => Some x | None => List.find f l2 end.
Proof.
  induction l1 as [|x l1 IH]; [reflexivity|].
  cbn [app List.find]. now destruct (f x).
Qed.

Lemma scan_interfaces_find named :
  scan_interfaces named
  = from_option address "localhost" (List.find external_ipv4 (concat (map snd named))).
Proof.
  induction named as [|[name ifaces] rest IH]; [reflexivity|].
  cbn [scan_interfaces map snd concat]. rewrite find_app_first, first_external_find.
  destruct (List.find external_ipv4 ifaces); [reflexivity | exact IH].
Qed.

(** X1. getLocalIP returns the address of the first interface, in the
    order of the two loops, that is IPv4 and not internal; when no
    interface is, it returns localhost. *)
Theorem getLocalIP_first_external cfg :
  match List.find external_ipv4 (all_interfaces cfg) with
  | Some iface =>
    getLocalIP cfg = address iface
    ∧ In iface (all_interfaces cfg)
    ∧ family iface = "IPv4" ∧ internal iface = false
  | None =>
    getLocalIP cfg = "localhost"
    ∧ Forall (fun iface => family iface ≠ "IPv4" ∨ internal iface = true) (all_interfaces cfg)
  end.
Proof.
  unfold getLocalIP, all_interfaces. rewrite scan_interfaces_find.
  destruct (List.find external_ipv4 _) as [iface|] eqn:E.
  - apply find_some in E as [Hin Hext]. unfold external_ipv4 in Hext.
    apply andb_true_iff in Hext as [Hf Hi].
    apply String.eqb_eq in Hf. apply negb_true_iff in Hi. now repeat split.
  - split; [reflexivity|]. apply Forall_forall. intros iface Hin.
    apply list_elem_of_In in Hin.
    pose proof (find_none _ _ E iface Hin) as Hext. unfold external_ipv4 in Hext.
    apply andb_false_iff in Hext as [Hf | Hi].
    + left. now apply String.eqb_neq.
    + right. now apply negb_false_iff.
Qed.

(** ** A failed manifest write *)

Lemma boot_other_file cfg fs p data :
  p ≠ MANIFEST_PATH cfg →
  boot cfg (<[p := data]> fs)
  = (fun s => mkServer (manifest s) (<[p := data]> fs)) <$> boot cfg fs.
Proof.
  intros Hp. unfold boot, loadManifest, readFileSync.
  rewrite lookup_insert_ne by exact Hp.
  destruct (fs !! MANIFEST_PATH cfg) as [raw|]; cbn.
  - destruct (JSON_parse raw) as [v|e]; cbn; [|reflexivity].
    now destruct (manifest_of_json v).
  - reflexivity.
Qed.

Lemma substring_whole n s : (String.length s ≤ n)%nat → String.substring 0 n s = s.
Proof.
  revert n. induction s as [|c s IH]; intros [|n] H; try reflexivity; simpl in *; [lia|].
  rewrite IH; [reflexivity | lia].
Qed.

Lemma boot_unparsable cfg fs raw :
  fs !! MANIFEST_PATH cfg = Some raw → JSON.parse raw = None →
  boot cfg fs = Some (mkServer ∅ fs).
Proof.
  intros Hraw Hparse. unfold boot, loadManifest, readFileSync, JSON_parse.
  now rewrite Hraw, Hparse.
Qed.

(** X2. When the file write succeeds and the manifest write fails, the
    upload is answered 500, yet the file stays in the uploads directory
    and the record stays in the manifest in memory.  What a restart finds
    depends on how far the failed write got.  If it failed before the file
    was opened, the manifest file is as before and the restart finds the
    old manifest, so the new file has no record.  Otherwise the file holds
    the first bytes of a text of the new manifest: when these do not
    parse, as when none was written, the restart starts with the empty
    manifest and the earlier records are lost as well; when all were
    written it finds the new manifest. *)
Theorem upload_save_failure_orphans cfg env f s :
  writeFile_ok env = true →
  writeFileSync_ok env = false →
  persisted cfg s →
  let s' := snd (upload cfg env (Some f) s) in
  fst (upload cfg env (Some f) s) = Normal failed_response
  ∧ disk s' !! upload_path cfg env f = Some (buffer f)
  ∧ manifest s' = <[upload_id env := stored_record env f]> (manifest s)
  ∧ match writeFileSync_left env with
    | None =>
      disk s' !! MANIFEST_PATH cfg = disk s !! MANIFEST_PATH cfg
      ∧ boot cfg (disk s') = Some (mkServer (manifest s) (disk s'))
    | Some n =>
      (n = 0%nat →
       disk s' !! MANIFEST_PATH cfg = Some ""
       ∧ boot cfg (disk s') = Some (mkServer ∅ (disk s')))
      ∧ ∃ text v,
          JSON.parse text = Some v
          ∧ manifest_of_json v = Some (manifest s')
          ∧ disk s' !! MANIFEST_PATH cfg = Some (String.substring 0 n text)
          ∧ (JSON.parse (String.substring 0 n text) = None →
             boot cfg (disk s') = Some (mkServer ∅ (disk s')))
          ∧ ((String.length text ≤ n)%nat → boot cfg (disk s') = Some s')
    end.
Proof.
  intros Hw Hs Hp. cbv zeta. rewrite upload_with_file, Hw, Hs.
  cbn [fst snd manifest disk].
  split; [reflexivity|].
  split.
  { rewrite left_by_failure_other by apply upload_path_not_manifest.
    apply lookup_insert_eq. }
  split; [reflexivity|].
  destruct (writeFileSync_left env) as [n|]; cbn [left_by_failure].
  - set (m' := <[upload_id env := stored_record env f]> (manifest s)).
    set (text := JSON.stringify (json_of_manifest m')).
    set (d' := <[upload_path cfg env f := buffer f]> (disk s)).
    assert (Hbad : JSON.parse (String.substring 0 n text) = None →
                   boot cfg (<[MANIFEST_PATH cfg := String.substring 0 n text]> d')
                   = Some (mkServer ∅ (<[MANIFEST_PATH cfg := String.substring 0 n text]> d'))).
    { intros Hparse. eapply boot_unparsable; [apply lookup_insert_eq | exact Hparse]. }
    split.
    + intros ->. assert (E : String.substring 0 0 text = "") by now destruct text.
      rewrite E in *. split; [apply lookup_insert_eq | now apply Hbad].
    + exists text, (json_of_manifest m').
      split; [apply parse_manifest|]. split; [apply manifest_of_json_of_manifest|].
      split; [apply lookup_insert_eq|]. split; [exact Hbad|].
      intros Hn. rewrite (substring_whole n _ Hn). subst text. unfold boot.
      rewrite (loadManifest_written cfg _ _ _ (lookup_insert_eq _ _ _) (parse_manifest _)).
      now rewrite manifest_of_json_of_manifest.
  - split; [apply lookup_insert_ne, upload_path_not_manifest|].
    rewrite boot_other_file by apply upload_path_not_manifest.
    unfold persisted in Hp. now rewrite Hp.
Qed.

(** A second upload whose manifest write fails on a full disk, after the
    file was truncated: the restart finds no record, not even that of the
    first upload. *)
Lemma upload_save_failure_orphans_witness :
  manifest demo_stored !! "Tb5yYnO8hJ" = Some (mkRecord "Tb5yYnO8hJ.jpg" 1700000000000)
  ∧ boot demo_config (disk (snd (upload demo_config demo_env_torn (Some demo_file) demo_stored)))
    = Some (mkServer ∅
              (disk (snd (upload demo_config demo_env_torn (Some demo_file) demo_stored)))).
Proof.
  split; [reflexivity|].
  pose proof (upload_save_failure_orphans demo_config demo_env_torn demo_file demo_stored
                eq_refl eq_refl ltac:(vm_compute; reflexivity)) as H.
  cbv zeta in H. destruct H as (_ & _ & _ & H).
  change (writeFileSync_left demo_env_torn) with (Some 0%nat) in H. cbv iota beta in H.
  destruct H as (Hzero & _). exact (proj2 (Hzero eq_refl)).
Defined.

(** ** The manifest file follows the manifest *)

Lemma upload_success_persisted cfg env f s :
  writeFile_ok env = true → writeFileSync_ok env = true →
  persisted cfg (snd (upload cfg env (Some f) s)).
Proof. intros Hw Hs. unfold persisted. now apply upload_then_restart. Qed.

Lemma handle_persisted cfg toBuffer req s :
  save_succeeds req = true →
  persisted cfg s →
  persisted cfg (snd (handle cfg toBuffer req s)).
Proof.
  intros Hreq Hp.
  destruct req as [env [f|] | id | protocol host id | q]; try exact Hp.
  cbn [handle]. cbn [save_succeeds] in Hreq.
  destruct (writeFile_ok env) eqn:Hw.
  - cbn in Hreq. pose proof (upload_success_persisted cfg env f s Hw Hreq) as H.
    now destruct (upload cfg env (Some f) s) as [[res|e] s'].
  - rewrite upload_with_file, Hw. cbn [snd]. unfold persisted in *. cbn [disk].
    destruct (writeFile_left env) as [n|]; cbn [left_by_failure].
    + rewrite boot_other_file by apply upload_path_not_manifest. now rewrite Hp.
    + rewrite Hp. now destruct s.
Qed.

(** X3. As long as no manifest write fails after a successful file
    write, the manifest file holds the manifest in memory after every
    request: a restart at any point finds the state the server is in. *)
Theorem run_persisted cfg toBuffer reqs : ∀ s,
  all_saves_succeed reqs = true →
  persisted cfg s →
  persisted cfg (run cfg toBuffer reqs s).
Proof.
  induction reqs as [|req rest IH]; intros s Hall Hp; [exact Hp|].
  cbn [all_saves_succeed] in Hall. apply andb_true_iff in Hall as [Hreq Hrest].
  cbn [run]. apply IH; [exact Hrest | now apply handle_persisted].
Qed.

Lemma run_persisted_witness :
  boot demo_config (disk (run demo_config demo_encoder demo_requests (mkServer ∅ ∅)))
  = Some (run demo_config demo_encoder demo_requests (mkServer ∅ ∅)).
Proof.
  exact (run_persisted demo_config demo_encoder demo_requests (mkServer ∅ ∅)
           eq_refl eq_refl).
Defined.

(** ** Invariants of the manifest *)

(** What a request does to the state: it leaves the manifest alone and
    writes at most one file, or it is an upload whose file write succeeded
    and makes the writes of that upload. *)
Lemma handle_effect cfg toBuffer req s :
  (manifest (snd (handle cfg toBuffer req s)) = manifest s
   ∧ (disk (snd (handle cfg toBuffer req s)) = disk s
      ∨ ∃ p text, disk (snd (handle cfg toBuffer req s)) = <[p := text]> (disk s)))
  ∨ ∃ env f,
      req = ReqUpload env (Some f)
      ∧ manifest (snd (handle cfg toBuffer req s))
        = <[upload_id env := stored_record env f]> (manifest s)
      ∧ ∃ more : FS → FS,
          disk (snd (handle cfg toBuffer req s))
          = more (<[upload_path cfg env f := buffer f]> (disk s))
          ∧ (more = id ∨ ∃ text, more = insert (MANIFEST_PATH cfg) text).
Proof.
  destruct req as [env [f|] | id | protocol host id | q];
    try (left; split; [reflexivity | now left]).
  cbn [handle]. rewrite upload_with_file.
  destruct (writeFile_ok env).
  - right. exists env, f. split; [reflexivity|].
    destruct (writeFileSync_ok env); cbn [snd manifest disk].
    + split; [reflexivity|]. eexists. split; [reflexivity|]. right. now eexists.
    + split; [reflexivity|].
      destruct (writeFileSync_left env) as [n|]; cbn [left_by_failure].
      * eexists. split; [reflexivity|]. right. now eexists.
      * exists id. split; [reflexivity | now left].
  - left. cbn [snd manifest disk]. split; [reflexivity|].
    destruct (writeFile_left env) as [n|]; cbn [left_by_failure];
      [right; now eexists _, _ | now left].
Qed.

Lemma handle_disk_grows cfg toBuffer req s p :
  is_Some (disk s !! p) → is_Some (disk (snd (handle cfg toBuffer req s)) !! p).
Proof.
  intros Hp.
  destruct (handle_effect cfg toBuffer req s)
    as [[_ [-> | (q & text & ->)]] | (env & f & _ & _ & more & -> & [-> | [text ->]])].
  - exact Hp.
  - apply lookup_insert_is_Some'. now right.
  - apply lookup_insert_is_Some'. now right.
  - apply lookup_insert_is_Some'. right. apply lookup_insert_is_Some'. now right.
Qed.

Lemma handle_files_present cfg toBuffer req s :
  files_present cfg s → files_present cfg (snd (handle cfg toBuffer req s)).
Proof.
  intros Hs id r Hid.
  destruct (handle_effect cfg toBuffer req s)
    as [[Hm _] | (env & f & -> & Hm & more & Hd & Hmore)].
  - rewrite Hm in Hid. now apply handle_disk_grows, (Hs id).
  - rewrite Hm in Hid. destruct (decide (upload_id env = id)) as [<- | Hne].
    + rewrite lookup_insert_eq in Hid. injection Hid as <-. rewrite Hd.
      change (path_join (UPLOADS_DIR cfg) (filename (stored_record env f)))
        with (upload_path cfg env f).
      destruct Hmore as [-> | [text ->]].
      * apply lookup_insert_is_Some'. now left.
      * apply lookup_insert_is_Some'. right. apply lookup_insert_is_Some'. now left.
    + rewrite lookup_insert_ne in Hid by exact Hne.
      now apply handle_disk_grows, (Hs id).
Qed.

(** X4. Every record has its file: if each record of the manifest names
    a file present in the uploads directory, this still holds after any
    sequence of requests, whichever writes fail. *)
Theorem run_files_present cfg toBuffer reqs : ∀ s,
  files_present cfg s → files_present cfg (run cfg toBuffer reqs s).
Proof.
  induction reqs as [|req rest IH]; intros s Hs; [exact Hs|].
  cbn [run]. now apply IH, handle_files_present.
Qed.

Lemma files_present_empty cfg fs : files_present cfg (mkServer ∅ fs).
Proof. intros id r H. cbn in H. now rewrite lookup_empty in H. Qed.

Lemma run_files_present_witness :
  is_Some (disk (run demo_config demo_encoder demo_requests (mkServer ∅ ∅))
             !! "/srv/qr-selfie/uploads/Tb5yYnO8hJ.jpg").
Proof.
  exact (run_files_present demo_config demo_encoder demo_requests (mkServer ∅ ∅)
           (files_present_empty demo_config ∅)
           "Tb5yYnO8hJ" (mkRecord "Tb5yYnO8hJ.jpg" 1700000000000) eq_refl).
Defined.

(** ** Records are named by their id *)

Lemma js_or_truthy a b : truthy b = true → truthy (js_or a b) = true.
Proof. intros Hb. unfold js_or. now destruct (truthy a) eqn:Ha. Qed.

Lemma truthy_to_string v : truthy v = true → String.eqb (to_string v) "" = false.
Proof.
  destruct v as [ | s | r | key]; cbn [truthy to_string]; intros H.
  - discriminate H.
  - now apply negb_true_iff in H.
  - reflexivity.
  - unfold builtin_to_string.
    destruct (String.eqb key "__proto__"); [reflexivity|].
    now destruct (String.eqb key "constructor").
Qed.

Lemma choose_ext_truthy f : truthy (choose_ext f) = true.
Proof. now apply js_or_truthy. Qed.

Lemma choose_ext_text_nonempty f : String.eqb (to_string (choose_ext f)) "" = false.
Proof. apply truthy_to_string, choose_ext_truthy. Qed.

Lemma handle_named_by_id cfg toBuffer req s :
  named_by_id s → named_by_id (snd (handle cfg toBuffer req s)).
Proof.
  intros Hs id r Hid.
  destruct (handle_effect cfg toBuffer req s) as [[Hm _] | (env & f & -> & Hm & _)].
  - rewrite Hm in Hid. now apply (Hs id).
  - rewrite Hm in Hid. destruct (decide (upload_id env = id)) as [<- | Hne].
    + rewrite lookup_insert_eq in Hid. injection Hid as <-.
      split; [apply upload_id_length|].
      exists (to_string (choose_ext f)). split; [reflexivity|].
      apply choose_ext_text_nonempty.
    + rewrite lookup_insert_ne in Hid by exact Hne. now apply (Hs id).
Qed.

(** X5. Every key of the manifest is a ten-character id and its record
    names the file id followed by a non-empty extension; requests keep
    this. *)
Theorem run_named_by_id cfg toBuffer reqs : ∀ s,
  named_by_id s → named_by_id (run cfg toBuffer reqs s).
Proof.
  induction reqs as [|req rest IH]; intros s Hs; [exact Hs|].
  cbn [run]. now apply IH, handle_named_by_id.
Qed.

Lemma named_by_id_empty fs : named_by_id (mkServer ∅ fs).
Proof. intros id r H. cbn in H. now rewrite lookup_empty in H. Qed.

Lemma run_named_by_id_witness :
  String.length "em10pKMULZ" = 10%nat
  ∧ ∃ ext, "em10pKMULZ.heic" = "em10pKMULZ" +:+ ext ∧ String.eqb ext "" = false.
Proof.
  exact (run_named_by_id demo_config demo_encoder demo_requests (mkServer ∅ ∅)
           (named_by_id_empty ∅)
           "em10pKMULZ" (mkRecord "em10pKMULZ.heic" 1700000000500) eq_refl).
Defined.

(** ** Keys are never removed *)

Lemma handle_keeps_keys cfg toBuffer req s :
  dom (manifest s) ⊆ dom (manifest (snd (handle cfg toBuffer req s)))
  ∧ (size (manifest (snd (handle cfg toBuffer req s))) ≤ S (size (manifest s)))%nat.
Proof.
  destruct (handle_manifest cfg toBuffer req s) as [-> | (env & f & _ & ->)].
  - split; [reflexivity | lia].
  - split; [rewrite dom_insert_L; set_solver|].
    pose proof (map_size_insert (upload_id env) (stored_record env f) (manifest s)) as Hi.
    destruct (manifest s !! upload_id env); unfold id in Hi; lia.
Qed.

(** X6. No request removes a key of the manifest, and a sequence of n
    requests adds at most n keys. *)
Theorem run_keeps_keys cfg toBuffer reqs s :
  dom (manifest s) ⊆ dom (manifest (run cfg toBuffer reqs s))
  ∧ (size (manifest (run cfg toBuffer reqs s)) ≤ size (manifest s) + length reqs)%nat.
Proof.
  revert s. induction reqs as [|req rest IHreqs]; intros s; simpl.
  - split; [reflexivity | lia].
  - specialize (IHreqs (snd (handle cfg toBuffer req s))) as [Hd Hn].
    destruct (handle_keeps_keys cfg toBuffer req s) as [Hd1 Hn1].
    split; [etrans; [exact Hd1 | exact Hd] | lia].
Qed.

(** ** Files of different ids have different paths *)

Lemma string_app_same_length_inj (a b x y : string) :
  String.length a = String.length b → a +:+ x = b +:+ y → a = b.
Proof.
  revert b. induction a as [|c a IH]; intros [|d b] Hl H; try discriminate Hl.
  - reflexivity.
  - simpl in H, Hl. injection H as -> H. f_equal. apply IH; [lia | exact H].
Qed.

Lemma upload_path_id cfg env1 f1 env2 f2 :
  upload_path cfg env1 f1 = upload_path cfg env2 f2 → upload_id env1 = upload_id env2.
Proof.
  unfold upload_path, path_join, upload_filename. intros H.
  apply (inj (String.append (UPLOADS_DIR cfg))) in H.
  apply (inj (String.append "/")) in H.
  apply string_app_same_length_inj in H; [exact H|].
  now rewrite !upload_id_length.
Qed.

(** X7. Uploads that draw different ids write different paths, whatever
    their extensions are: an upload leaves the file of every other id as
    it was. *)
Theorem upload_spares_other_ids cfg env1 f1 env2 f2 s :
  String.eqb (upload_id env1) (upload_id env2) = false →
  upload_path cfg env1 f1 ≠ upload_path cfg env2 f2
  ∧ disk (snd (upload cfg env2 (Some f2) s)) !! upload_path cfg env1 f1
    = disk s !! upload_path cfg env1 f1.
Proof.
  intros Hne. apply String.eqb_neq in Hne.
  assert (Hp : upload_path cfg env1 f1 ≠ upload_path cfg env2 f2).
  { intros H. now apply Hne, (upload_path_id cfg env1 f1 env2 f2). }
  split; [exact Hp|].
  rewrite upload_with_file.
  destruct (writeFile_ok env2);
    [|cbn [snd disk]; now apply left_by_failure_other].
  destruct (writeFileSync_ok env2); cbn [snd disk].
  - rewrite lookup_insert_ne by (apply not_eq_sym, upload_path_not_manifest).
    now rewrite lookup_insert_ne by (apply not_eq_sym, Hp).
  - rewrite left_by_failure_other by apply upload_path_not_manifest.
    now rewrite lookup_insert_ne by (apply not_eq_sym, Hp).
Qed.

Lemma upload_spares_other_ids_witness :
  disk (snd (upload demo_config demo_env2 (Some demo_file)
               (snd (upload demo_config (demo_env true true) (Some demo_file)
                       (mkServer ∅ ∅)))))
    !! "/srv/qr-selfie/uploads/Tb5yYnO8hJ.jpg"
  = Some "JFIF".
Proof.
  exact (eq_trans
    (proj2 (upload_spares_other_ids demo_config (demo_env true true) demo_file
              demo_env2 demo_file
              (snd (upload demo_config (demo_env true true) (Some demo_file) (mkServer ∅ ∅)))
              eq_refl))
    eq_refl).
Defined.

(** ** The stored file name *)

Lemma contains_char_app c s t :
  contains_char c (s +:+ t) = contains_char c s || contains_char c t.
Proof.
  induction s as [|a s IH]; [reflexivity|]. simpl. now rewrite IH, orb_assoc.
Qed.

Lemma contains_char_get c s :
  (∀ p, String.get p s ≠ Some c) → contains_char c s = false.
Proof.
  induction s as [|a s IH]; intros H; [reflexivity|]. simpl.
  rewrite IH by (intros p; exact (H (S p))).
  destruct (Ascii.eqb_spec a c) as [-> | Hne]; [|reflexivity].
  now destruct (H 0%nat).
Qed.

Lemma substring_no_char c s n m :
  (∀ j : nat, (j < m)%nat → String.get (j + n) s ≠ Some c) →
  contains_char c (String.substring n m s) = false.
Proof.
  intros H. apply contains_char_get. intros p.
  destruct (Nat.lt_ge_cases p m) as [Hlt | Hge].
  - rewrite String.substring_correct1 by exact Hlt. now apply H.
  - now rewrite String.substring_correct2 by exact Hge.
Qed.

Lemma substring_head a s n m :
  (0 < m)%nat → String.get n s = Some a → ∃ tl, String.substring n m s = String a tl.
Proof.
  intros Hm Hg.
  pose proof (String.substring_correct1 s n m 0 Hm) as H. simpl in H. rewrite Hg in H.
  destruct (String.substring n m s) as [|b tl]; [discriminate H|].
  simpl in H. injection H as ->. now exists tl.
Qed.

Lemma scan_inv_sound path n st : scan_inv path n st → scan_sound path st.
Proof.
  intros [(_ & Hd & _) | (_ & Hn & Hs & [Hd | [Hr Hg]])]; [now left | now left |].
  right. split; [lia|]. split; [exact Hg|]. intros i Hi. apply Hs. lia.
Qed.

Lemma scan_char_inv path i c st :
  String.get i path = Some c → c ≠ Chars.slash →
  scan_inv path (S i) st → scan_inv path i (scan_char (Z.of_nat i) c st).
Proof.
  intros Hg Hc Hinv. destruct st as [sd sp e ms pd]. unfold scan_inv in *.
  cbn [startDot startPart endIdx matchedSlash preDotState] in Hinv. right.
  assert (Hi : String.get i path ≠ Some Chars.slash) by (rewrite Hg; congruence).
  unfold scan_char. cbn [startDot startPart endIdx matchedSlash preDotState].
  destruct Hinv as [(-> & -> & ->) | (-> & He & Hs & Hd)].
  - assert (Hrange : ∀ j : nat, Z.of_nat i ≤ Z.of_nat j < Z.of_nat i + 1 →
                       String.get j path ≠ Some Chars.slash).
    { intros j Hj. assert (j = i) as -> by lia. exact Hi. }
    destruct (Ascii.eqb_spec c Chars.dot) as [-> | Hdot]; simpl;
      repeat split; try lia; try exact Hrange; try (now left);
      try (right; split; [lia | now rewrite Nat2Z.id]).
  - assert (He' : (e =? -1) = false) by (apply Z.eqb_neq; lia). rewrite He'.
    assert (Hrange : ∀ j : nat, Z.of_nat i ≤ Z.of_nat j < e →
                       String.get j path ≠ Some Chars.slash).
    { intros j Hj. destruct (decide (j = i)) as [-> | Hne]; [exact Hi | apply Hs; lia]. }
    assert (Hd' : sd = -1 ∨ Z.of_nat i ≤ sd < e
                          ∧ String.get (Z.to_nat sd) path = Some Chars.dot).
    { destruct Hd as [-> | [Hr Hgd]]; [now left | right; split; [lia | exact Hgd]]. }
    cbn [startDot startPart endIdx matchedSlash preDotState].
    destruct (Ascii.eqb_spec c Chars.dot) as [-> | Hdot];
      destruct (Z.eqb_spec sd (-1)) as [-> | Hsd]; cbn [negb];
      try destruct (negb (pd =? 1));
      cbn [startDot startPart endIdx matchedSlash preDotState];
      repeat split; try lia; try exact Hrange; try exact Hd'; try (now left);
      try (right; split; [lia | now rewrite Nat2Z.id]).
Qed.

Lemma extname_scan_sound path n : ∀ st,
  scan_inv path n st → scan_sound path (extname_scan path n st).
Proof.
  induction n as [|i IH]; intros st Hinv; cbn [extname_scan].
  - now apply scan_inv_sound with (n := 0%nat).
  - destruct (String.get i path) as [c|] eqn:Hg;
      [|now apply scan_inv_sound with (n := S i)].
    destruct (Ascii.eqb_spec c Chars.slash) as [-> | Hc].
    + destruct (matchedSlash st) eqn:Hms; cbn [negb].
      * apply IH. destruct Hinv as [H | (Hf & _)]; [now left | congruence].
      * apply scan_inv_sound in Hinv. exact Hinv.
    + now apply IH, scan_char_inv.
Qed.

Lemma scan_init_inv path n : scan_inv path n scan_init.
Proof. left. now repeat split. Qed.

Lemma extname_shape path :
  extname path = ""
  ∨ ((∃ tl, extname path = String Chars.dot tl)
     ∧ contains_char Chars.slash (extname path) = false).
Proof.
  unfold extname.
  pose proof (extname_scan_sound path (String.length path) scan_init
                (scan_init_inv path _)) as Hs.
  destruct (extname_scan path (String.length path) scan_init) as [sd sp e ms pd].
  unfold scan_sound in Hs.
  cbn [startDot startPart endIdx matchedSlash preDotState] in *.
  destruct (sd =? -1) eqn:Hsd; [now left|]. apply Z.eqb_neq in Hsd. cbn [orb].
  destruct ((e =? -1) || (pd =? 0)
            || ((pd =? 1) && (sd =? e - 1) && (sd =? sp + 1))); [now left|].
  right.
  destruct Hs as [Hs | (Hr & Hg & Hns)]; [contradiction|].
  unfold slice. split.
  - apply substring_head; [lia | exact Hg].
  - apply substring_no_char. intros j Hj. apply Hns. lia.
Qed.

Lemma alphabet_char_safe b : url_safe (alphabet_char b) = true.
Proof.
  unfold alphabet_char.
  assert (H : 0 ≤ Z.land b 63 < 64).
  { change 63 with (Z.ones 6). rewrite Z.land_ones by lia. apply Z.mod_pos_bound. lia. }
  destruct (Z.land b 63) as [|p|p]; [reflexivity | | lia].
  assert (Hp : (Pos.to_nat p < 64)%nat) by lia.
  change (Z.to_nat (Z.pos p)) with (Pos.to_nat p).
  revert Hp. generalize (Pos.to_nat p). intros k Hk.
  do 64 (destruct k as [|k]; [reflexivity|]). lia.
Qed.

Lemma nanoid_from_safe pool size : ∀ i, all_chars url_safe (nanoid_from pool i size) = true.
Proof.
  induction size as [|k IH]; intros i; [reflexivity|].
  cbn [nanoid_from all_chars]. now rewrite alphabet_char_safe, IH.
Qed.

Lemma url_safe_not_slash c : url_safe c = true → Ascii.eqb c Chars.slash = false.
Proof. intros H. char_cases c H; reflexivity. Qed.

Lemma all_safe_no_slash s : all_chars url_safe s = true → contains_char Chars.slash s = false.
Proof.
  induction s as [|c s IH]; [reflexivity|]. cbn [all_chars contains_char].
  intros H. apply andb_true_iff in H as [Hc Hs].
  now rewrite (url_safe_not_slash c Hc), IH.
Qed.

Lemma upload_id_no_slash env : contains_char Chars.slash (upload_id env) = false.
Proof. apply all_safe_no_slash, nanoid_from_safe. Qed.

Lemma mimeToExt_no_slash :
  map_Forall (fun _ ext => contains_char Chars.slash ext = false) mimeToExt.
Proof.
  unfold mimeToExt. cbn [list_to_map foldr uncurry fst snd curry].
  repeat (apply map_Forall_insert_2; [reflexivity|]). apply map_Forall_empty.
Qed.

Lemma builtin_no_slash key :
  inherited key = true → contains_char Chars.slash (builtin_to_string key) = false.
Proof.
  unfold inherited. rewrite bool_decide_eq_true. unfold Object_prototype_keys. intros Hin.
  repeat (apply elem_of_cons in Hin as [-> | Hin]; [reflexivity|]).
  now apply elem_of_nil in Hin.
Qed.

Lemma extname_no_slash path : contains_char Chars.slash (extname path) = false.
Proof. destruct (extname_shape path) as [-> | [_ H]]; [reflexivity | exact H]. Qed.

Lemma choose_ext_no_slash f : contains_char Chars.slash (to_string (choose_ext f)) = false.
Proof.
  unfold choose_ext, js_or, obj_get.
  destruct (mimeToExt !! mimetype f) as [ext|] eqn:E.
  - pose proof (mimeToExt_no_slash _ _ E) as Hs. cbn in Hs.
    pose proof (mimeToExt_nonempty _ _ E) as Hn.
    cbn [truthy]. rewrite Hn. cbn [negb truthy]. rewrite Hn. exact Hs.
  - destruct (inherited (mimetype f)) eqn:Hi; cbn [truthy].
    + now apply builtin_no_slash.
    + destruct (String.eqb (extname (originalname f)) ""); cbn [negb to_string];
        [reflexivity | apply extname_no_slash].
Qed.

Lemma upload_id_head env :
  ∃ c tl, upload_id env = String c tl ∧ url_safe c = true.
Proof.
  unfold upload_id, nanoid. cbn [nanoid_from].
  eexists _, _. split; [reflexivity | apply alphabet_char_safe].
Qed.

(** X8. The name under which an upload is stored is a single path
    segment inside the uploads directory, whatever original name and
    content type the request declares: it holds no slash, it is neither
    [.] nor [..], and it starts with a letter, a digit, [_] or [-]. *)
Theorem upload_filename_single_segment env f :
  contains_char Chars.slash (upload_filename env f) = false
  ∧ upload_filename env f ≠ "." ∧ upload_filename env f ≠ ".."
  ∧ ∃ c tl, upload_filename env f = String c tl ∧ url_safe c = true.
Proof.
  split.
  - unfold upload_filename.
    now rewrite contains_char_app, upload_id_no_slash, choose_ext_no_slash.
  - assert (H : (String.length (upload_filename env f) >= 10)%nat).
    { unfold upload_filename. rewrite string_length_app, upload_id_length. lia. }
    split; [intros E; rewrite E in H; simpl in H; lia|].
    split; [intros E; rewrite E in H; simpl in H; lia|].
    destruct (upload_id_head env) as (c & tl & E & Hc).
    exists c, (tl +:+ to_string (choose_ext f)). split; [|exact Hc].
    unfold upload_filename. now rewrite E.
Qed.

(** X9. For a declared content type of the form type/subtype, the
    extension chosen for the stored file starts with a dot. *)
Theorem extension_starts_with_dot f :
  is_mime_type (mimetype f) = true →
  ∃ tl, to_string (choose_ext f) = String Chars.dot tl.
Proof.
  intros Hm. rewrite (choose_ext_plain f (mime_type_not_inherited _ Hm)).
  cbn [to_string]. unfold ext_by_fallback.
  destruct (mimeToExt !! mimetype f) as [ext|] eqn:E.
  - revert E. unfold mimeToExt. cbn [list_to_map foldr uncurry fst snd curry].
    generalize (mimetype f). intros key E.
    repeat (apply lookup_insert_Some in E as [[_ <-] | [_ E]]; [now eexists|]).
    now rewrite lookup_empty in E.
  - destruct (extname_shape (originalname f)) as [-> | [[tl Htl] _]].
    + now eexists.
    + rewrite Htl. cbn [String.eqb]. simpl. now exists tl.
Qed.

Lemma extension_starts_with_dot_witness :
  ∃ tl, to_string (choose_ext (mkFile "notes.tar.gz" "application/gzip" "")) = String Chars.dot tl.
Proof. exact (extension_starts_with_dot (mkFile "notes.tar.gz" "application/gzip" "") eq_refl). Defined.

(** * Properties of the browser client *)

Import Client.

(** ** The text of a QR request *)

Lemma decode_encode_byte c r d :
  decodeURIComponent r = Some d →
  decodeURIComponent (encode_byte c +:+ r) = Some (String c d).
Proof.
  intros H. destruct c as [[] [] [] [] [] [] [] []]; simpl; now rewrite H.
Qed.

Lemma decode_encode s : decodeURIComponent (encodeURIComponent s) = Some s.
Proof.
  induction s as [|c s IH]; [reflexivity|].
  cbn [encodeURIComponent]. now apply decode_encode_byte.
Qed.

Lemma encode_byte_chars c : all_chars query_value_char (encode_byte c) = true.
Proof. destruct c as [[] [] [] [] [] [] [] []]; reflexivity. Qed.

Lemma all_chars_app p s t : all_chars p (s +:+ t) = all_chars p s && all_chars p t.
Proof.
  induction s as [|c s IH]; [reflexivity|]. simpl. now rewrite IH, andb_assoc.
Qed.

Lemma encode_chars s : all_chars query_value_char (encodeURIComponent s) = true.
Proof.
  induction s as [|c s IH]; [reflexivity|].
  cbn [encodeURIComponent]. now rewrite all_chars_app, encode_byte_chars, IH.
Qed.

Lemma plus_to_space_id s : all_chars query_value_char s = true → plus_to_space s = s.
Proof.
  induction s as [|c s IH]; [reflexivity|]. cbn [all_chars plus_to_space].
  intros H. apply andb_true_iff in H as [Hc Hs]. rewrite (IH Hs). f_equal.
  unfold query_value_char in Hc. destruct (Ascii.eqb c "+"); [|reflexivity].
  now rewrite !orb_true_r in Hc.
Qed.

Lemma query_decode_encode s : query_decode (encodeURIComponent s) = s.
Proof.
  unfold query_decode. rewrite plus_to_space_id by apply encode_chars.
  now rewrite decode_encode.
Qed.

Lemma strip_prefix_app p s : strip_prefix p (p +:+ s) = Some s.
Proof.
  induction p as [|a p IH]; [reflexivity|]. simpl. now rewrite Ascii.eqb_refl.
Qed.

(** X10. The text given to setQR is the text the QR route reads: the
    address setQR builds carries the text percent-encoded with no
    character that ends or splits a query value, the server's decoding of
    it gives the text back, and the route answers for that text, 400 when
    it is empty and the encoder's image or 500 otherwise. *)
Theorem setQR_text_reaches_qr (toBuffer : Encoder) text :
  setQR text = "/api/qr?text=" +:+ encodeURIComponent text
  ∧ all_chars query_value_char (encodeURIComponent text) = true
  ∧ text_of_src (setQR text) = Some (QStr text)
  ∧ qr toBuffer (text_of_src (setQR text)) =
    if String.eqb text "" then res_send 400 "Missing text"
    else match toBuffer (QStr text) 256 1 with
         | Normal buf => png_response buf
         | Throw _ => res_send 500 "QR generation failed"
         end.
Proof.
  assert (E : text_of_src (setQR text) = Some (QStr text)).
  { unfold text_of_src, setQR. now rewrite strip_prefix_app, query_decode_encode. }
  split; [reflexivity|]. split; [apply encode_chars|]. split; [exact E|].
  rewrite E. unfold qr. cbn [query_truthy].
  destruct (String.eqb text "") eqn:Ht; cbn [negb]; [reflexivity|].
  cbn [query_truthy]. now rewrite Ht.
Qed.

(** ** Device indices *)

Lemma next_index_range i n : -1 ≤ i → 0 < n → 0 ≤ next_index i n < n.
Proof.
  intros H Hn. unfold next_index. rewrite Z.rem_mod_nonneg by lia.
  apply Z.mod_pos_bound. lia.
Qed.

Lemma preferredIndex_from_spec devices : ∀ i,
  0 ≤ i →
  (preferredIndex_from i devices = -1 ∧ Forall (fun d => is_front d = false) devices)
  ∨ (∃ pre d post,
       devices = pre ++ d :: post
       ∧ Forall (fun d => is_front d = false) pre
       ∧ is_front d = true
       ∧ preferredIndex_from i devices = i + Z.of_nat (length pre)).
Proof.
  induction devices as [|d rest IH]; intros i Hi.
  - left. now split.
  - cbn [preferredIndex_from]. destruct (is_front d) eqn:Hd.
    + right. exists [], d, rest. repeat split; [constructor | exact Hd | simpl; lia].
    + destruct (IH (i + 1) ltac:(lia)) as [[E Hall] | (pre & d' & post & -> & Hpre & Hd' & E)].
      * left. split; [exact E | now constructor].
      * right. exists (d :: pre), d', post.
        repeat split; [now constructor | exact Hd' | rewrite E; simpl; lia].
Qed.

Lemma js_index_app_length {A} (pre : list A) d post :
  js_index (pre ++ d :: post) (Z.of_nat (length pre)) = Some d.
Proof.
  unfold js_index. destruct (Z.ltb_spec (Z.of_nat (length pre)) 0); [lia|].
  rewrite Nat2Z.id. rewrite nth_error_app2 by lia. now rewrite Nat.sub_diag.
Qed.

(** The index [enableCamera] computes for a non-empty list: that of the
    first camera whose label contains the word front in any letter case,
    and that of the first camera when no label does. *)
Lemma initial_index_spec devices :
  devices ≠ [] →
  ∃ pre d post,
    devices = pre ++ d :: post
    ∧ initial_index devices = Z.of_nat (length pre)
    ∧ js_index devices (initial_index devices) = Some d
    ∧ Forall (fun d => is_front d = false) pre
    ∧ (is_front d = true ∨ (pre = [] ∧ Forall (fun d => is_front d = false) devices)).
Proof.
  intros Hne. unfold initial_index, preferredIndex.
  destruct (preferredIndex_from_spec devices 0 ltac:(lia))
    as [[E Hall] | (pre & d & post & -> & Hpre & Hd & E)]; rewrite E.
  - cbn. destruct devices as [|d rest]; [contradiction|].
    exists [], d, rest. repeat split; [constructor | right; now split].
  - assert (Hn : (0 + Z.of_nat (length pre) =? -1) = false) by (apply Z.eqb_neq; lia).
    rewrite Hn. cbn [negb]. exists pre, d, post.
    repeat split; [apply js_index_app_length | exact Hpre | now left].
Qed.

Lemma initial_index_range devices :
  devices ≠ [] → 0 ≤ initial_index devices < Z.of_nat (length devices).
Proof.
  intros Hne. unfold initial_index, preferredIndex.
  destruct (preferredIndex_from_spec devices 0 ltac:(lia))
    as [[E Hall] | (pre & d & post & -> & Hpre & Hd & E)]; rewrite E.
  - cbn. destruct devices; [contradiction | simpl; lia].
  - assert (Hn : (0 + Z.of_nat (length pre) =? -1) = false) by (apply Z.eqb_neq; lia).
    rewrite Hn. cbn [negb]. rewrite length_app. simpl. lia.
Qed.

Lemma initial_index_defined devices :
  devices ≠ [] → ∃ d, js_index devices (initial_index devices) = Some d.
Proof.
  intros Hne. pose proof (initial_index_range devices Hne) as H.
  unfold js_index. destruct (Z.ltb_spec (initial_index devices) 0); [lia|].
  destruct (nth_error devices (Z.to_nat (initial_index devices))) eqn:E; [now eexists|].
  apply nth_error_None in E. lia.
Qed.

(** ** getStream *)

Lemma substring_all s : String.substring 0 (String.length s) s = s.
Proof. induction s as [|c s IH]; [reflexivity|]. simpl. now rewrite IH. Qed.

Lemma requested_device id c : requested (Some ("device:" +:+ id)) c = ByDevice id.
Proof.
  unfold requested, startsWith, slice_from. simpl.
  replace (String.prefix "" id) with true by now destruct id.
  now rewrite Nat.sub_0_r, substring_all.
Qed.

(** What one call of [getStream] does, attempt by attempt. *)
Lemma getStream_cases first_ok second_ok arg c :
  let o := fst (getStream first_ok second_ok arg c) in
  let c' := snd (getStream first_ok second_ok arg c) in
  videoDevices c' = videoDevices c
  ∧ currentFacing c' = currentFacing c
  ∧ stopped c' = match stream c with Some old => old :: stopped c | None => stopped c end
  ∧ ((o = Returned
      ∧ ∃ k, stream c' = Some (mkStream k (length (opened c)))
             ∧ srcObject c' = Some (mkStream k (length (opened c)))
             ∧ opened c' = mkStream k (length (opened c)) :: opened c
             ∧ ((k = requested arg c ∧ first_ok k = true
                 ∧ currentDeviceIndex c' = currentDeviceIndex c)
                ∨ (first_ok (requested arg c) = false
                   ∧ ∃ d rest, videoDevices c = d :: rest ∧ k = ByDevice (deviceId d)
                               ∧ currentDeviceIndex c' = 0)
                ∨ (first_ok (requested arg c) = false
                   ∧ videoDevices c = [] ∧ k = AnyVideo
                   ∧ currentDeviceIndex c' = currentDeviceIndex c)))
     ∨ (o = Thrown
        ∧ stream c' = None ∧ srcObject c' = srcObject c ∧ opened c' = opened c
        ∧ first_ok (requested arg c) = false
        ∧ (currentDeviceIndex c' = currentDeviceIndex c ∧ videoDevices c = []
           ∨ currentDeviceIndex c' = 0 ∧ videoDevices c ≠ []))).
Proof.
  cbv zeta. unfold getStream, stopStream, getUserMedia.
  assert (Hreq : ∀ c0, currentFacing c0 = currentFacing c → requested arg c0 = requested arg c).
  { intros c0 E. unfold requested. now rewrite E. }
  destruct (stream c) as [old|] eqn:Hs; [rewrite Hreq by reflexivity | idtac];
    (destruct (first_ok (requested arg c)) eqn:H1; cbn;
     [ do 3 (split; [reflexivity|]); left; split; [reflexivity|];
       eexists; do 3 (split; [reflexivity|]); left; now repeat split
     | destruct (videoDevices c) as [|d rest] eqn:Hv; cbn;
       [ destruct (second_ok AnyVideo); cbn;
         [ do 3 (split; [try reflexivity; exact Hv|]); left; split; [reflexivity|];
           eexists; do 3 (split; [reflexivity|]); right; right; now repeat split
         | do 3 (split; [try reflexivity; exact Hv|]); right;
           repeat split; try reflexivity; try exact Hs; now left ]
       | destruct (second_ok (ByDevice (deviceId d))); cbn;
         [ do 3 (split; [try reflexivity; exact Hv|]); left; split; [reflexivity|];
           eexists; do 3 (split; [reflexivity|]); right; left;
           split; [reflexivity|]; now exists d, rest
         | do 3 (split; [try reflexivity; exact Hv|]); right;
           repeat split; try reflexivity; try exact Hs; now right ] ] ]).
Qed.

(** X13. getStream stops the stream the module held before it asks for
    a new one and leaves the list of devices alone.  When it returns, a
    newly granted stream is both the module's stream and the source of the
    video element; when it throws, the module holds no stream, nothing was
    granted and the video element keeps the source it had. *)
Theorem getStream_outcome first_ok second_ok arg c :
  let o := fst (getStream first_ok second_ok arg c) in
  let c' := snd (getStream first_ok second_ok arg c) in
  videoDevices c' = videoDevices c
  ∧ stopped c' = match stream c with Some old => old :: stopped c | None => stopped c end
  ∧ match o with
    | Returned =>
      ∃ k, stream c' = Some (mkStream k (length (opened c)))
           ∧ srcObject c' = stream c'
           ∧ opened c' = mkStream k (length (opened c)) :: opened c
    | Thrown => stream c' = None ∧ srcObject c' = srcObject c ∧ opened c' = opened c
    end.
Proof.
  pose proof (getStream_cases first_ok second_ok arg c) as H. cbv zeta in *.
  destruct H
    as (Hv & _ & Hst & [(Ho & k & Hs & Hsrc & Hop & _) | (Ho & Hs & Hsrc & Hop & _)]);
    rewrite Ho.
  - repeat split; [exact Hv | exact Hst|]. exists k. now rewrite Hsrc, Hs.
  - now repeat split.
Qed.

(** ** The camera invariant *)

Lemma camera_ok_initial : camera_ok initial_camera.
Proof.
  unfold camera_ok, initial_camera. cbn.
  split; [intros st H; now apply elem_of_nil in H|].
  split; [now intros st H|].
  split; [discriminate|]. split; [reflexivity|]. split; [lia|]. now intros.
Qed.

Lemma camera_ok_getUserMedia b k c : camera_ok c → camera_ok (snd (getUserMedia b k c)).
Proof.
  intros Hok. pose proof Hok as (Hser & Hsub & Hheld & Hf & Hlo & Hidx). unfold getUserMedia.
  destruct b; cbn [snd]; [|exact Hok].
  unfold camera_ok. cbn.
  split; [|split; [|split; [|exact (conj Hf (conj Hlo Hidx))]]].
  - intros st [-> | H]%elem_of_cons; [cbn; lia | specialize (Hser st H); lia].
  - intros st H. apply elem_of_cons. right. now apply Hsub.
  - intros st H. destruct (Hheld st H) as [H1 H2]. split; [|exact H2].
    apply elem_of_cons. now right.
Qed.

Lemma camera_ok_select i vids c :
  camera_ok c → -1 ≤ i → (vids ≠ [] → 0 ≤ i < Z.of_nat (length vids)) →
  camera_ok (with_index i (with_devices vids c)).
Proof.
  intros (Hser & Hsub & Hheld & Hf & Hlo & Hidx) Hi Hr.
  exact (conj Hser (conj Hsub (conj Hheld (conj Hf (conj Hi Hr))))).
Qed.

Lemma camera_ok_with_index i c :
  camera_ok c → -1 ≤ i → (videoDevices c ≠ [] → 0 ≤ i < Z.of_nat (length (videoDevices c))) →
  camera_ok (with_index i c).
Proof.
  intros (Hser & Hsub & Hheld & Hf & Hlo & Hidx) Hi Hr.
  exact (conj Hser (conj Hsub (conj Hheld (conj Hf (conj Hi Hr))))).
Qed.

Lemma camera_ok_no_devices c : camera_ok c → camera_ok (with_devices [] c).
Proof.
  intros (Hser & Hsub & Hheld & Hf & Hlo & Hidx).
  refine (conj Hser (conj Hsub (conj Hheld (conj Hf (conj Hlo _))))).
  now intros H.
Qed.

Lemma fresh_not_opened k c : camera_ok c → ¬ (mkStream k (length (opened c)) ∈ opened c).
Proof. intros (Hser & _) H. specialize (Hser _ H). cbn in Hser. lia. Qed.

Lemma camera_ok_getStream first_ok second_ok arg c :
  camera_ok c → camera_ok (snd (getStream first_ok second_ok arg c)).
Proof.
  intros Hok. pose proof (fresh_not_opened) as Hfresh.
  pose proof Hok as (Hser & Hsub & Hheld & Hf & Hlo & Hidx).
  pose proof (getStream_cases first_ok second_ok arg c) as H. cbv zeta in H.
  destruct H as (Hv & Hfc & Hst & Hcases).
  set (c' := snd (getStream first_ok second_ok arg c)) in *.
  assert (Hstopped : ∀ st, st ∈ stopped c' → st ∈ opened c).
  { intros st. rewrite Hst. destruct (stream c) as [old|] eqn:Hs; [|apply Hsub].
    intros [-> | H]%elem_of_cons; [now apply Hheld | now apply Hsub]. }
  assert (Hindex : ∀ i, (i = currentDeviceIndex c ∨ (i = 0 ∧ videoDevices c ≠ [])) →
            -1 ≤ i ∧ (videoDevices c ≠ [] → 0 ≤ i < Z.of_nat (length (videoDevices c)))).
  { intros i [-> | [-> Hne]]; [now split|]. split; [lia|]. intros _.
    destruct (videoDevices c); [contradiction | simpl; lia]. }
  unfold camera_ok. rewrite Hv, Hfc.
  destruct Hcases as [(_ & k & Hs & Hsrc & Hop & Hk) | (_ & Hs & Hsrc & Hop & _ & Hk)].
  - rewrite Hop, Hs.
    assert (Hi : currentDeviceIndex c' = currentDeviceIndex c
                 ∨ (currentDeviceIndex c' = 0 ∧ videoDevices c ≠ [])).
    { destruct Hk as [(_ & _ & E) | [(_ & d & rest & Ed & _ & E) | (_ & _ & _ & E)]];
        [now left | right | now left]. split; [exact E | now rewrite Ed]. }
    destruct (Hindex _ Hi) as [Hlo' Hidx'].
    split; [|split; [|split; [|exact (conj Hf (conj Hlo' Hidx'))]]].
    + intros st [-> | H]%elem_of_cons; [cbn; lia | specialize (Hser st H); cbn; lia].
    + intros st H. apply elem_of_cons. right. now apply Hstopped.
    + intros st [= <-]. split; [apply elem_of_cons; now left|].
      intros H. apply Hstopped in H. now apply (Hfresh k c Hok).
  - rewrite Hop, Hs.
    assert (Hi : currentDeviceIndex c' = currentDeviceIndex c
                 ∨ (currentDeviceIndex c' = 0 ∧ videoDevices c ≠ [])).
    { destruct Hk as [[E _] | [E Hne]]; [now left | now right]. }
    destruct (Hindex _ Hi) as [Hlo' Hidx'].
    split; [exact Hser|]. split; [exact Hstopped|]. split; [discriminate|].
    exact (conj Hf (conj Hlo' Hidx')).
Qed.

Lemma camera_ok_onSwitch first_ok second_ok p c :
  camera_ok c → camera_ok (snd (onSwitch first_ok second_ok p c)).
Proof.
  intros Hok. unfold onSwitch.
  destruct (Z.leb_spec (Z.of_nat (length (videoDevices c))) 1) as [Hle | Hgt]; [exact Hok|].
  pose proof Hok as (_ & _ & _ & _ & Hlo & _).
  assert (Hok1 : camera_ok (with_index (next_index (currentDeviceIndex c)
                                          (Z.of_nat (length (videoDevices c)))) c)).
  { pose proof (next_index_range (currentDeviceIndex c) (Z.of_nat (length (videoDevices c)))
                  Hlo ltac:(lia)).
    apply camera_ok_with_index; [exact Hok | lia | now intros _]. }
  destruct (js_index _ _) as [dev|]; [|exact Hok1].
  pose proof (camera_ok_getStream first_ok second_ok (Some ("device:" +:+ deviceId dev)) _ Hok1)
    as H.
  now destruct (getStream _ _ _ _) as [[] c2].
Qed.

Lemma camera_ok_enableCamera m p c : camera_ok c → camera_ok (snd (enableCamera m p c)).
Proof.
  intros Hok. unfold enableCamera.
  pose proof (camera_ok_getUserMedia (prime_ok m) AnyVideo c Hok) as Hok1.
  set (c1 := snd (getUserMedia (prime_ok m) AnyVideo c)) in *.
  destruct (enumerated m) as [devices|]; [|exact Hok1].
  set (vids := List.filter _ devices).
  change (videoDevices (with_devices vids c1)) with vids.
  destruct vids as [|d rest] eqn:Ev; [now apply camera_ok_no_devices|].
  rewrite <- Ev.
  assert (Hne : vids ≠ []) by now rewrite Ev.
  pose proof (initial_index_range vids Hne) as Hr.
  assert (Hok3 : camera_ok (with_index (initial_index vids) (with_devices vids c1))).
  { apply camera_ok_select; [exact Hok1 | lia | now intros _]. }
  change (videoDevices (with_devices vids c1)) with vids.
  destruct (js_index _ _) as [dev|]; [|exact Hok3].
  pose proof (camera_ok_getStream (first_ok m) (second_ok m)
                (Some ("device:" +:+ deviceId dev)) _ Hok3) as H.
  now destruct (getStream _ _ _ _) as [[] c4].
Qed.

Lemma step_camera ev pg pg' :
  step ev pg = Some pg' →
  camera pg' = camera pg
  ∨ (∃ m, ev = EnableCamera m ∧ camera pg' = snd (enableCamera m (panel pg) (camera pg)))
  ∨ (∃ f s, ev = SwitchCamera f s ∧ camera pg' = snd (onSwitch f s (panel pg) (camera pg))).
Proof.
  destruct ev as [m | f s | w h blob url ans | chosen url ans |]; cbn [step].
  - destruct (enableCamera _ _ _) as [p c] eqn:E. intros [= <-]. right. left.
    exists m. now rewrite E.
  - destruct (onSwitch _ _ _ _) as [p c] eqn:E. intros [= <-]. right. right.
    exists f, s. now rewrite E.
  - destruct (onCapture _ _ _ _ _ _ _) as [[p r]|]; [|discriminate]. intros [= <-]. now left.
  - destruct (onFileChosen _ _ _ _ _) as [[p r]|]; [|discriminate]. intros [= <-]. now left.
  - intros [= <-]. now left.
Qed.

Lemma camera_ok_step ev pg pg' :
  step ev pg = Some pg' → camera_ok (camera pg) → camera_ok (camera pg').
Proof.
  intros Hstep Hok.
  destruct (step_camera ev pg pg' Hstep) as [-> | [(m & _ & ->) | (f & s & _ & ->)]];
    [exact Hok | now apply camera_ok_enableCamera | now apply camera_ok_onSwitch].
Qed.

Lemma camera_ok_steps evs : ∀ pg pg',
  steps evs pg = Some pg' → camera_ok (camera pg) → camera_ok (camera pg').
Proof.
  induction evs as [|ev rest IH]; intros pg pg'; cbn [steps].
  - now intros [= <-].
  - destruct (step ev pg) as [pg1|] eqn:E; [|discriminate].
    intros Hrest Hok. eapply IH; [exact Hrest|]. eapply camera_ok_step; eassumption.
Qed.

(** X14. From the initial values of the module variables, after every
    sequence of events: the stream the module holds was granted and is not
    stopped, only granted streams are stopped, the facing mode is still
    user, and whenever the list of cameras is not empty the current index
    names one of them. *)
Theorem camera_stays_ok evs p r pg' :
  steps evs (mkPage p initial_camera r) = Some pg' → camera_ok (camera pg').
Proof.
  intros H. eapply camera_ok_steps; [exact H|]. apply camera_ok_initial.
Qed.

Lemma camera_stays_ok_witness :
  ∃ pg, steps demo_events demo_page = Some pg ∧ camera_ok (camera pg).
Proof.
  eexists. split; [vm_compute; reflexivity|].
  apply (camera_stays_ok demo_events (panel demo_page) (share demo_page)).
  vm_compute. reflexivity.
Defined.

(** ** Streams that nothing stops *)

Lemma unreachable_getUserMedia b k c st :
  camera_ok c → unreachable_stream c st → unreachable_stream (snd (getUserMedia b k c)) st.
Proof.
  intros Hok (Ho & Hs & Hh). unfold getUserMedia. destruct b; cbn [snd]; [|now repeat split].
  split; [|split; [exact Hs | exact Hh]]. apply elem_of_cons. now right.
Qed.

Lemma unreachable_getStream first_ok second_ok arg c st :
  camera_ok c → unreachable_stream c st →
  unreachable_stream (snd (getStream first_ok second_ok arg c)) st.
Proof.
  intros Hok (Ho & Hs & Hh).
  pose proof (getStream_cases first_ok second_ok arg c) as H. cbv zeta in H.
  destruct H as (_ & _ & Hst & Hcases).
  set (c' := snd (getStream first_ok second_ok arg c)) in *.
  assert (Hstopped : ¬ (st ∈ stopped c')).
  { rewrite Hst. destruct (stream c) as [old|] eqn:E; [|exact Hs].
    intros [-> | H]%elem_of_cons; [now apply Hh | now apply Hs]. }
  destruct Hcases as [(_ & k & Hs' & _ & Hop & _) | (_ & Hs' & _ & Hop & _)].
  - split; [rewrite Hop; apply elem_of_cons; now right|]. split; [exact Hstopped|].
    rewrite Hs'. intros [= <-]. now apply (fresh_not_opened k c Hok).
  - split; [now rewrite Hop|]. split; [exact Hstopped|]. now rewrite Hs'.
Qed.

Lemma unreachable_rebind c c' st :
  opened c' = opened c → stopped c' = stopped c → stream c' = stream c →
  unreachable_stream c st → unreachable_stream c' st.
Proof. intros Eo Es Eh. unfold unreachable_stream. now rewrite Eo, Es, Eh. Qed.

Lemma unreachable_onSwitch first_ok second_ok p c st :
  camera_ok c → unreachable_stream c st →
  unreachable_stream (snd (onSwitch first_ok second_ok p c)) st.
Proof.
  intros Hok Hun. unfold onSwitch.
  destruct (Z.leb_spec (Z.of_nat (length (videoDevices c))) 1) as [Hle | Hgt]; [exact Hun|].
  pose proof Hok as (_ & _ & _ & _ & Hlo & _).
  set (c1 := with_index _ c).
  assert (Hok1 : camera_ok c1).
  { pose proof (next_index_range (currentDeviceIndex c) (Z.of_nat (length (videoDevices c)))
                  Hlo ltac:(lia)).
    apply camera_ok_with_index; [exact Hok | lia | now intros _]. }
  assert (Hun1 : unreachable_stream c1 st) by (now apply (unreachable_rebind c)).
  destruct (js_index _ _) as [dev|]; [|exact Hun1].
  pose proof (unreachable_getStream first_ok second_ok (Some ("device:" +:+ deviceId dev))
                c1 st Hok1 Hun1) as H.
  now destruct (getStream _ _ _ _) as [[] c2].
Qed.

Lemma unreachable_enableCamera m p c st :
  camera_ok c → unreachable_stream c st →
  unreachable_stream (snd (enableCamera m p c)) st.
Proof.
  intros Hok Hun. unfold enableCamera.
  pose proof (camera_ok_getUserMedia (prime_ok m) AnyVideo c Hok) as Hok1.
  pose proof (unreachable_getUserMedia (prime_ok m) AnyVideo c st Hok Hun) as Hun1.
  set (c1 := snd (getUserMedia (prime_ok m) AnyVideo c)) in *.
  destruct (enumerated m) as [devices|]; [|exact Hun1].
  set (vids := List.filter _ devices).
  change (videoDevices (with_devices vids c1)) with vids.
  destruct vids as [|d rest] eqn:Ev; [now apply (unreachable_rebind c1)|].
  rewrite <- Ev.
  assert (Hne : vids ≠ []) by now rewrite Ev.
  pose proof (initial_index_range vids Hne) as Hr.
  set (c3 := with_index (initial_index vids) (with_devices vids c1)).
  assert (Hok3 : camera_ok c3).
  { apply camera_ok_select; [exact Hok1 | lia | now intros _]. }
  assert (Hun3 : unreachable_stream c3 st) by (now apply (unreachable_rebind c1)).
  change (videoDevices c3) with vids.
  destruct (js_index _ _) as [dev|]; [|exact Hun3].
  pose proof (unreachable_getStream (first_ok m) (second_ok m)
                (Some ("device:" +:+ deviceId dev)) c3 st Hok3 Hun3) as H.
  now destruct (getStream _ _ _ _) as [[] c4].
Qed.

Lemma unreachable_step ev pg pg' st :
  step ev pg = Some pg' → camera_ok (camera pg) →
  unreachable_stream (camera pg) st → unreachable_stream (camera pg') st.
Proof.
  intros Hstep Hok Hun.
  destruct (step_camera ev pg pg' Hstep) as [-> | [(m & _ & ->) | (f & s & _ & ->)]];
    [exact Hun | now apply unreachable_enableCamera | now apply unreachable_onSwitch].
Qed.

Lemma unreachable_steps evs st : ∀ pg pg',
  steps evs pg = Some pg' → camera_ok (camera pg) →
  unreachable_stream (camera pg) st → unreachable_stream (camera pg') st.
Proof.
  induction evs as [|ev rest IH]; intros pg pg'; cbn [steps].
  - now intros [= <-].
  - destruct (step ev pg) as [pg1|] eqn:E; [|discriminate].
    intros Hrest Hok Hun. eapply IH; [exact Hrest | |].
    + eapply camera_ok_step; eassumption.
    + eapply unreachable_step; eassumption.
Qed.

Lemma priming_unreachable m p c :
  camera_ok c → prime_ok m = true →
  unreachable_stream (snd (enableCamera m p c)) (mkStream AnyVideo (length (opened c))).
Proof.
  intros Hok Hprime. unfold enableCamera.
  set (st := mkStream AnyVideo (length (opened c))).
  pose proof (camera_ok_getUserMedia (prime_ok m) AnyVideo c Hok) as Hok1.
  assert (Hun1 : unreachable_stream (snd (getUserMedia (prime_ok m) AnyVideo c)) st).
  { unfold getUserMedia. rewrite Hprime. cbn [snd]. split; [apply elem_of_cons; now left|].
    pose proof (fresh_not_opened AnyVideo c Hok) as Hfresh.
    pose proof Hok as (_ & Hsub & Hheld & _).
    split; [intros H; now apply Hfresh, Hsub|].
    intros H. now apply Hfresh, (Hheld st). }
  set (c1 := snd (getUserMedia (prime_ok m) AnyVideo c)) in *.
  destruct (enumerated m) as [devices|]; [|exact Hun1].
  set (vids := List.filter _ devices).
  change (videoDevices (with_devices vids c1)) with vids.
  destruct vids as [|d rest] eqn:Ev; [now apply (unreachable_rebind c1)|].
  rewrite <- Ev.
  assert (Hne : vids ≠ []) by now rewrite Ev.
  pose proof (initial_index_range vids Hne) as Hr.
  set (c3 := with_index (initial_index vids) (with_devices vids c1)).
  assert (Hok3 : camera_ok c3).
  { apply camera_ok_select; [exact Hok1 | lia | now intros _]. }
  assert (Hun3 : unreachable_stream c3 st) by (now apply (unreachable_rebind c1)).
  change (videoDevices c3) with vids.
  destruct (js_index _ _) as [dev|]; [|exact Hun3].
  pose proof (unreachable_getStream (first_ok m) (second_ok m)
                (Some ("device:" +:+ deviceId dev)) c3 st Hok3 Hun3) as H.
  now destruct (getStream _ _ _ _) as [[] c4].
Qed.

(** X15. The stream enableCamera requests to prime the list of devices,
    when the browser grants it, is never stopped: after that call and
    after every further sequence of events it is still running and is not
    the stream the module holds, the only one stopStream stops. *)
Theorem priming_stream_never_stopped m evs pg pg1 pg2 :
  camera_ok (camera pg) → prime_ok m = true →
  step (EnableCamera m) pg = Some pg1 → steps evs pg1 = Some pg2 →
  unreachable_stream (camera pg2) (mkStream AnyVideo (length (opened (camera pg)))).
Proof.
  intros Hok Hprime Hstep Hsteps.
  eapply unreachable_steps; [exact Hsteps | eapply camera_ok_step; eassumption |].
  cbn [step] in Hstep.
  pose proof (priming_unreachable m (panel pg) (camera pg) Hok Hprime) as H.
  destruct (enableCamera m (panel pg) (camera pg)) as [p c]. now injection Hstep as <-.
Qed.

Lemma priming_stream_never_stopped_witness :
  ∃ pg, steps demo_events demo_page = Some pg
        ∧ unreachable_stream (camera pg) (mkStream AnyVideo 0).
Proof.
  eexists. split; [vm_compute; reflexivity|].
  refine (priming_stream_never_stopped demo_media (List.tl demo_events) demo_page _ _
            camera_ok_initial eq_refl _ _); vm_compute; reflexivity.
Defined.

(** ** The switch button and enableCamera *)

Lemma js_index_in_range {A} (l : list A) i :
  0 ≤ i < Z.of_nat (length l) → ∃ x, js_index l i = Some x.
Proof.
  intros H. unfold js_index. destruct (Z.ltb_spec i 0); [lia|].
  destruct (nth_error l (Z.to_nat i)) eqn:E; [now eexists|].
  apply nth_error_None in E. lia.
Qed.

(** What [getStream('device:' + dev.deviceId)] leaves when [dev] is the
    device at the current index. *)
Lemma getStream_device first_ok second_ok c dev :
  js_index (videoDevices c) (currentDeviceIndex c) = Some dev →
  let o := fst (getStream first_ok second_ok (Some ("device:" +:+ deviceId dev)) c) in
  let c' := snd (getStream first_ok second_ok (Some ("device:" +:+ deviceId dev)) c) in
  videoDevices c' = videoDevices c
  ∧ ((o = Thrown ∧ stream c' = None ∧ first_ok (ByDevice (deviceId dev)) = false)
     ∨ (o = Returned
        ∧ ∃ st shown,
            stream c' = Some st ∧ srcObject c' = Some st
            ∧ js_index (videoDevices c') (currentDeviceIndex c') = Some shown
            ∧ granted st = ByDevice (deviceId shown)
            ∧ ((first_ok (ByDevice (deviceId dev)) = true ∧ shown = dev)
               ∨ (first_ok (ByDevice (deviceId dev)) = false
                  ∧ currentDeviceIndex c' = 0)))).
Proof.
  intros Hdev.
  pose proof (getStream_cases first_ok second_ok (Some ("device:" +:+ deviceId dev)) c) as H.
  cbv zeta in *. rewrite requested_device in H.
  destruct H as (Hv & _ & _ & [(Ho & k & Hs & Hsrc & _ & Hk) | (Ho & Hs & _ & _ & H1 & _)]).
  - split; [exact Hv|]. right. split; [exact Ho|]. rewrite Hv.
    destruct Hk as [(-> & H1 & E) | [(H1 & d & rest & Ed & -> & E) | (_ & Ed & _ & _)]].
    + exists (mkStream (ByDevice (deviceId dev)) (length (opened c))), dev.
      rewrite E. repeat split; [exact Hs | exact Hsrc | exact Hdev |]. now left.
    + exists (mkStream (ByDevice (deviceId d)) (length (opened c))), d.
      rewrite E, Ed. repeat split; [exact Hs | exact Hsrc |]. now right.
    + rewrite Ed in Hdev. unfold js_index in Hdev.
      destruct (currentDeviceIndex c <? 0); [discriminate|].
      now destruct (Z.to_nat (currentDeviceIndex c)).
  - split; [exact Hv|]. left. now repeat split.
Qed.

(** X16. With more than one camera, the switch handler always finds a
    device at the next index.  It ends either with no stream and the
    status unable to switch, or with a stream that comes from the device
    the current index names.  The status names the device that was asked
    for; when that request is refused and the fallback to the first camera
    is granted, the stream and the index are those of the first camera. *)
Theorem onSwitch_streams_indexed_device first_ok second_ok p c :
  (1 < length (videoDevices c))%nat → -1 ≤ currentDeviceIndex c →
  ∃ dev,
    js_index (videoDevices c)
             (next_index (currentDeviceIndex c) (Z.of_nat (length (videoDevices c)))) = Some dev
    ∧ let p' := fst (onSwitch first_ok second_ok p c) in
      let c' := snd (onSwitch first_ok second_ok p c) in
      videoDevices c' = videoDevices c
      ∧ ((statusText p' = "Unable to switch camera."
          ∧ stream c' = None ∧ first_ok (ByDevice (deviceId dev)) = false)
         ∨ (statusText p'
            = "Switched camera"
              +:+ (if negb (String.eqb (label dev) "") then ": " +:+ label dev else "")
            ∧ ∃ st shown,
                stream c' = Some st ∧ srcObject c' = Some st
                ∧ js_index (videoDevices c') (currentDeviceIndex c') = Some shown
                ∧ granted st = ByDevice (deviceId shown)
                ∧ ((first_ok (ByDevice (deviceId dev)) = true ∧ shown = dev)
                   ∨ (first_ok (ByDevice (deviceId dev)) = false
                      ∧ currentDeviceIndex c' = 0)))).
Proof.
  intros Hn Hlo.
  pose proof (next_index_range (currentDeviceIndex c) (Z.of_nat (length (videoDevices c)))
                Hlo ltac:(lia)) as Hr.
  destruct (js_index_in_range (videoDevices c) _ Hr) as [dev Hdev].
  exists dev. split; [exact Hdev|]. cbv zeta. unfold onSwitch.
  destruct (Z.leb_spec (Z.of_nat (length (videoDevices c))) 1) as [Hle | _]; [lia|].
  set (c1 := with_index _ c).
  change (js_index (videoDevices c1) (currentDeviceIndex c1)) with
    (js_index (videoDevices c)
       (next_index (currentDeviceIndex c) (Z.of_nat (length (videoDevices c))))).
  rewrite Hdev.
  pose proof (getStream_device first_ok second_ok c1 dev Hdev) as H. cbv zeta in H.
  destruct (getStream first_ok second_ok (Some ("device:" +:+ deviceId dev)) c1) as [o c2].
  cbn [fst snd] in H. destruct H as [Hv [(-> & Hs & H1) | (-> & Hshown)]]; cbn [fst snd].
  - split; [exact Hv|]. left. now repeat split.
  - split; [exact Hv|]. right. split; [reflexivity | exact Hshown].
Qed.

Lemma onSwitch_streams_indexed_device_witness :
  ∃ dev,
    js_index (List.tl demo_devices) (next_index 1 2) = Some dev
    ∧ statusText (fst (onSwitch (fun k => negb (bool_decide (k = ByDevice "cam-back")))
                                (fun _ => true) (panel demo_page)
                                (with_index 1 (with_devices (List.tl demo_devices)
                                                            initial_camera))))
      = "Switched camera: Back Camera".
Proof.
  destruct (onSwitch_streams_indexed_device
              (fun k => negb (bool_decide (k = ByDevice "cam-back"))) (fun _ => true)
              (panel demo_page)
              (with_index 1 (with_devices (List.tl demo_devices) initial_camera))
              ltac:(cbn; lia) ltac:(cbn; lia)) as (dev & Hdev & _).
  exists dev. split; [exact Hdev | reflexivity].
Defined.

(** X17. enableCamera ends in one of three ways.  Camera ready: capture
    is enabled, the switch button is disabled exactly when there is at
    most one camera, and a stream from the device the current index names
    is held and shown.  No camera devices: the file picker label is shown
    and the stream is as before.  Permission denied or unavailable: the
    buttons are as before and no new stream is held. *)
Theorem enableCamera_outcome m p c :
  let p' := fst (enableCamera m p c) in
  let c' := snd (enableCamera m p c) in
  (statusText p' = "Camera ready."
   ∧ captureDisabled p' = false
   ∧ switchDisabled p' = (Z.of_nat (length (videoDevices c')) <=? 1)
   ∧ ∃ st shown,
       stream c' = Some st ∧ srcObject c' = Some st
       ∧ js_index (videoDevices c') (currentDeviceIndex c') = Some shown
       ∧ granted st = ByDevice (deviceId shown))
  ∨ (statusText p' = "No camera devices found. You can choose an image instead."
     ∧ fileLabelShown p' = true ∧ captureDisabled p' = captureDisabled p
     ∧ videoDevices c' = [] ∧ stream c' = stream c)
  ∨ (statusText p' = "Camera permission denied or unavailable."
     ∧ captureDisabled p' = captureDisabled p ∧ switchDisabled p' = switchDisabled p
     ∧ ((enumerated m = None ∧ stream c' = stream c) ∨ stream c' = None)).
Proof.
  cbv zeta. unfold enableCamera.
  assert (Hs1 : stream (snd (getUserMedia (prime_ok m) AnyVideo c)) = stream c).
  { unfold getUserMedia. now destruct (prime_ok m). }
  set (c1 := snd (getUserMedia (prime_ok m) AnyVideo c)) in *.
  destruct (enumerated m) as [devices|]; [|right; right; cbn; repeat split; now left].
  set (vids := List.filter _ devices).
  change (videoDevices (with_devices vids c1)) with vids.
  destruct vids as [|d rest] eqn:Ev; [right; left; cbn; now repeat split|].
  rewrite <- Ev.
  assert (Hne : vids ≠ []) by now rewrite Ev.
  destruct (initial_index_defined vids Hne) as [dev Hdev].
  set (c3 := with_index (initial_index vids) (with_devices vids c1)).
  change (js_index (videoDevices c3) (currentDeviceIndex c3)) with
    (js_index vids (initial_index vids)).
  rewrite Hdev.
  pose proof (getStream_device (first_ok m) (second_ok m) c3 dev Hdev) as H. cbv zeta in H.
  destruct (getStream (first_ok m) (second_ok m) (Some ("device:" +:+ deviceId dev)) c3)
    as [o c4].
  cbn [fst snd] in H.
  destruct H as [Hv [(-> & Hs & H1) | (-> & st & shown & Hs & Hsrc & Hshown & Hg & _)]];
    cbn [fst snd].
  - right. right. cbn. repeat split. now right.
  - left. cbn. repeat split. now exists st, shown.
Qed.

(** ** Presses of the switch button *)

Lemma js_index_elem {A} (l : list A) i x : js_index l i = Some x → x ∈ l.
Proof.
  unfold js_index. destruct (i <? 0); [discriminate|]. intros H.
  apply list_elem_of_In. eapply nth_error_In. exact H.
Qed.

(** One press of the switch button when the browser grants the request
    for the camera it asks for. *)
Lemma onSwitch_granted first_ok second_ok p c :
  (1 < length (videoDevices c))%nat → -1 ≤ currentDeviceIndex c →
  (∀ d, d ∈ videoDevices c → first_ok (ByDevice (deviceId d)) = true) →
  let c' := snd (onSwitch first_ok second_ok p c) in
  videoDevices c' = videoDevices c
  ∧ currentDeviceIndex c'
    = next_index (currentDeviceIndex c) (Z.of_nat (length (videoDevices c)))
  ∧ ∃ st dev,
      stream c' = Some st ∧ srcObject c' = Some st
      ∧ js_index (videoDevices c') (currentDeviceIndex c') = Some dev
      ∧ granted st = ByDevice (deviceId dev).
Proof.
  intros Hn Hlo Hall. cbv zeta. unfold onSwitch.
  destruct (Z.leb_spec (Z.of_nat (length (videoDevices c))) 1) as [Hle | _]; [lia|].
  pose proof (next_index_range (currentDeviceIndex c) (Z.of_nat (length (videoDevices c)))
                Hlo ltac:(lia)) as Hr.
  destruct (js_index_in_range (videoDevices c) _ Hr) as [dev Hdev].
  set (c1 := with_index _ c).
  change (js_index (videoDevices c1) (currentDeviceIndex c1)) with
    (js_index (videoDevices c)
       (next_index (currentDeviceIndex c) (Z.of_nat (length (videoDevices c))))).
  rewrite Hdev.
  pose proof (getStream_cases first_ok second_ok (Some ("device:" +:+ deviceId dev)) c1) as H.
  cbv zeta in H. rewrite requested_device in H.
  pose proof (Hall dev (js_index_elem _ _ _ Hdev)) as Hgrant.
  destruct (getStream first_ok second_ok (Some ("device:" +:+ deviceId dev)) c1) as [o c2].
  cbn [fst snd] in H.
  destruct H as (Hv & _ & _ & [(-> & k & Hs & Hsrc & _ & Hk) | (_ & _ & _ & _ & Hno & _)]);
    [|congruence].
  destruct Hk as [(-> & _ & Hi) | [(Hno & _) | (Hno & _)]]; [|congruence..].
  cbn [snd]. split; [exact Hv|]. split; [exact Hi|].
  exists (mkStream (ByDevice (deviceId dev)) (length (opened c1))), dev.
  rewrite Hv, Hi. now repeat split.
Qed.

Lemma steps_switch first_ok second_ok pg :
  step (SwitchCamera first_ok second_ok) pg
  = Some (mkPage (fst (onSwitch first_ok second_ok (panel pg) (camera pg)))
                 (snd (onSwitch first_ok second_ok (panel pg) (camera pg)))
                 (share pg)).
Proof. cbn [step]. now destruct (onSwitch _ _ _ _). Qed.

(** X11. With more than one camera, each of which the browser grants
    when it is asked for, k presses of the switch button move the current
    index from i to (i + k) mod n and leave the list of cameras alone, and
    after a press the stream held and shown comes from the camera the
    index names.  So n presses lead back to the camera they started from,
    and fewer presses do not. *)
Theorem switch_presses_cycle first_ok second_ok (k : nat) : ∀ pg,
  (1 < length (videoDevices (camera pg)))%nat →
  0 ≤ currentDeviceIndex (camera pg) < Z.of_nat (length (videoDevices (camera pg))) →
  (∀ d, d ∈ videoDevices (camera pg) → first_ok (ByDevice (deviceId d)) = true) →
  ∃ pg',
    steps (repeat (SwitchCamera first_ok second_ok) k) pg = Some pg'
    ∧ videoDevices (camera pg') = videoDevices (camera pg)
    ∧ currentDeviceIndex (camera pg')
      = (currentDeviceIndex (camera pg) + Z.of_nat k)
        mod Z.of_nat (length (videoDevices (camera pg)))
    ∧ ((0 < k)%nat →
       ∃ st dev,
         stream (camera pg') = Some st ∧ srcObject (camera pg') = Some st
         ∧ js_index (videoDevices (camera pg')) (currentDeviceIndex (camera pg')) = Some dev
         ∧ granted st = ByDevice (deviceId dev))
    ∧ (k = length (videoDevices (camera pg)) →
       currentDeviceIndex (camera pg') = currentDeviceIndex (camera pg))
    ∧ ((0 < k < length (videoDevices (camera pg)))%nat →
       currentDeviceIndex (camera pg') ≠ currentDeviceIndex (camera pg)).
Proof.
  assert (Hmain : ∀ pg,
    (1 < length (videoDevices (camera pg)))%nat →
    0 ≤ currentDeviceIndex (camera pg) < Z.of_nat (length (videoDevices (camera pg))) →
    (∀ d, d ∈ videoDevices (camera pg) → first_ok (ByDevice (deviceId d)) = true) →
    ∃ pg',
      steps (repeat (SwitchCamera first_ok second_ok) k) pg = Some pg'
      ∧ videoDevices (camera pg') = videoDevices (camera pg)
      ∧ currentDeviceIndex (camera pg')
        = (currentDeviceIndex (camera pg) + Z.of_nat k)
          mod Z.of_nat (length (videoDevices (camera pg)))
      ∧ ((0 < k)%nat →
         ∃ st dev,
           stream (camera pg') = Some st ∧ srcObject (camera pg') = Some st
           ∧ js_index (videoDevices (camera pg')) (currentDeviceIndex (camera pg')) = Some dev
           ∧ granted st = ByDevice (deviceId dev))).
  { induction k as [|k IH]; intros pg Hn Hi Hall.
    - exists pg. split; [reflexivity|]. split; [reflexivity|].
      split; [rewrite Z.add_0_r; symmetry; now apply Z.mod_small | lia].
    - cbn [repeat steps]. rewrite steps_switch.
      pose proof (onSwitch_granted first_ok second_ok (panel pg) (camera pg) Hn
                    ltac:(lia) Hall) as H.
      cbv zeta in H. destruct H as (Hv & Hidx & Hsync).
      set (pg1 := mkPage _ _ (share pg)) in *.
      assert (Hi1 : 0 ≤ currentDeviceIndex (camera pg1)
                    < Z.of_nat (length (videoDevices (camera pg1)))).
      { cbn [camera pg1]. rewrite Hv, Hidx. apply next_index_range; lia. }
      destruct (IH pg1) as (pg' & Hsteps & Hv' & Hidx' & Hsync').
      { cbn [camera pg1]. now rewrite Hv. }
      { exact Hi1. }
      { cbn [camera pg1]. now rewrite Hv. }
      exists pg'. split; [exact Hsteps|].
      cbn [camera pg1] in Hv', Hidx'. rewrite Hv in Hv', Hidx'.
      split; [exact Hv'|]. split.
      + rewrite Hidx', Hidx. unfold next_index. rewrite Z.rem_mod_nonneg by lia.
        rewrite Zplus_mod_idemp_l. f_equal. lia.
      + intros _. destruct k as [|k]; [|apply Hsync'; lia].
        cbn [repeat steps] in Hsteps. injection Hsteps as <-. exact Hsync. }
  intros pg Hn Hi Hall. destruct (Hmain pg Hn Hi Hall) as (pg' & Hsteps & Hv & Hidx & Hsync).
  exists pg'. split; [exact Hsteps|]. split; [exact Hv|]. split; [exact Hidx|].
  split; [exact Hsync|]. split.
  - intros ->. rewrite Hidx.
    rewrite <- (Z.mul_1_l (Z.of_nat (length (videoDevices (camera pg))))) at 1.
    rewrite Z.mod_add by lia. now apply Z.mod_small.
  - intros Hk. rewrite Hidx. intros E.
    set (n := Z.of_nat (length (videoDevices (camera pg)))) in *.
    set (i := currentDeviceIndex (camera pg)) in *.
    destruct (Z_lt_ge_dec (i + Z.of_nat k) n) as [Hlt | Hge].
    + rewrite Z.mod_small in E by lia. lia.
    + assert (Hm : (i + Z.of_nat k) mod n = i + Z.of_nat k - n).
      { symmetry. apply Z.mod_unique with 1; lia. }
      lia.
Qed.

(** Two presses with two cameras, from the front camera at index 1. *)
Lemma switch_presses_cycle_witness :
  currentDeviceIndex (camera demo_ready) = 1
  ∧ ∃ pg',
      steps (repeat (SwitchCamera (fun _ => true) (fun _ => true)) 2) demo_ready = Some pg'
      ∧ currentDeviceIndex (camera pg') = 1.
Proof.
  split; [reflexivity|].
  destruct (switch_presses_cycle (fun _ => true) (fun _ => true) 2 demo_ready
              ltac:(vm_compute; lia)
              ltac:(split; [vm_compute; discriminate | vm_compute; reflexivity])
              ltac:(reflexivity))
    as (pg' & Hsteps & _ & _ & _ & Hback & _).
  exists pg'. split; [exact Hsteps | exact (Hback eq_refl)].
Defined.


(** ** The camera enableCamera asks for *)

(** X12. With a non-empty list of cameras, enableCamera asks for the
    first camera whose label contains the word front in any letter case,
    and for the first camera when no label does.  When the browser grants
    that request the page reports camera ready, the current index names
    that camera and its stream is held and shown.  When the browser
    refuses it the index is reset to 0: the page then either holds a stream
    of the first camera and reports camera ready, or holds none and
    reports that permission was denied. *)
Theorem enableCamera_prefers_front m p c devices :
  enumerated m = Some devices →
  List.filter (fun d => String.eqb (kind d) "videoinput") devices ≠ [] →
  let vids := List.filter (fun d => String.eqb (kind d) "videoinput") devices in
  let p' := fst (enableCamera m p c) in
  let c' := snd (enableCamera m p c) in
  ∃ pre d post,
    vids = pre ++ d :: post
    ∧ Forall (fun d => is_front d = false) pre
    ∧ (is_front d = true ∨ (pre = [] ∧ Forall (fun d => is_front d = false) vids))
    ∧ videoDevices c' = vids
    ∧ (first_ok m (ByDevice (deviceId d)) = true →
       statusText p' = "Camera ready."
       ∧ currentDeviceIndex c' = Z.of_nat (length pre)
       ∧ ∃ st, stream c' = Some st ∧ srcObject c' = Some st
               ∧ granted st = ByDevice (deviceId d))
    ∧ (first_ok m (ByDevice (deviceId d)) = false →
       currentDeviceIndex c' = 0
       ∧ ((statusText p' = "Camera permission denied or unavailable." ∧ stream c' = None)
          ∨ (statusText p' = "Camera ready."
             ∧ ∃ st first rest,
                 vids = first :: rest
                 ∧ stream c' = Some st ∧ srcObject c' = Some st
                 ∧ granted st = ByDevice (deviceId first)))).
Proof.
  intros Hen Hne. cbv zeta.
  destruct (initial_index_spec _ Hne) as (pre & d & post & Hsplit & Hidx & Hdev & Hpre & Hd).
  exists pre, d, post. split; [exact Hsplit|]. split; [exact Hpre|]. split; [exact Hd|].
  unfold enableCamera. rewrite Hen.
  set (c1 := snd (getUserMedia (prime_ok m) AnyVideo c)).
  set (vids := List.filter _ devices) in *.
  change (videoDevices (with_devices vids c1)) with vids.
  destruct vids as [|v0 vrest] eqn:Ev; [contradiction|]. rewrite <- Ev in *.
  set (c3 := with_index (initial_index vids) (with_devices vids c1)).
  change (js_index (videoDevices c3) (currentDeviceIndex c3)) with
    (js_index vids (initial_index vids)).
  rewrite Hdev.
  pose proof (getStream_cases (first_ok m) (second_ok m) (Some ("device:" +:+ deviceId d)) c3)
    as H.
  cbv zeta in H. rewrite requested_device in H.
  destruct (getStream (first_ok m) (second_ok m) (Some ("device:" +:+ deviceId d)) c3)
    as [o c4].
  cbn [fst snd] in H.
  change (videoDevices c3) with vids in H.
  change (currentDeviceIndex c3) with (initial_index vids) in H.
  destruct H as (Hv & _ & _ & [(-> & k & Hs & Hsrc & _ & Hk) | (-> & Hs & _ & _ & Hno & Hi)]);
    cbn [fst snd].
  - split; [exact Hv|].
    destruct Hk as [(-> & Hyes & Hi) | [(Hno & first & rest & Ef & -> & Hi) | (_ & E & _)]].
    + split.
      * intros _. split; [reflexivity|]. split; [now rewrite Hi, Hidx|].
        eexists. split; [exact Hs|]. split; [exact Hsrc | reflexivity].
      * intros Hno. congruence.
    + split.
      * intros Hyes. congruence.
      * intros _. split; [exact Hi|]. right. split; [reflexivity|].
        eexists _, first, rest. split; [exact Ef|].
        split; [exact Hs|]. split; [exact Hsrc | reflexivity].
    + rewrite Ev in E. discriminate E.
  - split; [exact Hv|]. split.
    + intros Hyes. congruence.
    + intros _. destruct Hi as [[_ E] | [Hi _]]; [rewrite Ev in E; discriminate E|].
      split; [exact Hi|]. left. now split.
Qed.

(** The front camera is second in the list; granted, it is the one
    shown. *)
Lemma enableCamera_prefers_front_witness :
  statusText (fst (enableCamera demo_media (panel demo_page) initial_camera)) = "Camera ready."
  ∧ currentDeviceIndex (snd (enableCamera demo_media (panel demo_page) initial_camera)) = 1.
Proof.
  destruct (enableCamera_prefers_front demo_media (panel demo_page) initial_camera
              demo_devices eq_refl ltac:(discriminate))
    as (pre & d & post & Hsplit & _ & _ & _ & Hgrant & _).
  destruct (Hgrant eq_refl) as (Hstatus & _). split; [exact Hstatus | reflexivity].
Defined.


(** ** The result section *)

Lemma text_of_setQR text : text_of_src (setQR text) = Some (QStr text).
Proof. unfold text_of_src, setQR. now rewrite strip_prefix_app, query_decode_encode. Qed.

Lemma show_result_one_address blobUrl viewUrl r :
  shows_one_address (show_result blobUrl viewUrl r).
Proof. unfold shows_one_address. cbn. repeat split. apply text_of_setQR. Qed.

Lemma share_ok_upload_end answer blobUrl p r res :
  share_ok r →
  match uploadBlob answer with
  | None => Some (setStatus "Upload failed. Try again." p, remember_blob blobUrl r)
  | Some j =>
    match text_property j "viewUrl" with
    | Some viewUrl =>
      Some (setStatus "Done! Share the QR." p,
            show_result blobUrl viewUrl (remember_blob blobUrl r))
    | None => None
    end
  end = Some res →
  share_ok (snd res).
Proof.
  intros Hok. destruct (uploadBlob answer) as [j|].
  - destruct (text_property j "viewUrl") as [viewUrl|]; [|discriminate].
    intros [= <-]. right. apply show_result_one_address.
  - intros [= <-]. exact Hok.
Qed.

Lemma share_ok_step ev pg pg' : step ev pg = Some pg' → share_ok (share pg) → share_ok (share pg').
Proof.
  destruct ev as [m | f s | w h blob url ans | chosen url ans |]; cbn [step].
  - destruct (enableCamera _ _ _) as [p c]. now intros [= <-].
  - destruct (onSwitch _ _ _ _) as [p c]. now intros [= <-].
  - destruct (onCapture _ _ _ _ _ _ _) as [[p r]|] eqn:E; [|discriminate].
    intros [= <-] Hok. cbn [share]. unfold onCapture in E.
    destruct (drawToCanvas w h); [|now injection E as <- <-].
    destruct blob; [|now injection E as <- <-].
    now apply (share_ok_upload_end ans url (panel pg) (share pg) (p, r)).
  - destruct (onFileChosen _ _ _ _ _) as [[p r]|] eqn:E; [|discriminate].
    intros [= <-] Hok. cbn [share]. unfold onFileChosen in E.
    destruct chosen; cbn [negb] in E; [|now injection E as <- <-].
    now apply (share_ok_upload_end ans url (panel pg) (share pg) (p, r)).
  - intros [= <-] _. now left.
Qed.

(** X18. Starting from a hidden result section, whenever the result
    section is shown after any sequence of events, the link text, the link
    target and the open button hold one address, and the QR image requests
    the code of exactly that address. *)
Theorem shown_qr_matches_link evs : ∀ pg pg',
  steps evs pg = Some pg' →
  result_hidden (share pg) = true →
  result_hidden (share pg') = false →
  shows_one_address (share pg').
Proof.
  assert (H : ∀ pg pg', steps evs pg = Some pg' → share_ok (share pg) → share_ok (share pg')).
  { induction evs as [|ev rest IH]; intros pg pg'; cbn [steps].
    - now intros [= <-].
    - destruct (step ev pg) as [pg1|] eqn:E; [|discriminate].
      intros Hrest Hok. eapply IH; [exact Hrest|]. eapply share_ok_step; eassumption. }
  intros pg pg' Hsteps Hhidden Hshown.
  destruct (H pg pg' Hsteps (or_introl Hhidden)) as [Hh | Hone]; [congruence | exact Hone].
Qed.

Lemma shown_qr_matches_link_witness :
  ∃ pg, steps demo_events demo_page = Some pg ∧ shows_one_address (share pg).
Proof.
  eexists. split; [vm_compute; reflexivity|].
  refine (shown_qr_matches_link demo_events demo_page _ _ eq_refl _); vm_compute; reflexivity.
Defined.

(** ** From the camera to the photo page *)

(** What a stored upload leaves on the server, and what the page makes of
    the answer. *)
Lemma stored_upload_shared cfg toBuffer env f s blobUrl p r protocol host :
  writeFile_ok env = true → writeFileSync_ok env = true →
  let id := upload_id env in
  let res := fst (handle cfg toBuffer (ReqUpload env (Some f)) s) in
  let s' := snd (handle cfg toBuffer (ReqUpload env (Some f)) s) in
  match uploadBlob (Some res) with
  | None => Some (setStatus "Upload failed. Try again." p, remember_blob blobUrl r)
  | Some j =>
    match text_property j "viewUrl" with
    | Some viewUrl =>
      Some (setStatus "Done! Share the QR." p,
            show_result blobUrl viewUrl (remember_blob blobUrl r))
    | None => None
    end
  end
  = Some (setStatus "Done! Share the QR." p,
          show_result blobUrl (view_url cfg id) (remember_blob blobUrl r))
  ∧ status (fst (handle cfg toBuffer (ReqView protocol host id) s')) = 200
  ∧ viewer_script (Some (fst (handle cfg toBuffer (ReqMeta id) s')))
    = Some (Filled ("/uploads/" +:+ upload_filename env f) (view_url cfg id) (view_url cfg id)
                   (setQR (view_url cfg id)))
  ∧ disk s' !! path_join (UPLOADS_DIR cfg) (upload_filename env f) = Some (buffer f).
Proof.
  intros Hw Hsave. cbv zeta. cbn [handle].
  rewrite upload_with_file, Hw, Hsave. cbn [fst snd].
  split; [reflexivity|].
  assert (Hrec : (<[upload_id env := stored_record env f]> (manifest s)) !! upload_id env
                 = Some (stored_record env f))
    by apply lookup_insert_eq.
  split.
  { unfold view, obj_get. cbn [manifest]. now rewrite Hrec. }
  split.
  { cbn [manifest]. rewrite (meta_own _ _ _ _ Hrec). reflexivity. }
  cbn [disk]. rewrite lookup_insert_ne by (apply not_eq_sym, upload_path_not_manifest).
  apply lookup_insert_eq.
Qed.

(** X19. A capture whose upload the server stores leads to the photo:
    the page reports done, shows the thumbnail, and links and encodes the
    view address of the new id; the server answers that address with the
    viewer page, whose script then shows the image [/uploads/<id>.jpg],
    and the bytes of the capture are in the uploads directory under that
    name. *)
Theorem capture_shares_photo_page cfg toBuffer env s w h blob blobUrl p r protocol host :
  writeFile_ok env = true → writeFileSync_ok env = true → w ≠ 0 → h ≠ 0 →
  let id := upload_id env in
  let res := fst (handle cfg toBuffer (ReqUpload env (Some (captured_file blob))) s) in
  let s' := snd (handle cfg toBuffer (ReqUpload env (Some (captured_file blob))) s) in
  ∃ r',
    onCapture w h (Some blob) blobUrl (Some res) p r
    = Some (setStatus "Done! Share the QR." p, r')
    ∧ result_hidden r' = false
    ∧ thumb_src r' = blobUrl
    ∧ viewLink_href r' = view_url cfg id
    ∧ shows_one_address r'
    ∧ status (fst (handle cfg toBuffer (ReqView protocol host id) s')) = 200
    ∧ viewer_script (Some (fst (handle cfg toBuffer (ReqMeta id) s')))
      = Some (Filled ("/uploads/" +:+ id +:+ ".jpg") (view_url cfg id) (view_url cfg id)
                     (setQR (view_url cfg id)))
    ∧ disk s' !! path_join (UPLOADS_DIR cfg) (id +:+ ".jpg") = Some blob.
Proof.
  intros Hw Hsave Hwz Hhz. cbv zeta.
  pose proof (stored_upload_shared cfg toBuffer env (captured_file blob) s blobUrl p r
                protocol host Hw Hsave) as H. cbv zeta in H.
  destruct H as (Hpage & Hview & Hscript & Hdisk).
  exists (show_result blobUrl (view_url cfg (upload_id env)) (remember_blob blobUrl r)).
  split.
  { unfold onCapture, drawToCanvas.
    destruct (Z.eqb_spec w 0) as [|_]; [contradiction|].
    destruct (Z.eqb_spec h 0) as [|_]; [contradiction|]. cbn [orb]. exact Hpage. }
  split; [reflexivity|]. split; [reflexivity|]. split; [reflexivity|].
  split; [apply show_result_one_address|].
  split; [exact Hview|]. split; [exact Hscript | exact Hdisk].
Qed.

Lemma capture_shares_photo_page_witness :
  ∃ r',
    onCapture 1080 1440 (Some "JFIF") "blob:1" (Some demo_answer)
              (panel demo_page) (share demo_page)
    = Some (setStatus "Done! Share the QR." (panel demo_page), r')
    ∧ viewLink_href r' = "http://192.168.1.7:3000/view/Tb5yYnO8hJ".
Proof.
  destruct (capture_shares_photo_page demo_config demo_encoder (demo_env true true)
              demo_server 1080 1440 "JFIF" "blob:1" (panel demo_page) (share demo_page)
              "http" "192.168.1.7:3000" eq_refl eq_refl ltac:(lia) ltac:(lia))
    as (r' & H1 & _ & _ & H4 & _).
  exists r'. split; [exact H1 | exact H4].
Defined.



(** X21. When the server answers an upload with anything but 200 (no
    file, or a failed write), the capture handler reports the failure and
    leaves thumbnail, link, open button, QR image and visibility of the
    result section as they were; the object URL of the previous capture is
    revoked all the same. *)
Theorem failed_upload_keeps_result cfg toBuffer env file s w h blob blobUrl p r :
  w ≠ 0 → h ≠ 0 →
  status (fst (handle cfg toBuffer (ReqUpload env file) s)) ≠ 200 →
  ∃ r',
    onCapture w h (Some blob) blobUrl
              (Some (fst (handle cfg toBuffer (ReqUpload env file) s))) p r
    = Some (setStatus "Upload failed. Try again." p, r')
    ∧ thumb_src r' = thumb_src r
    ∧ viewLink_href r' = viewLink_href r
    ∧ viewLink_text r' = viewLink_text r
    ∧ btnOpen_href r' = btnOpen_href r
    ∧ qrImg_src r' = qrImg_src r
    ∧ result_hidden r' = result_hidden r
    ∧ lastBlobUrl r' = Some blobUrl
    ∧ (∀ old, lastBlobUrl r = Some old → old ≠ "" → old ∈ revoked r').
Proof.
  intros Hwz Hhz Hst. exists (remember_blob blobUrl r). split.
  - unfold onCapture, drawToCanvas.
    destruct (Z.eqb_spec w 0) as [|_]; [contradiction|].
    destruct (Z.eqb_spec h 0) as [|_]; [contradiction|]. cbn [orb].
    cbn [handle] in *.
    destruct file as [f|]; [|reflexivity].
    rewrite upload_with_file in *.
    destruct (writeFile_ok env), (writeFileSync_ok env); cbn [fst] in *;
      [now contradiction Hst | reflexivity..].
  - do 7 (split; [reflexivity|]).
    intros old Hold Hne. cbn [remember_blob revoked]. rewrite Hold.
    apply String.eqb_neq in Hne. rewrite Hne. cbn [negb]. apply elem_of_cons. now left.
Qed.

Lemma failed_upload_keeps_result_witness :
  ∃ r',
    onCapture 1080 1440 (Some "JFIF") "blob:2"
      (Some (fst (handle demo_config demo_encoder
                    (ReqUpload (demo_env false true) (Some (captured_file "JFIF")))
                    demo_server)))
      (panel demo_page) (share demo_page)
    = Some (setStatus "Upload failed. Try again." (panel demo_page), r')
    ∧ qrImg_src r' = qrImg_src (share demo_page).
Proof.
  destruct (failed_upload_keeps_result demo_config demo_encoder (demo_env false true)
              (Some (captured_file "JFIF")) demo_server 1080 1440 "JFIF" "blob:2"
              (panel demo_page) (share demo_page) ltac:(lia) ltac:(lia)
              ltac:(vm_compute; discriminate))
    as (r' & H1 & _ & _ & _ & _ & H6 & _).
  exists r'. split; [exact H1 | exact H6].
Defined.

(** Every id an upload generates is carried unchanged by an address. *)
Lemma upload_id_url_safe env : url_safe_id (upload_id env) = true.
Proof.
  unfold url_safe_id. apply andb_true_iff. split.
  - destruct (upload_id_head env) as (c & tl & -> & _). reflexivity.
  - apply nanoid_from_safe.
Qed.

(** X22. The script of the viewer page against the metadata route, for
    an id that the address of its request carries unchanged: a non-empty
    id of letters, digits, [_] and [-], as every generated id is.  For an
    id of the manifest it shows the image [/uploads/<filename>], the view
    address and the QR request for that address; for an unknown id it
    leaves the page untouched, except for the names every object inherits,
    for which it shows [/uploads/undefined].  The script fills the page
    exactly when the view route serves it. *)
Theorem viewer_script_fills_page cfg (m : Manifest) protocol host id :
  url_safe_id id = true →
  viewer_script (Some (meta cfg m id))
  = Some (match m !! id with
          | Some rec =>
            Filled ("/uploads/" +:+ filename rec) (view_url cfg id) (view_url cfg id)
                   (setQR (view_url cfg id))
          | None =>
            if inherited id
            then Filled "/uploads/undefined" (view_url cfg id) (view_url cfg id)
                        (setQR (view_url cfg id))
            else Untouched
          end)
  ∧ text_of_src (setQR (view_url cfg id)) = Some (QStr (view_url cfg id))
  ∧ (status (view m protocol host id) = 200
     ↔ viewer_script (Some (meta cfg m id)) ≠ Some Untouched).
Proof.
  intros _.
  assert (H : viewer_script (Some (meta cfg m id))
    = Some (match m !! id with
            | Some rec =>
              Filled ("/uploads/" +:+ filename rec) (view_url cfg id) (view_url cfg id)
                     (setQR (view_url cfg id))
            | None =>
              if inherited id
              then Filled "/uploads/undefined" (view_url cfg id) (view_url cfg id)
                          (setQR (view_url cfg id))
              else Untouched
            end)).
  { destruct (m !! id) as [rec|] eqn:E.
    - now rewrite (meta_own cfg m id rec E).
    - destruct (inherited id) eqn:Hi.
      + now rewrite (meta_inherited cfg m id E Hi).
      + now rewrite (meta_undefined cfg m id E Hi). }
  split; [exact H|]. split; [apply text_of_setQR|].
  rewrite H. unfold view, obj_get.
  destruct (m !! id) as [rec|]; cbn.
  - split; [discriminate | reflexivity].
  - destruct (inherited id); cbn.
    + split; [discriminate | reflexivity].
    + split; [discriminate | now intros Hc].
Qed.

(** The id of the stored record, and the name every object inherits. *)
Lemma viewer_script_fills_page_witness :
  viewer_script (Some (meta demo_config (manifest demo_server) "V1StGXR8_Z"))
  = Some (Filled "/uploads/V1StGXR8_Z.png" "http://192.168.1.7:3000/view/V1StGXR8_Z"
                 "http://192.168.1.7:3000/view/V1StGXR8_Z"
                 (setQR "http://192.168.1.7:3000/view/V1StGXR8_Z"))
  ∧ viewer_script (Some (meta demo_config (manifest demo_server) "constructor"))
    = Some (Filled "/uploads/undefined" "http://192.168.1.7:3000/view/constructor"
                   "http://192.168.1.7:3000/view/constructor"
                   (setQR "http://192.168.1.7:3000/view/constructor")).
Proof.
  split.
  - exact (proj1 (viewer_script_fills_page demo_config (manifest demo_server)
                    "http" "192.168.1.7:3000" "V1StGXR8_Z" eq_refl)).
  - exact (proj1 (viewer_script_fills_page demo_config (manifest demo_server)
                    "http" "192.168.1.7:3000" "constructor" eq_refl)).
Defined.
